(** * dna-backup: the chunking, matching and encoding engine

    A shallow embedding of [repo.go] and [sketch/sketch.go].  Byte slices are
    [list byte], Go maps are [gmap]s, lengths and counts (non-negative Go
    [int]s, bounded here by twice the chunk size) are [nat], 64-bit hash
    values and chunk indices are [Z].  Code that can panic returns a
    [result]; code that mutates the repository runs in a small state and
    error monad. *)

From stdpp Require Import base numbers list option countable strings gmap.
From Stdlib Require Import ZArith Lia.
From Stdlib.Strings Require Import Byte.

#[global] Set Warnings "-abstract-large-number".

Local Open Scope nat_scope.

(** ** Outcomes of a Go call *)

(** [Panic] is a Go panic ([logger.Panic], [logger.Panicf], a division by
    zero, an index out of range); [OutOfFuel] only marks a loop of the model
    that was given too few iterations. *)
Inductive result (A : Type) : Type :=
  | Ok (a : A)
  | Panic
  | OutOfFuel.
Arguments Ok {A} a.
Arguments Panic {A}.
Arguments OutOfFuel {A}.

Definition result_bind {A B : Type} (r : result A) (k : A → result B) : result B :=
  match r with
  | Ok a => k a
  | Panic => Panic
  | OutOfFuel => OutOfFuel
  end.

#[global] Instance result_mret : MRet result := λ A a, Ok a.
#[global] Instance result_mbind : MBind result := λ A B k r, result_bind r k.

#[global] Instance byte_eq_decision : EqDecision byte := Byte.byte_eq_dec.

(** ** The error values of package [io] that the engine looks at *)
Inductive ioerr : Type := ErrNil | EOF | ErrUnexpectedEOF.

#[global] Instance ioerr_eq_dec : EqDecision ioerr.
Proof. solve_decision. Defined.

(** [io.ReadFull(r, buf)] for an in-memory stream: it reads
    [min(len(buf), len(stream))] bytes; the error is [EOF] only if no byte
    was read, and [ErrUnexpectedEOF] if some but not all bytes were read. *)
Definition ReadFull (stream : list byte) (len : nat)
  : list byte * nat * ioerr * list byte :=
  let n := Nat.min len (length stream) in
  let err := if decide (n = len) then ErrNil
             else if decide (n = 0) then EOF else ErrUnexpectedEOF in
  (take n stream, n, err, drop n stream).

(** [bufio.Reader.ReadByte] on an in-memory stream. *)
Definition ReadByte (stream : list byte) : byte * ioerr * list byte :=
  match stream with
  | [] => (x00, EOF, [])
  | b :: rest => (b, ErrNil, rest)
  end.

(** [binary.LittleEndian.PutUint64]: the eight bytes of a 64-bit value,
    least significant first. *)
Definition byte_of_Z (z : Z) : byte :=
  match Byte.of_N (Z.to_N (Z.land z 255)) with
  | Some b => b
  | None => x00
  end.

Definition PutUint64 (v : Z) : list byte :=
  (λ i : nat, byte_of_Z (Z.shiftr v (8 * Z.of_nat i))) <$> seq 0 8.

(** ** Fixtures used by the worked examples

    A concrete window hash, differ and patcher.  The hash folds the bytes
    into a polynomial in base 257 reduced modulo 2^64. *)
Definition demoHash (w : list byte) : Z :=
  fold_left (λ h b, ((h * 257 + Z.of_N (Byte.to_N b) + 1) `mod` 2 ^ 64)%Z) w 0%Z.

(** A differ that stores the target verbatim, and its patcher. *)
Definition copyDiff (source target : list byte) : option (list byte) := Some target.
Definition copyPatch (source patch : list byte) : list byte := patch.

(** A differ that always reports an error. *)
Definition failDiff (source target : list byte) : option (list byte) := None.

Definition bytes_of (l : list nat) : list byte := (λ n, byte_of_Z (Z.of_nat n)) <$> l.

(** ** Package [rabinkarp64] *)

Module rabinkarp64.

(** Modelled from the spec: package [rabinkarp64] is an external
    dependency of the repository.  A polynomial stands for the 64-bit
    hash it induces on a window of bytes; [Roll] slides the window by one
    byte and the sum after rolling is the sum of [Reset; Write] on the new
    window (section 4.1).  Every [Write] of the engine is made on a hasher
    that is new or was just reset. *)
Definition Pol : Type := list byte → Z.

Record RabinKarp64 : Type := { pol : Pol; window : list byte }.

Definition NewFromPol (p : Pol) : RabinKarp64 := {| pol := p; window := [] |}.

Definition Reset (d : RabinKarp64) : RabinKarp64 := {| pol := pol d; window := [] |}.

Definition Write (d : RabinKarp64) (data : list byte) : RabinKarp64 :=
  {| pol := pol d; window := window d ++ data |}.

Definition Roll (d : RabinKarp64) (b : byte) : RabinKarp64 :=
  {| pol := pol d; window := tail (window d) ++ [b] |}.

Definition Sum64 (d : RabinKarp64) : Z := pol d (window d).

End rabinkarp64.

(** ** Package [sketch] *)

Module sketch.
Import rabinkarp64.

Definition fBytes : nat := 8.

(** [chunkSize / (sfCount * fCount)]; an integer division by zero is a
    run-time panic in Go. *)
Definition FeatureSize (chunkSize sfCount fCount : nat) : result nat :=
  if decide (sfCount * fCount = 0) then Panic
  else Ok (chunkSize / (sfCount * fCount)).

Definition SuperFeatureSize (chunkSize sfCount fCount : nat) : result nat :=
  fSize ← FeatureSize chunkSize sfCount fCount; mret (fSize * sfCount).

(** The loop of [calcFeature]: [n] more windows, each obtained by reading
    one byte (a failed read leaves [b] at zero) and rolling it in. *)
Fixpoint rollMax (n : nat) (hasher : RabinKarp64) (r : list byte) (max : Z) : Z :=
  match n with
  | 0 => max
  | S n' =>
      let '(b, _, r') := ReadByte r in
      let hasher' := Roll hasher b in
      let h := Sum64 hasher' in
      rollMax n' hasher' r' (if (h >? max)%Z then h else max)
  end.

Definition calcFeature (p : Pol) (r : list byte) (wSize fSize : nat) : Z :=
  let hasher := Write (NewFromPol p) (take wSize r) in
  rollMax (fSize - wSize) hasher (drop wSize r) (Sum64 hasher).

(** The first loop of [SketchChunk]: [n] regions of [fSize] bytes are cut
    from the front of the chunk; a region that comes out short is logged
    and skipped. *)
Fixpoint featuresLoop (p : Pol) (n : nat) (chunk : list byte) (wSize fSize : nat)
  : list Z :=
  match n with
  | 0 => []
  | S n' =>
      let fBuff := take fSize chunk in
      let chunk' := drop fSize chunk in
      if decide (length fBuff < fSize)
      then featuresLoop p n' chunk' wSize fSize
      else calcFeature p fBuff wSize fSize :: featuresLoop p n' chunk' wSize fSize
  end.

(** The second loop: each group of [fCount] features is packed
    little-endian into [sfBuff] and hashed after a reset. *)
Fixpoint superfeaturesLoop (p : Pol) (n : nat) (features : list Z) (fCount : nat)
  : list Z :=
  match n with
  | 0 => []
  | S n' =>
      let sfBuff := concat (PutUint64 <$> take fCount features) in
      Sum64 (Write (Reset (NewFromPol p)) sfBuff)
        :: superfeaturesLoop p n' (drop fCount features) fCount
  end.

Definition SketchChunk (r : list byte) (p : Pol)
    (chunkSize wSize sfCount fCount : nat) : result (list Z) :=
  fSize ← FeatureSize chunkSize sfCount fCount;
  let chunkLen := length r in
  if decide (fSize = 0) then Panic
  else
    let features := featuresLoop p (chunkLen / fSize) r wSize fSize in
    if decide (fCount = 0) then Panic
    else Ok (superfeaturesLoop p (length features / fCount) features fCount).

End sketch.

(** ** Data model of [repo.go] *)

Record ChunkId : Type := mkChunkId { Ver : nat; Idx : Z }.

#[global] Instance ChunkId_eq_dec : EqDecision ChunkId.
Proof. solve_decision. Defined.

#[global] Instance ChunkId_countable : Countable ChunkId.
Proof.
  apply (inj_countable' (λ c, (Ver c, Idx c)) (λ p, mkChunkId p.1 p.2)).
  by intros [].
Defined.

(** Modelled from the spec: the chunk types of [chunk.go] are not among the
    sources.  A chunk is one of three variants (section 3): a reference to a
    persisted payload, an in-memory payload, or a patch against a stored
    source together with the size of the encoded content. *)
Inductive Chunk : Type :=
  | StoredChunk (Id : ChunkId)
  | TempChunk (value : list byte)
  | DeltaChunk (Source : ChunkId) (Patch : list byte) (Size : nat).

Record chunkHashes : Type := mkChunkHashes { Fp : Z; Sk : list Z }.

Record chunkData : Type :=
  mkChunkData { hashes : chunkHashes; content : list byte; cid : ChunkId }.

Record File : Type := mkFile { Path : string; Size : nat }.

(** A version directory [<repo>/<VVVVV>]: the payload files of [chunks/]
    keyed by index (payloads are kept decoded: the write and read wrappers
    are inverse codecs), and the three framed files, absent until written. *)
Record VersionDir : Type := mkVersionDir {
  chunksDir : gmap Z (list byte);
  hashesFile : option (list chunkHashes);
  filesFile : option (list File);
  recipeFile : option (list Chunk)
}.

(** The directory [r.path]: its version directories in name order, as
    [loadVersions] lists them. *)
Abbreviation Disk := (list VersionDir).

Abbreviation FingerprintMap := (gmap Z ChunkId).
Abbreviation SketchMap := (gmap Z (list ChunkId)).

(** The mutable part of [Repo].  [chunkCache] stands for the cache of
    package [cache] (not among the sources) without its eviction. *)
Record Repo : Type := mkRepo {
  dir : Disk;
  fingerprints : FingerprintMap;
  sketches : SketchMap;
  chunkCache : gmap ChunkId (list byte)
}.

(** [NewRepo]: empty maps and an empty cache over the directory [path]. *)
Definition NewRepo (path : Disk) : Repo :=
  {| dir := path; fingerprints := ∅; sketches := ∅; chunkCache := ∅ |}.

(** [contains] compares pointers; each identifier of the engine is allocated
    once per index, so the pointers of one list are equal exactly when the
    identifiers are. *)
Definition contains (s : list ChunkId) (id : ChunkId) : bool :=
  bool_decide (id ∈ s).

(** [SketchMap.Set] *)
Definition SketchMap_Set (m : SketchMap) (key : list Z) (value : ChunkId) : SketchMap :=
  fold_left
    (λ (m : SketchMap) (s : Z),
       let prev := default [] (m !! s) in
       if contains prev value then m else <[s := prev ++ [value]]> m)
    key m.

(** ** A state and error monad *)

Definition ST (S A : Type) : Type := S → result (A * S).

#[global] Instance ST_mret {S : Type} : MRet (ST S) := λ A a s, Ok (a, s).

Definition ST_bind {S A B : Type} (m : ST S A) (k : A → ST S B) : ST S B :=
  λ s,
    match m s with
    | Ok (a, s') => k a s'
    | Panic => Panic
    | OutOfFuel => OutOfFuel
    end.

#[global] Instance ST_mbind {S : Type} : MBind (ST S) := λ A B k m, ST_bind m k.

Notation "x <- m ;; k" := (ST_bind m (λ x, k))
  (at level 20, m at level 99, k at level 200, only parsing).
Notation "' x <- m ;; k" := (ST_bind m (λ x, k))
  (at level 20, x pattern, m at level 99, k at level 200, only parsing).

Definition get {S : Type} : ST S S := λ s, Ok (s, s).
Definition put {S : Type} (s : S) : ST S unit := λ _, Ok (tt, s).
Definition modify {S : Type} (f : S → S) : ST S unit := λ s, Ok (tt, f s).
Definition panic {S A : Type} : ST S A := λ _, Panic.
Definition liftR {S A : Type} (r : result A) : ST S A :=
  λ s, match r with Ok a => Ok (a, s) | Panic => Panic | OutOfFuel => OutOfFuel end.

(** The locals of [matchStream] that its helpers reach through pointers and
    channels: the repository, the next free index [last], what was sent on
    [storeQueue], whether the storage worker was started, and a record of
    every call of [NewTempChunk]. *)
Record State : Type := mkState {
  repo : Repo;
  last : Z;
  storeQueue : list chunkData;
  workerStarted : bool;
  tempLog : list (list byte)
}.

Definition withRepo {A : Type} (m : ST Repo A) : ST State A :=
  λ s,
    match m (repo s) with
    | Ok (a, r') =>
        Ok (a, {| repo := r'; last := last s; storeQueue := storeQueue s;
                  workerStarted := workerStarted s; tempLog := tempLog s |})
    | Panic => Panic
    | OutOfFuel => OutOfFuel
    end.

Definition NewTempChunk (value : list byte) : ST State (list byte) :=
  λ s, Ok (value, {| repo := repo s; last := last s; storeQueue := storeQueue s;
                     workerStarted := workerStarted s;
                     tempLog := tempLog s ++ [value] |}).

Definition readChunkFile (d : Disk) (id : ChunkId) : option (list byte) :=
  v ← d !! Ver id; chunksDir v !! Idx id.

(** [copy(dst, src)]: the first [min(len(dst), len(src))] bytes of [dst]
    are overwritten. *)
Definition copy (dst src : list byte) : list byte :=
  take (length dst) src ++ drop (length src) dst.

(** How writing one payload file ends: the file is written, [os.Create]
    fails and no file appears, or the copy fails after some bytes. *)
Inductive storeOutcome : Type :=
  | StoreOk
  | CreateFails
  | WriteFails (written : nat).

(** What the storage worker does, in order. *)
Inductive event : Type :=
  | EvEncode (id : ChunkId) (h : chunkHashes)
  | EvStore (id : ChunkId) (ok : bool)
  | EvLogError (id : ChunkId)
  | EvEnd.

(** The state of the voting loop of [findSimilarChunk]. *)
Record similar : Type := mkSimilar {
  similarChunks : gmap ChunkId nat;
  max : nat;
  similarChunk : option ChunkId
}.

(** The variables of the main loop of [matchStream]. *)
Record Loop : Type := mkLoop {
  bufStream : list byte;
  hasher : rabinkarp64.RabinKarp64;
  buff : list byte;
  prev : option (list byte);
  chunks : list Chunk;
  err : ioerr
}.

(** ** Fixtures of the worked examples, continued *)

Definition demoX : list byte := bytes_of [1; 2; 3; 4].
Definition demoA : list byte := bytes_of [5; 6; 7; 8].
Definition demoB : list byte := bytes_of [9; 10; 11; 12].

Definition demoDir : VersionDir :=
  {| chunksDir := ∅; hashesFile := None; filesFile := None; recipeFile := None |}.

(** The locals of [matchStream] at its start, in a repository whose first
    version directory was just created. *)
Definition demoState : State :=
  {| repo := NewRepo [demoDir]; last := 0; storeQueue := [];
     workerStarted := false; tempLog := [] |}.

Definition noFault (id : ChunkId) : storeOutcome := StoreOk.

(** A payload write that fails for chunk [(0, 1)] only. *)
Definition demoFault (id : ChunkId) : storeOutcome :=
  if decide (id = mkChunkId 0 1) then CreateFails else StoreOk.

Definition demoQueue : list chunkData :=
  [ mkChunkData (mkChunkHashes 11 [21%Z]) demoX (mkChunkId 0 0);
    mkChunkData (mkChunkHashes 12 [22%Z]) demoA (mkChunkId 0 1) ].

(** A version whose hashes file holds two records with the same
    fingerprint. *)
Definition demoCollision : VersionDir :=
  {| chunksDir := {[ 0%Z := demoX; 1%Z := demoA ]};
     hashesFile := Some [mkChunkHashes 7 [1%Z]; mkChunkHashes 7 [2%Z]];
     filesFile := None; recipeFile := None |}.

(** A query chunk and two indexed chunks of three bytes, sketched with one
    feature per byte: the first shares two super-features with the query,
    the second shares one. *)
Definition demoQuery : list byte := bytes_of [1; 2; 3].
Definition demoNearA : list byte := bytes_of [1; 2; 9].
Definition demoNearB : list byte := bytes_of [7; 8; 3].

Definition demoSketch (c : list byte) : list Z :=
  match sketch.SketchChunk c demoHash 3 1 3 1 with
  | Ok sk => sk
  | _ => []
  end.

Definition demoIndex : Repo :=
  {| dir := [];
     fingerprints := <[demoHash demoNearB := mkChunkId 0 1]>
                       (<[demoHash demoNearA := mkChunkId 0 0]> ∅);
     sketches := SketchMap_Set
                   (SketchMap_Set ∅ (demoSketch demoNearA) (mkChunkId 0 0))
                   (demoSketch demoNearB) (mkChunkId 0 1);
     chunkCache := ∅ |}.

(** The state of the main loop when the window [demoX] is found in the
    index while the buffer holds [demoA ++ demoX]. *)
Definition demoHitLoop : Loop :=
  {| bufStream := []; hasher := {| rabinkarp64.pol := demoHash; rabinkarp64.window := demoX |};
     buff := demoA ++ demoX; prev := None; chunks := []; err := ErrNil |}.

Definition demoHitState : State :=
  {| repo := {| dir := [demoDir];
                fingerprints := {[ demoHash demoX := mkChunkId 0 0 ]};
                sketches := ∅;
                chunkCache := {[ mkChunkId 0 0 := demoX ]} |};
     last := 1; storeQueue := []; workerStarted := true; tempLog := [] |}.

(** Two chunks of ten bytes with the same largest byte, hence the same
    sketch when the whole chunk is one feature of one-byte windows. *)
Definition demoP : list byte := bytes_of [1; 2; 3; 4; 5; 6; 7; 8; 9; 10].
Definition demoP' : list byte := bytes_of [10; 9; 8; 7; 6; 5; 4; 3; 2; 1].

Definition demoTree : list (string * list byte) :=
  [("a"%string, demoX ++ demoA); ("b"%string, demoB ++ demoX)].

(** The locals of [matchStream] once [demoP] has been stored as chunk
    [(0, 0)]. *)
Definition demoDeltaState : State :=
  {| repo := {| dir := [demoDir];
                fingerprints := {[ demoHash demoP := mkChunkId 0 0 ]};
                sketches := SketchMap_Set ∅
                              (match sketch.SketchChunk demoP demoHash 10 1 1 1 with
                               | Ok sk => sk
                               | _ => []
                               end) (mkChunkId 0 0);
                chunkCache := {[ mkChunkId 0 0 := demoP ]} |};
     last := 1; storeQueue := []; workerStarted := true; tempLog := [] |}.




(** A version whose single payload has its record in the hashes file, for
    the parameters [chunkSize = 3], [wSize = 1], [sfCount = 3],
    [fCount = 1]. *)
Definition demoHashedDir : VersionDir :=
  {| chunksDir := {[ 0%Z := demoQuery ]};
     hashesFile := Some [mkChunkHashes (demoHash demoQuery) (demoSketch demoQuery)];
     filesFile := None; recipeFile := None |}.

(** A version with one stored chunk, a recipe of two chunks and a file
    list whose sizes add up to one byte less than the recipe yields. *)
Definition demoRestoreDir : VersionDir :=
  {| chunksDir := {[ 0%Z := demoX ]};
     hashesFile := None;
     filesFile := Some [mkFile "a" 2; mkFile "b" 5];
     recipeFile := Some [StoredChunk (mkChunkId 0 0); TempChunk demoA] |}.

(** A version whose recipe yields four bytes for a file list of ten: the
    stream ends inside the second file. *)
Definition demoShortRestoreDir : VersionDir :=
  {| chunksDir := {[ 0%Z := demoX ]};
     hashesFile := None;
     filesFile := Some [mkFile "a" 2; mkFile "b" 5; mkFile "c" 3];
     recipeFile := Some [StoredChunk (mkChunkId 0 0)] |}.

Section Engine.
Import rabinkarp64.

(** The parameters that [NewRepo] fixes for a repository, the differ and
    the patcher (interfaces whose implementation is not among the
    sources), and the outcome of each payload write. *)
Variables (chunkSize sketchWSize sketchSfCount sketchFCount : nat).
Variable pol : Pol.
Variable Diff : list byte → list byte → option (list byte).
Variable Patch : list byte → list byte → list byte.
Variable fault : ChunkId → storeOutcome.

Definition chunkMinLen : result nat :=
  sketch.SuperFeatureSize chunkSize sketchSfCount sketchFCount.

(** *** Chunk store *)

Definition StoreChunkContent (id : ChunkId) (data : list byte) (d : Disk)
  : Disk * bool :=
  match d !! Ver id with
  | None => (d, false)
  | Some v =>
      let write (payload : list byte) :=
        <[Ver id := {| chunksDir := <[Idx id := payload]> (chunksDir v);
                       hashesFile := hashesFile v;
                       filesFile := filesFile v;
                       recipeFile := recipeFile v |}]> d in
      match fault id with
      | StoreOk => (write data, true)
      | CreateFails => (d, false)
      | WriteFails n => (write (take n data), false)
      end
  end.

(** A payload that cannot be opened leaves the reader without a file:
    reading from it panics. *)
Definition LoadChunkContent (id : ChunkId) : ST Repo (list byte) :=
  λ r,
    match chunkCache r !! id with
    | Some value => Ok (value, r)
    | None =>
        match readChunkFile (dir r) id with
        | Some value =>
            Ok (value, {| dir := dir r; fingerprints := fingerprints r;
                          sketches := sketches r;
                          chunkCache := <[id := value]> (chunkCache r) |})
        | None => Panic
        end
    end.

(** The body of the worker's loop, and the worker.  The error of
    [encoder.Encode] is overwritten without being read. *)
Definition storeOne (version : nat) (acc : Disk * list event) (data : chunkData)
  : Disk * list event :=
  let '(d, log) := acc in
  let d1 :=
    match d !! version with
    | Some v =>
        <[version := {| chunksDir := chunksDir v;
                        hashesFile := Some (default [] (hashesFile v) ++ [hashes data]);
                        filesFile := filesFile v;
                        recipeFile := recipeFile v |}]> d
    | None => d
    end in
  let '(d2, ok) := StoreChunkContent (cid data) (content data) d1 in
  (d2, log ++ [EvEncode (cid data) (hashes data); EvStore (cid data) ok]
           ++ (if ok then [] else [EvLogError (cid data)])).

Definition storageWorker (version : nat) (queue : list chunkData) (d : Disk)
  : result (Disk * list event) :=
  match d !! version with
  | None => Panic
  | Some v =>
      let d0 := <[version := {| chunksDir := chunksDir v; hashesFile := Some [];
                                 filesFile := filesFile v;
                                 recipeFile := recipeFile v |}]> d in
      let '(d', log) := fold_left (storeOne version) queue (d0, []) in
      Ok (d', log ++ [EvEnd])
  end.

(** *** Indices *)

Definition loadHashesRecord (i : nat) (acc : Repo * Z) (h : chunkHashes) : Repo * Z :=
  let '(r, j) := acc in
  let id := mkChunkId i j in
  ({| dir := dir r;
      fingerprints := <[Fp h := id]> (fingerprints r);
      sketches := SketchMap_Set (sketches r) (Sk h) id;
      chunkCache := chunkCache r |}, (j + 1)%Z).

Fixpoint loadHashesFrom (i : nat) (versions : list VersionDir) : ST Repo unit :=
  match versions with
  | [] => mret tt
  | v :: rest =>
      match hashesFile v with
      | None => panic
      | Some records =>
          _ <- modify (λ r, (fold_left (loadHashesRecord i) records (r, 0%Z)).1);;
          loadHashesFrom (S i) rest
      end
  end.

Definition loadHashes (versions : list VersionDir) : ST Repo unit :=
  loadHashesFrom 0 versions.

Definition makeFingerprint (content : list byte) : Z :=
  Sum64 (Write (NewFromPol pol) content).

Definition makeSketch (content : list byte) : result (list Z) :=
  sketch.SketchChunk content pol chunkSize sketchWSize sketchSfCount sketchFCount.

Definition hashChunk (id : ChunkId) (content : list byte) : ST Repo (Z * list Z) :=
  let fp := makeFingerprint content in
  sk <- liftR (makeSketch content);;
  _ <- modify (λ r, {| dir := dir r;
                      fingerprints := <[fp := id]> (fingerprints r);
                      sketches := SketchMap_Set (sketches r) sk id;
                      chunkCache := chunkCache r |});;
  mret (fp, sk).

(** [loadChunks]: for version [i], one identifier per entry of its
    chunks directory, numbered by position. *)
Fixpoint loadChunksFrom (i : nat) (versions : list VersionDir) : list ChunkId :=
  match versions with
  | [] => []
  | v :: rest =>
      ((λ j, mkChunkId i (Z.of_nat j)) <$> seq 0 (size (chunksDir v)))
        ++ loadChunksFrom (S i) rest
  end.

Definition loadChunks (versions : list VersionDir) : list ChunkId :=
  loadChunksFrom 0 versions.

Fixpoint hashChunks (chunks : list ChunkId) : ST Repo unit :=
  match chunks with
  | [] => mret tt
  | c :: rest =>
      content <- LoadChunkContent c;;
      _ <- hashChunk c content;;
      hashChunks rest
  end.

(** *** Similarity search *)

Definition vote (st : similar) (id : ChunkId) : similar :=
  let count := default 0 (similarChunks st !! id) in
  let count := count + 1 in
  {| similarChunks := <[id := count]> (similarChunks st);
     max := max st;
     similarChunk := if decide (max st < count) then Some id else similarChunk st |}.

Definition votes (sketches : SketchMap) (sk : list Z) : similar :=
  fold_left
    (λ st s, match sketches !! s with
             | None => st
             | Some chunkIds => fold_left vote chunkIds st
             end)
    sk {| similarChunks := ∅; max := 0; similarChunk := None |}.

Definition findSimilarChunk (chunk : list byte) : ST Repo (option ChunkId) :=
  sk <- liftR (sketch.SketchChunk chunk pol chunkSize sketchWSize sketchSfCount sketchFCount);;
  r <- get;;
  mret (similarChunk (votes (sketches r) sk)).

(** *** Encoding of temporary chunks *)

Definition tryDeltaEncodeChunk (temp : list byte) : ST Repo (Chunk * bool) :=
  found <- findSimilarChunk temp;;
  match found with
  | Some id =>
      source <- LoadChunkContent id;;
      match Diff source temp with
      | None => mret (TempChunk temp, false)
      | Some patch => mret (DeltaChunk id patch (length temp), true)
      end
  | None => mret (TempChunk temp, false)
  end.

Definition encodeTempChunk (temp : list byte) (version : nat) : ST State (Chunk * bool) :=
  '(chunk, isDelta) <- withRepo (tryDeltaEncodeChunk temp);;
  if isDelta then mret (chunk, isDelta)
  else if decide (length temp = chunkSize) then
    s <- get;;
    let id := mkChunkId version (last s) in
    _ <- put {| repo := repo s; last := ((last s + 1) `mod` 2 ^ 64)%Z;
               storeQueue := storeQueue s; workerStarted := workerStarted s;
               tempLog := tempLog s |};;
    '(fp, sk) <- withRepo (hashChunk id temp);;
    _ <- modify (λ s, {| repo := {| dir := dir (repo s);
                                   fingerprints := fingerprints (repo s);
                                   sketches := sketches (repo s);
                                   chunkCache := <[id := temp]> (chunkCache (repo s)) |};
                        last := last s;
                        storeQueue := storeQueue s ++ [mkChunkData (mkChunkHashes fp sk) temp id];
                        workerStarted := workerStarted s;
                        tempLog := tempLog s |});;
    mret (StoredChunk id, false)
  else mret (chunk, isDelta).

Definition encodeTempChunks (prev : option (list byte)) (curr : list byte)
    (version : nat) : ST State (list Chunk) :=
  match prev with
  | None =>
      '(c, _) <- encodeTempChunk curr version;;
      mret [c]
  | Some p =>
      minLen <- liftR chunkMinLen;;
      if decide (length curr < minLen) then
        tmp <- NewTempChunk (p ++ curr);;
        '(c, success) <- encodeTempChunk tmp version;;
        if success then mret [c] else mret [TempChunk p; TempChunk curr]
      else
        '(prevD, _) <- encodeTempChunk p version;;
        '(currD, _) <- encodeTempChunk curr version;;
        mret [prevD; currD]
  end.

(** *** The stream matcher *)

(** The refill loop of the hit branch: up to [n] bytes, as long as the
    last read gave no error. *)
Fixpoint refill (n : nat) (stream : list byte) (h : RabinKarp64)
    (buff : list byte) (err : ioerr)
  : list byte * RabinKarp64 * list byte * ioerr :=
  match n with
  | 0 => (stream, h, buff, err)
  | S n' =>
      if decide (err = ErrNil) then
        let '(b, err', stream') := ReadByte stream in
        if decide (err' ≠ EOF)
        then refill n' stream' (Roll h b) (buff ++ [b]) err'
        else refill n' stream' h buff err'
      else (stream, h, buff, err)
  end.

(** [encodeTempChunk(prev)] appended to [chunks] when [prev] is set. *)
Definition flushPrev (prev : option (list byte)) (chunks : list Chunk)
    (version : nat) : ST State (list Chunk) :=
  match prev with
  | Some p =>
      '(c, _) <- encodeTempChunk p version;;
      mret (chunks ++ [c])
  | None => mret chunks
  end.

(** One iteration of [for err != io.EOF]. *)
Definition loopBody (version : nat) (l : Loop) : ST State Loop :=
  let h := Sum64 (hasher l) in
  s <- get;;
  match fingerprints (repo s) !! h with
  | Some chunkId =>
      chunks1 <-
        (if decide (chunkSize < length (buff l) ∧ length (buff l) < chunkSize * 2) then
           let size := length (buff l) - chunkSize in
           temp <- NewTempChunk (take size (buff l));;
           cs <- encodeTempChunks (prev l) temp version;;
           mret (chunks l ++ cs)
         else flushPrev (prev l) (chunks l) version);;
      let chunks2 := chunks1 ++ [StoredChunk chunkId] in
      let '(stream', hasher', buff', err') :=
        refill chunkSize (bufStream l) (hasher l) [] (err l) in
      mret {| bufStream := stream'; hasher := hasher'; buff := buff';
              prev := None; chunks := chunks2; err := err' |}
  | None =>
      '(chunks1, prev1, buff1) <-
        (if decide (length (buff l) = chunkSize * 2) then
           chunks1 <- flushPrev (prev l) (chunks l) version;;
           p <- NewTempChunk (take chunkSize (buff l));;
           let tmp := drop chunkSize (buff l) in
           mret (chunks1, Some p, copy (replicate chunkSize x00) tmp)
         else mret (chunks l, prev l, buff l));;
      let '(b, err', stream') := ReadByte (bufStream l) in
      if decide (err' ≠ EOF) then
        mret {| bufStream := stream'; hasher := Roll (hasher l) b;
                buff := buff1 ++ [b]; prev := prev1; chunks := chunks1;
                err := err' |}
      else
        mret {| bufStream := stream'; hasher := hasher l; buff := buff1;
                prev := prev1; chunks := chunks1; err := err' |}
  end.

Fixpoint loop (fuel : nat) (version : nat) (l : Loop) : ST State Loop :=
  if decide (err l = EOF) then mret l
  else
    match fuel with
    | 0 => λ _, OutOfFuel
    | S fuel' =>
        l' <- loopBody version l;;
        loop fuel' version l'
    end.

(** What follows the loop: the bytes still in [buff] are encoded. *)
Definition tail_ (version : nat) (l : Loop) : ST State (list Chunk) :=
  if decide (0 < length (buff l)) then
    '(chunks1, prev1, temp) <-
      (if decide (chunkSize < length (buff l)) then
         chunks1 <- flushPrev (prev l) (chunks l) version;;
         p <- NewTempChunk (take chunkSize (buff l));;
         temp <- NewTempChunk (drop chunkSize (buff l));;
         mret (chunks1, Some p, temp)
       else
         temp <- NewTempChunk (buff l);;
         mret (chunks l, prev l, temp));;
    cs <- encodeTempChunks prev1 temp version;;
    mret (chunks1 ++ cs)
  else mret (chunks l).

(** [close(storeQueue); <-storeEnd]: the worker has written the hashes
    file and the payloads of everything that was queued. *)
Definition joinWorker (version : nat) : ST State unit :=
  λ s,
    match storageWorker version (storeQueue s) (dir (repo s)) with
    | Ok (d, _) =>
        Ok (tt, {| repo := {| dir := d; fingerprints := fingerprints (repo s);
                              sketches := sketches (repo s);
                              chunkCache := chunkCache (repo s) |};
                   last := last s; storeQueue := storeQueue s;
                   workerStarted := workerStarted s; tempLog := tempLog s |})
    | Panic => Panic
    | OutOfFuel => OutOfFuel
    end.

Definition matchStream (stream : list byte) (version : nat) : ST State (list Chunk) :=
  let '(data, n, err, rest) := ReadFull stream chunkSize in
  let buff := copy (replicate chunkSize x00) data in
  if decide (n < chunkSize) then
    if decide (err = EOF) then
      temp <- NewTempChunk (take n buff);;
      mret [TempChunk temp]
    else panic
  else
    let hasher := Write (NewFromPol pol) buff in
    _ <- modify (λ s, {| repo := repo s; last := last s; storeQueue := storeQueue s;
                        workerStarted := true; tempLog := tempLog s |});;
    l <- loop (S (length rest)) version
           {| bufStream := rest; hasher := hasher; buff := buff; prev := None;
              chunks := []; err := ErrNil |};;
    chunks <- tail_ version l;;
    _ <- joinWorker version;;
    mret chunks.

(** *** Recipe and restore *)

(** Modelled from the spec: the readers of the chunk variants belong to
    [chunk.go], which is not among the sources.  A stored chunk reads its
    payload from the chunk store, a temporary chunk is its own content,
    and the content of a delta chunk is the patcher applied to the
    payload of its source and to its patch (section 3). *)
Definition Reader (c : Chunk) : ST Repo (list byte) :=
  match c with
  | StoredChunk id => LoadChunkContent id
  | TempChunk value => mret value
  | DeltaChunk source patch _ =>
      content <- LoadChunkContent source;;
      mret (Patch content patch)
  end.

Fixpoint restoreStream (recipe : list Chunk) : ST Repo (list byte) :=
  match recipe with
  | [] => mret []
  | c :: rest =>
      data <- Reader c;;
      more <- restoreStream rest;;
      mret (data ++ more)
  end.

(** The loop of [Restore] over the file list: [io.CopyN] gives each file
    the next [file.Size] bytes of the stream, or what is left of it. *)
Fixpoint splitFiles (files : list File) (stream : list byte)
  : list (string * list byte) :=
  match files with
  | [] => []
  | file :: rest =>
      (Path file, take (Size file) stream) :: splitFiles rest (drop (Size file) stream)
  end.

Definition Restore : ST Repo (list (string * list byte)) :=
  r <- get;;
  match List.last (Some <$> dir r) None with
  | None => panic
  | Some latest =>
      match filesFile latest, recipeFile latest with
      | Some files, Some recipe =>
          stream <- restoreStream recipe;;
          mret (splitFiles files stream)
      | _, _ => panic
      end
  end.

(** *** Commit *)

(** A source tree: its regular files in the order of the walk, each with
    its path relative to the root and its bytes. *)
Definition listFiles (source : list (string * list byte)) : list File :=
  (λ f, mkFile f.1 (length f.2)) <$> source.

Definition concatFiles (source : list (string * list byte)) : list byte :=
  concat (snd <$> source).

Definition emptyVersionDir : VersionDir :=
  {| chunksDir := ∅; hashesFile := None; filesFile := None; recipeFile := None |}.

Definition storeFilesAndRecipe (version : nat) (files : list File)
    (recipe : list Chunk) (d : Disk) : Disk :=
  match d !! version with
  | Some v =>
      <[version := {| chunksDir := chunksDir v; hashesFile := hashesFile v;
                      filesFile := Some files; recipeFile := Some recipe |}]> d
  | None => d
  end.

(** [matchStream] run from a repository, with the locals it declares. *)
Definition runMatcher {A : Type} (m : ST State A) : ST Repo (A * State) :=
  λ r,
    match m {| repo := r; last := 0%Z; storeQueue := []; workerStarted := false;
               tempLog := [] |} with
    | Ok (a, s) => Ok ((a, s), repo s)
    | Panic => Panic
    | OutOfFuel => OutOfFuel
    end.

Definition Commit (source : list (string * list byte)) : ST Repo unit :=
  r <- get;;
  let versions := dir r in
  let newVersion := length versions in
  _ <- modify (λ r, {| dir := dir r ++ [emptyVersionDir];
                       fingerprints := fingerprints r; sketches := sketches r;
                       chunkCache := chunkCache r |});;
  let files := listFiles source in
  _ <- loadHashes versions;;
  '(recipe, _) <- runMatcher (matchStream (concatFiles source) newVersion);;
  modify (λ r, {| dir := storeFilesAndRecipe newVersion files recipe (dir r);
                  fingerprints := fingerprints r; sketches := sketches r;
                  chunkCache := chunkCache r |}).

(** *** Ghost definitions used in the statements *)

(** The candidate lists met by the two nested loops, in order. *)
Definition candidates (sketches : SketchMap) (sk : list Z) : list ChunkId :=
  concat (omap (λ s, sketches !! s) sk).

(** The records of the hashes files in the order [loadHashes] reads them,
    each with the identifier it is given: record [j] of version [i] is
    chunk [(i, j)]. *)
Definition recordsOf (i : nat) (j0 : nat) (records : list chunkHashes)
  : list (ChunkId * chunkHashes) :=
  imap (λ j h, (mkChunkId i (Z.of_nat (j0 + j)), h)) records.

Fixpoint allRecordsFrom (i : nat) (versions : list VersionDir)
  : list (ChunkId * chunkHashes) :=
  match versions with
  | [] => []
  | v :: rest => recordsOf i 0 (default [] (hashesFile v)) ++ allRecordsFrom (S i) rest
  end.

(** The two map updates that [loadHashes] and [hashChunk] share. *)
Definition indexRecord (r : Repo) (rec : ChunkId * chunkHashes) : Repo :=
  {| dir := dir r;
     fingerprints := <[Fp rec.2 := rec.1]> (fingerprints r);
     sketches := SketchMap_Set (sketches r) (Sk rec.2) rec.1;
     chunkCache := chunkCache r |}.

(** What the worker does for a queue: for each item, the record first, then
    the payload write, then the error log if the write failed. *)
Definition storeOk (o : storeOutcome) : bool :=
  match o with StoreOk => true | _ => false end.

Definition itemTrace (data : chunkData) : list event :=
  [EvEncode (cid data) (hashes data); EvStore (cid data) (storeOk (fault (cid data)))]
    ++ (if storeOk (fault (cid data)) then [] else [EvLogError (cid data)]).

Definition workerTrace (queue : list chunkData) : list event :=
  concat (itemTrace <$> queue) ++ [EvEnd].

(** The bounds the matcher keeps on its buffer and on the chunk it holds
    back, at the head of each iteration of its loop. *)
Definition Loop_inv (l : Loop) : Prop :=
  length (buff l) ≤ chunkSize * 2
  ∧ (err l = ErrNil ∨ err l = EOF)
  ∧ (err l = ErrNil → chunkSize ≤ length (buff l))
  ∧ ∀ p, prev l = Some p → length p = chunkSize.

Definition tempLen_ok (t : list byte) : Prop :=
  1 ≤ length t ∧ length t < chunkSize * 2.

(** A computation of the model that never runs out of fuel. *)
Definition terminates {S A : Type} (m : ST S A) : Prop := ∀ s, m s ≠ OutOfFuel.

(** A version directory as a commit without I/O failure leaves it: a hashes
    file with one record per payload file, record [j] holding the
    fingerprint and the sketch of payload [j]. *)
Definition versionHashed (v : VersionDir) : Prop :=
  ∃ payloads recs,
    hashesFile v = Some recs
    ∧ size (chunksDir v) = length payloads
    ∧ (∀ j : nat, chunksDir v !! Z.of_nat j = payloads !! j)
    ∧ Forall2 (λ p h, Fp h = makeFingerprint p ∧ makeSketch p = Ok (Sk h)) payloads recs.

(** The cache holds nothing but payloads of the disk. *)
Definition cacheSound (r : Repo) : Prop :=
  ∀ id c, chunkCache r !! id = Some c → readChunkFile (dir r) id = Some c.

(** The record [(id, h)] belongs to a payload of the disk. *)
Definition recordOnDisk (d : Disk) (rec : ChunkId * chunkHashes) : Prop :=
  ∃ p, readChunkFile d rec.1 = Some p
       ∧ Fp rec.2 = makeFingerprint p
       ∧ makeSketch p = Ok (Sk rec.2).

(** The logical content of a chunk, given how payloads are loaded. *)
Definition contentOf (load : ChunkId → option (list byte)) (c : Chunk)
  : option (list byte) :=
  match c with
  | StoredChunk id => load id
  | TempChunk value => Some value
  | DeltaChunk source patch _ => (λ content, Patch content patch) <$> load source
  end.

(** The contents of the chunks of [recipe], concatenated, are [bytes]. *)
Definition recipeYields (load : ChunkId → option (list byte)) (recipe : list Chunk)
    (bytes : list byte) : Prop :=
  ∃ parts, Forall2 (λ c part, contentOf load c = Some part) recipe parts
           ∧ concat parts = bytes.







(** The variables of the loop and the state when [matchStream] enters its
    loop on a stream of at least [chunkSize] bytes. *)
Definition startLoop (stream : list byte) : Loop :=
  {| bufStream := drop chunkSize stream;
     hasher := Write (NewFromPol pol) (take chunkSize stream);
     buff := take chunkSize stream; prev := None; chunks := []; err := ErrNil |}.

Definition startState (s : State) : State :=
  {| repo := repo s; last := last s; storeQueue := storeQueue s;
     workerStarted := true; tempLog := tempLog s |}.





(** The window of [wSize] bytes that starts at offset [i] of a feature
    region. *)
Definition windowAt (r : list byte) (wSize i : nat) : list byte :=
  take wSize (drop i r).

(** The region of [r] that super-feature [k] is computed from: [fCount]
    features of [fSize] bytes each. *)
Definition superFeatureRegion (r : list byte) (fSize fCount k : nat) : list byte :=
  take (fCount * fSize) (drop (k * (fCount * fSize)) r).


(** Super-feature computed from its region alone: the features of the
    [fCount] consecutive slices of [fSize] bytes, packed and hashed. *)
Definition superFeatureOf (p : Pol) (region : list byte) (wSize fSize fCount : nat) : Z :=
  p (concat (PutUint64 <$>
       ((λ i, sketch.calcFeature p (take fSize (drop (i * fSize) region)) wSize fSize)
          <$> seq 0 fCount))).


(** [unprefixFiles]: a path that starts with [prefix] loses it
    ([f.Path[len(prefix):]]); any other path is kept, with a warning. *)
Definition unprefixFile (prefix : string) (f : File) : File :=
  if String.prefix prefix (Path f)
  then mkFile (String.substring (String.length prefix)
                 (String.length (Path f) - String.length prefix) (Path f))
              (Size f)
  else f.

Definition unprefixFiles (files : list File) (prefix : string) : list File :=
  unprefixFile prefix <$> files.

(** The files of a walk below [prefix]. *)
Definition prefixFiles (prefix : string) (files : list File) : list File :=
  (λ f, mkFile (prefix +:+ Path f) (Size f)) <$> files.


(** What holds of the chunks queued for storage during a run that started
    with an empty queue on the index of [r0]: the next index is the length
    of the queue, the chunk queued at position [j] is chunk [(version, j)],
    has [chunkSize] bytes and carries its own fingerprint and sketch, and
    the index is that of [r0] with the records of the queue added in
    order. *)
Definition Queue_inv (version : nat) (r0 : Repo) (s : State) : Prop :=
  last s = Z.of_nat (length (storeQueue s))
  ∧ (∀ j data, storeQueue s !! j = Some data →
               cid data = mkChunkId version (Z.of_nat j)
               ∧ length (content data) = chunkSize
               ∧ Fp (hashes data) = makeFingerprint (content data)
               ∧ makeSketch (content data) = Ok (Sk (hashes data)))
  ∧ fingerprints (repo s)
    = fingerprints (fold_left indexRecord
                      (recordsOf version 0 (hashes <$> storeQueue s)) r0)
  ∧ sketches (repo s)
    = sketches (fold_left indexRecord
                  (recordsOf version 0 (hashes <$> storeQueue s)) r0).

(** The relation of the states of a run that keeps [Queue_inv] as long as
    the index of chunks does not wrap around. *)
Definition Queue_step (version : nat) (r0 : Repo) (s s' : State) : Prop :=
  length (storeQueue s) ≤ length (storeQueue s')
  ∧ ((Z.of_nat (length (storeQueue s')) < 2 ^ 64)%Z →
     Queue_inv version r0 s → Queue_inv version r0 s').

(** The state [matchStream] is called in by [Commit]. *)
Definition commitState (r : Repo) : State :=
  {| repo := r; last := 0; storeQueue := []; workerStarted := false; tempLog := [] |}.


(** Every queued chunk belongs to [version]. *)
Definition queuedIn (version : nat) (s : State) : Prop :=
  Forall (λ data, Ver (cid data) = version) (storeQueue s).

(** The relation of the states of a run before the worker is joined: the
    directory is not written and the queue stays within [version]. *)
Definition Dir_step (version : nat) (s s' : State) : Prop :=
  dir (repo s') = dir (repo s) ∧ (queuedIn version s → queuedIn version s').

(** * Properties *)

(** ** The sketch *)

Lemma featuresLoop_length (p : Pol) (n : nat) (r : list byte) (w fSize : nat) :
  n * fSize ≤ length r → length (sketch.featuresLoop p n r w fSize) = n.
Proof.
  revert r. induction n as [|n IH]; intros r Hn; [done|].
  simpl. case_decide as Hlt.
  - rewrite length_take in Hlt. lia.
  - simpl. f_equal. apply IH. rewrite length_drop. lia.
Qed.

Lemma superfeaturesLoop_length (p : Pol) (n : nat) (fs : list Z) (f : nat) :
  length (sketch.superfeaturesLoop p n fs f) = n.
Proof.
  revert fs. induction n as [|n IH]; intros fs; simpl; [done|]. by rewrite IH.
Qed.

Lemma sketch_count_arith (cs sf f : nat) :
  0 < cs / (sf * f) →
  cs `mod` (sf * f) < cs / (sf * f) * f →
  cs / (cs / (sf * f)) / f = sf.
Proof.
  intros Hq Hr.
  assert (Hk : sf * f ≠ 0) by (intros E; rewrite E in Hq; simpl in Hq; lia).
  assert (Hf : f ≠ 0) by lia.
  set (k := sf * f) in *. set (q := cs / k) in *.
  pose proof (Nat.div_mod_eq cs k) as Hdm. fold q in Hdm.
  assert (E1 : cs / q = k + cs `mod` k / q).
  { rewrite Hdm at 1. rewrite Nat.div_add_l by lia. done. }
  rewrite E1. unfold k at 1. rewrite Nat.div_add_l by lia.
  rewrite (Nat.div_small (cs `mod` k / q) f); [lia|].
  apply Nat.Div0.div_lt_upper_bound. lia.
Qed.

(** The number of super-features of a full chunk.  For a chunk of exactly
    [chunkSize] bytes and parameters with a non-zero feature size,
    [SketchChunk] returns [(chunkSize / fSize) / fCount] super-features,
    where [fSize = chunkSize / (sfCount * fCount)]; this number is
    [sfCount] whenever [chunkSize mod (sfCount * fCount) < fSize * fCount],
    which the default parameters satisfy. *)
Theorem SketchChunk_superfeature_count (p : Pol) (r : list byte)
    (cs wSize sfCount fCount : nat) :
  length r = cs →
  0 < cs / (sfCount * fCount) →
  ∃ sk, sketch.SketchChunk r p cs wSize sfCount fCount = Ok sk
        ∧ length sk = cs / (cs / (sfCount * fCount)) / fCount
        ∧ (cs `mod` (sfCount * fCount) < cs / (sfCount * fCount) * fCount →
           length sk = sfCount).
Proof.
  intros Hlen Hq.
  assert (Hk : sfCount * fCount ≠ 0) by (intros E; rewrite E in Hq; simpl in Hq; lia).
  unfold sketch.SketchChunk, sketch.FeatureSize.
  rewrite decide_False by done. simpl.
  rewrite decide_False by lia.
  rewrite decide_False by lia.
  eexists; split; [reflexivity|].
  rewrite superfeaturesLoop_length, featuresLoop_length, Hlen.
  - split; [done|]. intros Hr. by apply sketch_count_arith.
  - rewrite Hlen. rewrite Nat.mul_comm. apply Nat.Div0.mul_div_le.
Qed.




(** ** Reasoning in the state monad *)

Lemma ST_bind_Ok {S A B : Type} (m : ST S A) (k : A → ST S B) (s s' : S) (b : B) :
  ST_bind m k s = Ok (b, s') ↔ ∃ a s1, m s = Ok (a, s1) ∧ k a s1 = Ok (b, s').
Proof.
  unfold ST_bind. destruct (m s) as [[a s1]| |]; split.
  - intros Hk. by exists a, s1.
  - by intros (a' & s1' & [= -> ->] & Hk).
  - done.
  - by intros (? & ? & ? & ?).
  - done.
  - by intros (? & ? & ? & ?).
Qed.

Lemma ST_bind_step {S A B : Type} (m : ST S A) (k : A → ST S B) (s s1 : S) (a : A) :
  m s = Ok (a, s1) → ST_bind m k s = k a s1.
Proof. intros Hm. unfold ST_bind. by rewrite Hm. Qed.

Lemma ST_bind_Panic {S A B : Type} (m : ST S A) (k : A → ST S B) (s : S) :
  m s = Panic → ST_bind m k s = Panic.
Proof. intros Hm. unfold ST_bind. by rewrite Hm. Qed.

Lemma withRepo_Ok {A : Type} (m : ST Repo A) (s s' : State) (a : A) :
  withRepo m s = Ok (a, s') ↔
  ∃ r', m (repo s) = Ok (a, r')
        ∧ s' = {| repo := r'; last := last s; storeQueue := storeQueue s;
                  workerStarted := workerStarted s; tempLog := tempLog s |}.
Proof.
  unfold withRepo. destruct (m (repo s)) as [[a' r']| |]; split.
  - intros [= -> <-]. by exists r'.
  - by intros (r'' & [= -> ->] & ->).
  - done.
  - by intros (? & ? & ?).
  - done.
  - by intros (? & ? & ?).
Qed.

(** ** Similarity search *)

Lemma vote_fold (ids : list ChunkId) (st : similar) :
  max st = 0 →
  max (fold_left vote ids st) = 0
  ∧ similarChunk (fold_left vote ids st)
    = match list.last ids with Some id => Some id | None => similarChunk st end.
Proof.
  revert st. induction ids as [|id ids IH]; intros st Hmax; [done|].
  cbn [fold_left]. destruct (IH (vote st id)) as [IH1 IH2]; [done|].
  split; [done|]. rewrite IH2, last_cons.
  destruct (list.last ids); [done|].
  unfold vote. cbn [similarChunk]. rewrite Hmax. by rewrite decide_True by lia.
Qed.

Lemma votes_fold (sketches : SketchMap) (sk : list Z) (st : similar) :
  max st = 0 →
  let st' := fold_left
               (λ st s, match sketches !! s with
                        | None => st
                        | Some chunkIds => fold_left vote chunkIds st
                        end) sk st in
  max st' = 0
  ∧ similarChunk st'
    = match list.last (candidates sketches sk) with
      | Some id => Some id
      | None => similarChunk st
      end.
Proof.
  revert st. induction sk as [|s sk IH]; intros st Hmax; [done|].
  cbn [fold_left]. unfold candidates. cbn [omap list_omap].
  destruct (sketches !! s) as [ids|] eqn:Hs.
  - destruct (vote_fold ids st Hmax) as [V1 V2].
    destruct (IH _ V1) as [IH1 IH2]. split; [done|].
    cbv zeta in IH2. rewrite IH2, V2. cbn [concat]. rewrite last_app.
    fold (candidates sketches sk).
    by destruct (list.last (candidates sketches sk)).
  - by apply IH.
Qed.

(** Whatever the vote counts, the candidate returned is the last one the
    loops visit: [max] keeps its initial value. *)
Lemma votes_returns_last (sketches : SketchMap) (sk : list Z) :
  similarChunk (votes sketches sk) = list.last (candidates sketches sk).
Proof.
  unfold votes.
  destruct (votes_fold sketches sk
              {| similarChunks := ∅; max := 0; similarChunk := None |} eq_refl)
    as [_ ->].
  by destruct (list.last (candidates sketches sk)).
Qed.

(** C5.  A query chunk whose sketch is [s1; s2; s3], with candidate [a]
    listed under [s1] and [s2] and candidate [b] under [s3] only, gets [b]
    from [findSimilarChunk], although [a] has two votes and [b] one. *)
Theorem findSimilarChunk_returns_fewer_votes (chunk : list byte) (r : Repo)
    (s1 s2 s3 : Z) (a b : ChunkId) :
  sketch.SketchChunk chunk pol chunkSize sketchWSize sketchSfCount sketchFCount
    = Ok [s1; s2; s3] →
  sketches r !! s1 = Some [a] →
  sketches r !! s2 = Some [a] →
  sketches r !! s3 = Some [b] →
  a ≠ b →
  findSimilarChunk chunk r = Ok (Some b, r)
  ∧ similarChunks (votes (sketches r) [s1; s2; s3]) !! a = Some 2
  ∧ similarChunks (votes (sketches r) [s1; s2; s3]) !! b = Some 1.
Proof.
  intros Hsk H1 H2 H3 Hab.
  unfold findSimilarChunk, ST_bind, liftR, get. rewrite Hsk. simpl.
  unfold votes. simpl. rewrite H1, H2, H3. simpl.
  unfold vote. simpl. rewrite lookup_empty. simpl.
  rewrite lookup_insert_eq. simpl.
  rewrite !(lookup_insert_ne _ a b) by done. rewrite lookup_empty. simpl.
  rewrite lookup_insert_eq.
  rewrite (lookup_insert_ne _ b a) by done. rewrite lookup_insert_eq.
  done.
Qed.


(** ** The fingerprint and sketch indices *)

Lemma loadHashesRecord_fold (i j0 : nat) (records : list chunkHashes) (r : Repo) :
  fold_left (loadHashesRecord i) records (r, Z.of_nat j0)
  = (fold_left indexRecord (recordsOf i j0 records) r,
     Z.of_nat (j0 + length records)).
Proof.
  revert r j0. induction records as [|h records IH]; intros r j0.
  - simpl. by rewrite Nat.add_0_r.
  - unfold recordsOf. cbn [fold_left imap length].
    unfold loadHashesRecord at 2.
    replace (Z.of_nat j0 + 1)%Z with (Z.of_nat (S j0)) by lia.
    rewrite IH. rewrite Nat.add_0_r. f_equal; [|f_equal; lia].
    unfold recordsOf. f_equal.
    apply imap_ext. intros j x _. simpl. do 3 f_equal. lia.
Qed.

Lemma loadHashesFrom_spec (i : nat) (versions : list VersionDir) (r : Repo) :
  Forall (λ v, is_Some (hashesFile v)) versions →
  loadHashesFrom i versions r = Ok (tt, fold_left indexRecord (allRecordsFrom i versions) r).
Proof.
  revert i r. induction versions as [|v versions IH]; intros i r Hall; [done|].
  apply Forall_cons in Hall as [[records Hv] Hall].
  cbn [loadHashesFrom allRecordsFrom]. rewrite Hv. cbn [default].
  unfold ST_bind, modify. change 0%Z with (Z.of_nat 0).
  rewrite (loadHashesRecord_fold i 0 records r). cbn [fst].
  rewrite IH by done. by rewrite fold_left_app.
Qed.

(** A version without a hashes file makes [loadHashes] panic. *)
Lemma loadHashesFrom_missing (i : nat) (versions : list VersionDir) (r : Repo) :
  Exists (λ v, hashesFile v = None) versions →
  loadHashesFrom i versions r = Panic.
Proof.
  revert i r. induction versions as [|v versions IH]; intros i r Hex.
  - by apply Exists_nil in Hex.
  - cbn [loadHashesFrom]. destruct (hashesFile v) as [records|] eqn:Hv; [|done].
    apply Exists_cons in Hex as [Hex|Hex]; [congruence|].
    unfold ST_bind, modify. by apply IH.
Qed.

Lemma indexRecord_fold_other (l : list (ChunkId * chunkHashes)) (r : Repo) (fp : Z) :
  Forall (λ x, Fp x.2 ≠ fp) l →
  fingerprints (fold_left indexRecord l r) !! fp = fingerprints r !! fp.
Proof.
  revert r. induction l as [|x l IH]; intros r Hl; [done|].
  apply Forall_cons in Hl as [Hx Hl]. cbn [fold_left].
  rewrite IH by done. unfold indexRecord. cbn [fingerprints].
  by rewrite lookup_insert_ne.
Qed.

Lemma hashChunk_Ok (id : ChunkId) (content : list byte) (r : Repo) (sk : list Z) :
  makeSketch content = Ok sk →
  hashChunk id content r
  = Ok ((makeFingerprint content, sk),
        indexRecord r (id, mkChunkHashes (makeFingerprint content) sk)).
Proof. intros Hsk. unfold hashChunk, ST_bind, liftR, modify. by rewrite Hsk. Qed.

(** C6 (amended).  The fingerprint index is a map, so a fingerprint has at
    most one identifier; an insertion under a fingerprint that is already
    present replaces the identifier.  After [loadHashes], a fingerprint is
    mapped to the identifier of the last record that carries it, and after
    two calls of [hashChunk] with the same fingerprint to the identifier of
    the second call. *)
Theorem fingerprint_last_write_wins :
  (∀ (versions : list VersionDir) (r : Repo),
     Forall (λ v, is_Some (hashesFile v)) versions →
     ∃ r', loadHashes versions r = Ok (tt, r')
           ∧ ∀ pre id h post,
               allRecordsFrom 0 versions = pre ++ (id, h) :: post →
               Forall (λ x, Fp x.2 ≠ Fp h) post →
               fingerprints r' !! Fp h = Some id)
  ∧ (∀ (id1 id2 : ChunkId) (c1 c2 : list byte) (r : Repo) (sk1 sk2 : list Z),
       makeSketch c1 = Ok sk1 →
       makeSketch c2 = Ok sk2 →
       makeFingerprint c1 = makeFingerprint c2 →
       ∃ r1 r2, hashChunk id1 c1 r = Ok ((makeFingerprint c1, sk1), r1)
                ∧ hashChunk id2 c2 r1 = Ok ((makeFingerprint c1, sk2), r2)
                ∧ fingerprints r2 !! makeFingerprint c1 = Some id2).
Proof.
  split.
  - intros versions r Hall. eexists. split.
    + unfold loadHashes. by apply loadHashesFrom_spec.
    + intros pre id h post Heq Hpost. rewrite Heq.
      rewrite fold_left_app. cbn [fold_left].
      rewrite indexRecord_fold_other by done.
      simpl. by rewrite lookup_insert_eq.
  - intros id1 id2 c1 c2 r sk1 sk2 Hsk1 Hsk2 Hfp.
    eexists _, _. split; [by apply hashChunk_Ok|].
    split.
    + rewrite Hfp. by apply hashChunk_Ok.
    + simpl. by rewrite Hfp, lookup_insert_eq.
Qed.


(** ** The storage worker *)

Lemma storeOne_fold (version : nat) (queue : list chunkData) (d : Disk)
    (v : VersionDir) (recs : list chunkHashes) (log : list event) :
  d !! version = Some v →
  hashesFile v = Some recs →
  Forall (λ data, Ver (cid data) = version) queue →
  ∃ d' v',
    fold_left (storeOne version) queue (d, log) = (d', log ++ concat (itemTrace <$> queue))
    ∧ d' !! version = Some v'
    ∧ hashesFile v' = Some (recs ++ (hashes <$> queue))
    ∧ ∀ idx, chunksDir v !! idx = None →
             (∀ data, data ∈ queue → Idx (cid data) = idx → fault (cid data) = CreateFails) →
             chunksDir v' !! idx = None.
Proof.
  revert d v recs log.
  induction queue as [|data queue IH]; intros d v recs log Hv Hrecs Hq.
  - exists d, v. simpl. by rewrite !app_nil_r.
  - apply Forall_cons in Hq as [Hver Hq].
    assert (Hlt : version < length d) by by eapply lookup_lt_Some.
    cbn [fold_left]. unfold storeOne at 2. rewrite Hv, Hrecs. cbn [default].
    unfold StoreChunkContent. rewrite Hver.
    rewrite list_lookup_insert_eq by done.
    set (v1 := {| chunksDir := chunksDir v;
                  hashesFile := Some (id recs ++ [hashes data]);
                  filesFile := filesFile v; recipeFile := recipeFile v |}).
    assert (Htr : ∀ ok, storeOk (fault (cid data)) = ok →
              (log ++ [EvEncode (cid data) (hashes data); EvStore (cid data) ok]
                   ++ (if ok then [] else [EvLogError (cid data)]))
                ++ concat (itemTrace <$> queue)
              = log ++ concat (itemTrace <$> data :: queue)).
    { intros ok <-. cbn [fmap list_fmap concat]. unfold itemTrace at 2.
      by rewrite <- !app_assoc. }
    destruct (fault (cid data)) as [| |n] eqn:Hf; cbn [chunksDir hashesFile filesFile recipeFile v1].
    + pose (v2 := {| chunksDir := <[Idx (cid data) := content data]> (chunksDir v);
                     hashesFile := Some (id recs ++ [hashes data]);
                     filesFile := filesFile v;
                     recipeFile := recipeFile v |}).
      destruct (IH (<[version := v2]> (<[version := v1]> d)) v2 (recs ++ [hashes data])
                   (log ++ [EvEncode (cid data) (hashes data); EvStore (cid data) true] ++ []))
        as (d' & v' & Hfold & Hd' & Hh & Hc);
        [by apply list_lookup_insert_eq; rewrite length_insert | done | done |].
      exists d', v'. subst v2. rewrite Hfold. split_and!; [|done|..].
      * f_equal. by apply (Htr true).
      * rewrite Hh. simpl. by rewrite <- app_assoc.
      * intros idx Hidx Hall.
        apply Hc.
        -- simpl. rewrite lookup_insert_ne; [done|].
           intros E. specialize (Hall data (list_elem_of_here _ _) E). congruence.
        -- intros data' Hin. apply Hall. by apply list_elem_of_further.
    + destruct (IH (<[version := v1]> d) v1 (recs ++ [hashes data])
                   (log ++ [EvEncode (cid data) (hashes data); EvStore (cid data) false]
                        ++ [EvLogError (cid data)]))
        as (d' & v' & Hfold & Hd' & Hh & Hc);
        [by apply list_lookup_insert_eq | done | done |].
      exists d', v'. rewrite Hfold. split_and!; [|done|..].
      * f_equal. by apply (Htr false).
      * rewrite Hh. simpl. by rewrite <- app_assoc.
      * intros idx Hidx Hall. apply Hc; [done|].
        intros data' Hin. apply Hall. by apply list_elem_of_further.
    + pose (v2 := {| chunksDir := <[Idx (cid data) := take n (content data)]> (chunksDir v);
                     hashesFile := Some (id recs ++ [hashes data]);
                     filesFile := filesFile v;
                     recipeFile := recipeFile v |}).
      destruct (IH (<[version := v2]> (<[version := v1]> d)) v2 (recs ++ [hashes data])
                   (log ++ [EvEncode (cid data) (hashes data); EvStore (cid data) false]
                        ++ [EvLogError (cid data)]))
        as (d' & v' & Hfold & Hd' & Hh & Hc);
        [by apply list_lookup_insert_eq; rewrite length_insert | done | done |].
      exists d', v'. subst v2. rewrite Hfold. split_and!; [|done|..].
      * f_equal. by apply (Htr false).
      * rewrite Hh. simpl. by rewrite <- app_assoc.
      * intros idx Hidx Hall.
        apply Hc.
        -- simpl. rewrite lookup_insert_ne; [done|].
           intros E. specialize (Hall data (list_elem_of_here _ _) E). congruence.
        -- intros data' Hin. apply Hall. by apply list_elem_of_further.
Qed.

(** C10.  For every queue of chunks of the version, the worker runs to the
    end: for each item it appends the record to the hashes file, then
    attempts the payload write, and only logs a failure.  The hashes file
    ends with one record per item, in queue order, and an item whose payload
    file could not be created has its record there and no payload file. *)
Theorem storageWorker_record_without_payload (version : nat)
    (queue : list chunkData) (d : Disk) (v : VersionDir) :
  d !! version = Some v →
  Forall (λ data, Ver (cid data) = version) queue →
  ∃ d' v',
    storageWorker version queue d = Ok (d', workerTrace queue)
    ∧ d' !! version = Some v'
    ∧ hashesFile v' = Some (hashes <$> queue)
    ∧ ∀ data, data ∈ queue →
              fault (cid data) = CreateFails →
              chunksDir v !! Idx (cid data) = None →
              hashes data ∈ (hashes <$> queue)
              ∧ chunksDir v' !! Idx (cid data) = None.
Proof.
  intros Hv Hq.
  assert (Hlt : version < length d) by by eapply lookup_lt_Some.
  unfold storageWorker. rewrite Hv.
  pose (v0 := {| chunksDir := chunksDir v; hashesFile := Some [];
                 filesFile := filesFile v; recipeFile := recipeFile v |}).
  destruct (storeOne_fold version queue (<[version := v0]> d) v0 [] [])
    as (d' & v' & Hfold & Hd' & Hh & Hc);
    [by apply list_lookup_insert_eq | done | done |].
  subst v0. rewrite Hfold. exists d', v'. split_and!; [done|done|done|].
  intros data Hin Hf Hnone. split.
  - by apply list_elem_of_fmap_2.
  - apply Hc; [done|].
    intros data' Hin' Hidx.
    eapply Forall_forall in Hq as Hv1; [|exact Hin].
    eapply Forall_forall in Hq as Hv2; [|exact Hin'].
    assert (cid data' = cid data) as ->; [|done].
    destruct (cid data'), (cid data); simpl in *; congruence.
Qed.


(** ** The first read of [matchStream] *)

Lemma matchStream_short (stream : list byte) (version : nat) (s : State) :
  0 < length stream →
  length stream < chunkSize →
  matchStream stream version s = Panic.
Proof.
  intros Hpos Hlt. unfold matchStream, ReadFull.
  rewrite Nat.min_r by lia.
  rewrite (decide_False (P := length stream = chunkSize)) by lia.
  rewrite (decide_False (P := length stream = 0)) by lia.
  rewrite decide_True by lia. by rewrite decide_False.
Qed.

Lemma matchStream_empty (version : nat) (s : State) :
  0 < chunkSize →
  matchStream [] version s
  = Ok ([TempChunk []],
        {| repo := repo s; last := last s; storeQueue := storeQueue s;
           workerStarted := workerStarted s; tempLog := tempLog s ++ [[]] |}).
Proof.
  intros Hpos. unfold matchStream, ReadFull. simpl.
  rewrite Nat.min_0_r.
  rewrite (decide_False (P := 0 = chunkSize)) by lia.
  rewrite decide_True by lia. by rewrite decide_True.
Qed.

(** C2.  A stream of [n] bytes with [0 < n < chunkSize] makes [matchStream]
    panic: [io.ReadFull] reports [ErrUnexpectedEOF] for it, and the branch
    that emits the single temporary chunk is taken only on [EOF]. *)
Theorem matchStream_short_stream_panics (stream : list byte) (version : nat)
    (s : State) :
  0 < length stream →
  length stream < chunkSize →
  matchStream stream version s = Panic.
Proof. apply matchStream_short. Qed.

(** ** Delta encoding *)

(** C3 (amended).  When [findSimilarChunk] finds a source and the differ
    returns a patch, [tryDeltaEncodeChunk] returns a delta chunk carrying
    that patch, whatever its length, and [encodeTempChunk] returns this
    delta chunk; no test on the size of the patch is made. *)
Theorem delta_accepted_whatever_patch_size (temp : list byte) (version : nat)
    (s : State) (id : ChunkId) (r1 r2 : Repo) (source patch : list byte) :
  findSimilarChunk temp (repo s) = Ok (Some id, r1) →
  LoadChunkContent id r1 = Ok (source, r2) →
  Diff source temp = Some patch →
  tryDeltaEncodeChunk temp (repo s)
  = Ok ((DeltaChunk id patch (length temp), true), r2)
  ∧ encodeTempChunk temp version s
    = Ok ((DeltaChunk id patch (length temp), true),
          {| repo := r2; last := last s; storeQueue := storeQueue s;
             workerStarted := workerStarted s; tempLog := tempLog s |}).
Proof.
  intros Hfind Hload Hdiff.
  assert (Htry : tryDeltaEncodeChunk temp (repo s)
                 = Ok ((DeltaChunk id patch (length temp), true), r2)).
  { unfold tryDeltaEncodeChunk.
    rewrite (ST_bind_step _ _ _ _ _ Hfind).
    rewrite (ST_bind_step _ _ _ _ _ Hload).
    by rewrite Hdiff. }
  split; [done|].
  unfold encodeTempChunk.
  erewrite ST_bind_step; [|apply withRepo_Ok; eauto].
  done.
Qed.

(** ** The refill loop *)

Lemma refill_spec (n : nat) (stream : list byte) (h : RabinKarp64) (buff : list byte) :
  refill n stream h buff ErrNil
  = (drop n stream, fold_left Roll (take n stream) h, buff ++ take n stream,
     if decide (length stream < n) then EOF else ErrNil).
Proof.
  revert stream h buff. induction n as [|n IH]; intros stream h buff.
  - cbn [refill]. rewrite drop_0, take_0, app_nil_r.
    case_decide; [lia|done].
  - cbn [refill]. rewrite decide_True by done.
    destruct stream as [|b stream]; cbn [ReadByte].
    + rewrite decide_False by (intros ?; done).
      rewrite decide_True by (cbn [length]; lia).
      destruct n; cbn [refill]; by rewrite ?app_nil_r, ?decide_False.
    + rewrite decide_True by done. rewrite IH. cbn [drop take fold_left length].
      rewrite <- app_assoc. do 2 f_equal.
      destruct (decide (length stream < n)), (decide (S (length stream) < S n)); done || lia.
Qed.

(** ** The hit branch on a full double buffer *)

(** C4.  When the fingerprint index hits while [buff] holds exactly
    [2 * chunkSize] bytes (and no chunk is held back), one iteration appends
    only the reference to the matched chunk: the first [chunkSize] bytes of
    [buff] go to no chunk, and [buff] restarts from the next bytes of the
    stream. *)
Theorem loopBody_hit_on_full_buffer_drops_prefix (version : nat) (l : Loop)
    (s : State) (id : ChunkId) :
  fingerprints (repo s) !! Sum64 (hasher l) = Some id →
  length (buff l) = chunkSize * 2 →
  prev l = None →
  err l = ErrNil →
  ∃ l', loopBody version l s = Ok (l', s)
        ∧ chunks l' = chunks l ++ [StoredChunk id]
        ∧ prev l' = None
        ∧ buff l' = take chunkSize (bufStream l)
        ∧ bufStream l' = drop chunkSize (bufStream l).
Proof.
  intros Hhit Hlen Hprev Herr.
  unfold loopBody, ST_bind, get. rewrite Hhit.
  rewrite decide_False by lia. rewrite Hprev. cbn [flushPrev mret ST_mret].
  rewrite Herr, refill_spec. eexists. split; [reflexivity|]. done.
Qed.


(** ** The temporary chunks created by the matcher *)

Ltac st_prim H :=
  first
    [ apply withRepo_Ok in H as (? & H & ?)
    | progress (cbv [get put modify mret ST_mret liftR panic NewTempChunk] in H) ];
  simplify_eq.

Ltac st_inv H :=
  repeat
    match type of H with
    | ST_bind _ _ _ = Ok _ =>
        let Hm := fresh "Hm" in
        apply ST_bind_Ok in H as (? & ? & Hm & H); try st_prim Hm
    | (let '(_, _) := ?p in _) _ = Ok _ => destruct p
    | (if decide ?P then _ else _) _ = Ok _ => destruct (decide P)
    | (if ?b then _ else _) _ = Ok _ => destruct b
    end;
  try st_prim H.

Lemma encodeTempChunk_tempLog (temp : list byte) (version : nat) (s s' : State)
    (c : Chunk) (isDelta : bool) :
  encodeTempChunk temp version s = Ok ((c, isDelta), s') →
  tempLog s' = tempLog s.
Proof.
  intros H. unfold encodeTempChunk in H. st_inv H; done.
Qed.


Lemma chunkMinLen_le (m : nat) : chunkMinLen = Ok m → m ≤ chunkSize.
Proof.
  unfold chunkMinLen, sketch.SuperFeatureSize, sketch.FeatureSize.
  case_decide as Hk; [done|]. simpl. intros [= <-].
  assert (Hf : 1 ≤ sketchFCount) by lia.
  transitivity (chunkSize / (sketchSfCount * sketchFCount) * (sketchSfCount * sketchFCount)).
  - apply Nat.mul_le_mono_l. nia.
  - rewrite Nat.mul_comm. apply Nat.Div0.mul_div_le.
Qed.

Lemma flushPrev_tempLog (prev : option (list byte)) (chunks chunks' : list Chunk)
    (version : nat) (s s' : State) :
  flushPrev prev chunks version s = Ok (chunks', s') →
  tempLog s' = tempLog s.
Proof.
  intros H. unfold flushPrev in H. destruct prev as [p|].
  - apply ST_bind_Ok in H as ([c b] & s1 & Hm & H).
    apply encodeTempChunk_tempLog in Hm. st_prim H. done.
  - st_prim H. done.
Qed.

Lemma encodeTempChunks_tempLog (prev : option (list byte)) (curr : list byte)
    (version : nat) (s s' : State) (cs : list Chunk) :
  encodeTempChunks prev curr version s = Ok (cs, s') →
  (∀ p, prev = Some p → length p = chunkSize) →
  1 ≤ length curr →
  Forall tempLen_ok (tempLog s) →
  Forall tempLen_ok (tempLog s').
Proof.
  intros H Hprev Hcurr Hlog. unfold encodeTempChunks in H.
  destruct prev as [p|].
  - apply ST_bind_Ok in H as (m & s1 & Hm & H).
    unfold liftR in Hm. destruct chunkMinLen as [m'| |] eqn:Hmin; simplify_eq.
    apply chunkMinLen_le in Hmin. specialize (Hprev p eq_refl).
    case_decide as Hlt.
    + apply ST_bind_Ok in H as (tmp & s3 & Hm & H). st_prim Hm.
      apply ST_bind_Ok in H as ([c b] & s2 & Hm & H).
      apply encodeTempChunk_tempLog in Hm. cbn [tempLog] in Hm.
      assert (tempLog s' = tempLog s2) as ->.
      { destruct b; st_prim H; done. }
      rewrite Hm. apply Forall_app. split; [done|].
      apply Forall_singleton. unfold tempLen_ok. rewrite length_app. lia.
    + apply ST_bind_Ok in H as ([c1 b1] & s3 & Hm1 & H).
      apply ST_bind_Ok in H as ([c2 b2] & s2 & Hm2 & H).
      apply encodeTempChunk_tempLog in Hm1, Hm2. st_prim H. congruence.
  - apply ST_bind_Ok in H as ([c b] & s1 & Hm & H).
    apply encodeTempChunk_tempLog in Hm. st_prim H. congruence.
Qed.


Lemma copy_replicate (n : nat) (src : list byte) :
  length src = n → copy (replicate n x00) src = src.
Proof.
  intros Hlen. unfold copy. rewrite length_replicate.
  rewrite take_ge by lia. rewrite drop_ge by (rewrite length_replicate; lia).
  by rewrite app_nil_r.
Qed.

Lemma loopBody_inv (version : nat) (l l' : Loop) (s s' : State) :
  0 < chunkSize →
  loopBody version l s = Ok (l', s') →
  Loop_inv l →
  err l = ErrNil →
  Forall tempLen_ok (tempLog s) →
  Loop_inv l' ∧ Forall tempLen_ok (tempLog s').
Proof.
  intros Hcs H (Hlen & _ & Hge & Hprev) Herr Hlog.
  specialize (Hge Herr).
  unfold loopBody in H.
  apply ST_bind_Ok in H as (s0 & s1 & Hm & H). st_prim Hm.
  destruct (fingerprints (repo s1) !! Sum64 (hasher l)) as [chunkId|].
  - apply ST_bind_Ok in H as (chunks1 & s2 & Hm & H).
    rewrite Herr, refill_spec in H. st_prim H.
    split.
    + unfold Loop_inv. cbn [buff err prev app]. rewrite length_take.
      split_and!; [lia| |intros He|done].
      * destruct (decide (length (bufStream l) < chunkSize)); auto.
      * destruct (decide (length (bufStream l) < chunkSize)); [done|lia].
    + case_decide as Hmid.
      * apply ST_bind_Ok in Hm as (temp & s3 & Hm1 & Hm).
        apply ST_bind_Ok in Hm as (cs & s4 & Hm2 & Hm).
        st_prim Hm1. st_prim Hm.
        eapply encodeTempChunks_tempLog; [exact Hm2|done| |].
        -- rewrite length_take. lia.
        -- cbn [tempLog]. apply Forall_app. split; [done|].
           apply Forall_singleton. unfold tempLen_ok. rewrite length_take. lia.
      * apply flushPrev_tempLog in Hm. by rewrite Hm.
  - apply ST_bind_Ok in H as ([[chunks1 prev1] buff1] & s2 & Hm & H).
    assert (Hmid : chunkSize ≤ length buff1 ∧ length buff1 < chunkSize * 2).
    { case_decide as Hfull.
      - apply ST_bind_Ok in Hm as (chunks2 & s3 & Hm1 & Hm).
        apply ST_bind_Ok in Hm as (p & s4 & Hm2 & Hm).
        st_prim Hm2. st_prim Hm.
        rewrite copy_replicate; rewrite length_drop; lia.
      - st_prim Hm. lia. }
    assert (Hp1 : ∀ p, prev1 = Some p → length p = chunkSize).
    { case_decide as Hfull.
      - apply ST_bind_Ok in Hm as (chunks2 & s3 & Hm1 & Hm).
        apply ST_bind_Ok in Hm as (p & s4 & Hm2 & Hm).
        st_prim Hm2. st_prim Hm. intros p [= <-]. rewrite length_take. lia.
      - st_prim Hm. done. }
    assert (Hlog2 : Forall tempLen_ok (tempLog s2)).
    { case_decide as Hfull.
      - apply ST_bind_Ok in Hm as (chunks2 & s3 & Hm1 & Hm).
        apply ST_bind_Ok in Hm as (p & s4 & Hm2 & Hm).
        apply flushPrev_tempLog in Hm1.
        st_prim Hm2. st_prim Hm. cbn [tempLog]. rewrite Hm1.
        apply Forall_app. split; [done|].
        apply Forall_singleton. unfold tempLen_ok. rewrite length_take. lia.
      - st_prim Hm. done. }
    destruct (bufStream l) as [|b rest]; cbn [ReadByte] in H.
    + rewrite decide_False in H by (intros ?; done). st_prim H.
      split; [|done]. unfold Loop_inv. cbn [buff err prev].
      split_and!; [lia|auto|done|done].
    + rewrite decide_True in H by done. st_prim H.
      split; [|done]. unfold Loop_inv. cbn [buff err prev].
      rewrite length_app. cbn [length].
      split_and!; [lia|auto|lia|done].
Qed.


Lemma loop_inv (fuel version : nat) (l l' : Loop) (s s' : State) :
  0 < chunkSize →
  loop fuel version l s = Ok (l', s') →
  Loop_inv l →
  Forall tempLen_ok (tempLog s) →
  Loop_inv l' ∧ err l' = EOF ∧ Forall tempLen_ok (tempLog s').
Proof.
  intros Hcs. revert l s.
  induction fuel as [|fuel IH]; intros l s H Hinv Hlog.
  - cbn [loop] in H. case_decide as Herr; [|done]. st_prim H. done.
  - cbn [loop] in H. case_decide as Herr; [st_prim H; done|].
    apply ST_bind_Ok in H as (l1 & s1 & Hm & H).
    assert (Hnil : err l = ErrNil) by (destruct Hinv as (_ & [?|?] & _); done).
    destruct (loopBody_inv _ _ _ _ _ Hcs Hm Hinv Hnil Hlog) as [Hinv1 Hlog1].
    by eapply IH.
Qed.

Lemma tail_tempLog (version : nat) (l : Loop) (s s' : State) (chunks' : list Chunk) :
  0 < chunkSize →
  tail_ version l s = Ok (chunks', s') →
  Loop_inv l →
  Forall tempLen_ok (tempLog s) →
  Forall tempLen_ok (tempLog s').
Proof.
  intros Hcs H (Hlen & _ & _ & Hprev) Hlog. unfold tail_ in H.
  case_decide as Hpos; [|by st_prim H].
  apply ST_bind_Ok in H as ([[chunks1 prev1] temp] & s1 & Hm & H).
  apply ST_bind_Ok in H as (cs & s2 & Hm2 & H). st_prim H.
  case_decide as Hbig.
  - apply ST_bind_Ok in Hm as (chunks2 & s3 & Hm1 & Hm).
    apply ST_bind_Ok in Hm as (p & s4 & Hm3 & Hm).
    apply ST_bind_Ok in Hm as (t & s5 & Hm4 & Hm).
    apply flushPrev_tempLog in Hm1.
    st_prim Hm3. st_prim Hm4. st_prim Hm.
    eapply encodeTempChunks_tempLog; [exact Hm2| | |].
    + intros p [= <-]. rewrite length_take. lia.
    + rewrite length_drop. lia.
    + cbn [tempLog]. rewrite Hm1.
      repeat (apply Forall_app; split); [done|..];
        apply Forall_singleton; unfold tempLen_ok;
        rewrite ?length_take, ?length_drop; lia.
  - apply ST_bind_Ok in Hm as (t & s3 & Hm1 & Hm).
    st_prim Hm1. st_prim Hm.
    eapply encodeTempChunks_tempLog; [exact Hm2|done|lia|].
    cbn [tempLog]. apply Forall_app; split; [done|].
    apply Forall_singleton. unfold tempLen_ok. lia.
Qed.

Lemma joinWorker_tempLog (version : nat) (s s' : State) (u : unit) :
  joinWorker version s = Ok (u, s') → tempLog s' = tempLog s.
Proof.
  unfold joinWorker.
  destruct (storageWorker version (storeQueue s) (dir (repo s))) as [[d log]| |];
    [|done|done].
  by intros [= _ <-].
Qed.

(** C9 (amended).  Every temporary chunk created while [matchStream] runs
    to its end is shorter than [2 * chunkSize]; it has at least one byte
    unless the stream is empty, in which case the single chunk that is
    created has none. *)
Theorem tempChunk_lengths (stream : list byte) (version : nat) (s s' : State)
    (recipe : list Chunk) :
  0 < chunkSize →
  tempLog s = [] →
  matchStream stream version s = Ok (recipe, s') →
  (stream = [] → tempLog s' = [[]])
  ∧ Forall (λ t, length t < chunkSize * 2 ∧ (stream ≠ [] → 1 ≤ length t)) (tempLog s').
Proof.
  intros Hcs Hlog H.
  destruct stream as [|b stream].
  - rewrite matchStream_empty in H by done. simplify_eq. cbn [tempLog].
    rewrite Hlog. split; [done|]. apply Forall_singleton. simpl. split; [lia|done].
  - split; [done|].
    assert (Forall tempLen_ok (tempLog s')) as Hall.
    { destruct (decide (length (b :: stream) < chunkSize)) as [Hshort|Hlong].
      { rewrite matchStream_short in H; [done|simpl; lia|done]. }
      unfold matchStream, ReadFull in H.
      rewrite Nat.min_l in H by lia.
      rewrite (decide_True (P := chunkSize = chunkSize)) in H by done.
      rewrite decide_False in H by lia.
      apply ST_bind_Ok in H as (u & s1 & Hm & H). st_prim Hm.
      apply ST_bind_Ok in H as (l & s2 & Hm & H).
      apply ST_bind_Ok in H as (chunks1 & s3 & Hm2 & H).
      apply ST_bind_Ok in H as (u & s4 & Hm3 & H). st_prim H.
      apply joinWorker_tempLog in Hm3. rewrite Hm3.
      apply loop_inv in Hm as (Hinv & _ & Hlog2); [|done| |].
      - by eapply tail_tempLog.
      - unfold Loop_inv. cbn [buff err prev].
        rewrite copy_replicate by (rewrite length_take; lia).
        rewrite length_take. split_and!; [lia|auto|lia|done].
      - cbn [tempLog]. by rewrite Hlog. }
    eapply Forall_impl; [exact Hall|].
    intros t [H1 H2]. split; [lia|done].
Qed.


(** ** Commit *)

Lemma Commit_empty :
  0 < chunkSize →
  Commit [] (NewRepo [])
  = Ok (tt, NewRepo [ {| chunksDir := ∅; hashesFile := None; filesFile := Some [];
                         recipeFile := Some [TempChunk []] |} ]).
Proof.
  intros Hcs. unfold Commit, ST_bind, get, modify, runMatcher. cbn [dir NewRepo].
  cbn [loadHashes loadHashesFrom mret ST_mret concatFiles fmap list_fmap concat length].
  rewrite matchStream_empty by done. reflexivity.
Qed.

(** C7.  Committing an empty source tree into a fresh repository succeeds
    and leaves a version without a hashes file, since [matchStream] returns
    before it starts the storage worker.  On that repository [loadHashes]
    panics, while hashing again every stored chunk (there is none) gives the
    empty maps. *)
Theorem loadHashes_panics_after_empty_commit :
  0 < chunkSize →
  ∃ r1, Commit [] (NewRepo []) = Ok (tt, r1)
        ∧ Forall (λ v, hashesFile v = None) (dir r1)
        ∧ loadHashes (dir r1) (NewRepo (dir r1)) = Panic
        ∧ hashChunks (loadChunks (dir r1)) (NewRepo (dir r1))
          = Ok (tt, NewRepo (dir r1)).
Proof.
  intros Hcs. eexists. split; [by apply Commit_empty|].
  cbn [dir NewRepo]. split_and!.
  - by apply Forall_singleton.
  - done.
  - unfold loadChunks. cbn [loadChunksFrom chunksDir]. by rewrite map_size_empty.
Qed.

(** C1.  A source tree whose files amount to [n] bytes with
    [0 < n < chunkSize] cannot be committed into a fresh repository:
    [Commit] panics in [matchStream], before the file list and the recipe
    are stored, and nothing can be restored. *)
Theorem Commit_short_tree_panics (source : list (string * list byte)) :
  0 < length (concatFiles source) →
  length (concatFiles source) < chunkSize →
  Commit source (NewRepo []) = Panic.
Proof.
  intros Hpos Hlt. unfold Commit, ST_bind, get, modify, runMatcher. cbn [dir NewRepo].
  cbn [loadHashes loadHashesFrom mret ST_mret].
  by rewrite matchStream_short.
Qed.


(** ** The loop of the matcher is given enough fuel *)

Lemma terminates_ret {S A : Type} (a : A) : terminates (mret a : ST S A).
Proof. by intros s. Qed.

Lemma terminates_bind {S A B : Type} (m : ST S A) (k : A → ST S B) :
  terminates m → (∀ a, terminates (k a)) → terminates (ST_bind m k).
Proof.
  intros Hm Hk s. unfold ST_bind. specialize (Hm s).
  destruct (m s) as [[a s1]| |]; [apply Hk|done|done].
Qed.

Lemma terminates_get {S : Type} : terminates (get : ST S S).
Proof. by intros s. Qed.

Lemma terminates_put {S : Type} (s0 : S) : terminates (put s0).
Proof. by intros s. Qed.

Lemma terminates_modify {S : Type} (f : S → S) : terminates (modify f).
Proof. by intros s. Qed.

Lemma terminates_panic {S A : Type} : terminates (panic : ST S A).
Proof. by intros s. Qed.

Lemma terminates_liftR {S A : Type} (r : result A) :
  r ≠ OutOfFuel → terminates (liftR r : ST S A).
Proof. intros Hr s. unfold liftR. by destruct r. Qed.

Lemma terminates_withRepo {A : Type} (m : ST Repo A) :
  terminates m → terminates (withRepo m).
Proof.
  intros Hm s. unfold withRepo. specialize (Hm (repo s)).
  by destruct (m (repo s)) as [[a r]| |].
Qed.

Lemma terminates_NewTempChunk (value : list byte) : terminates (NewTempChunk value).
Proof. by intros s. Qed.

Lemma SketchChunk_no_fuel (r : list byte) (p : Pol) (cs w sf f : nat) :
  sketch.SketchChunk r p cs w sf f ≠ OutOfFuel.
Proof.
  unfold sketch.SketchChunk, sketch.FeatureSize.
  destruct (decide (sf * f = 0)); [done|].
  unfold mbind, result_mbind, result_bind.
  destruct (decide (cs / (sf * f) = 0)); [done|].
  by destruct (decide (f = 0)).
Qed.

Lemma chunkMinLen_no_fuel : chunkMinLen ≠ OutOfFuel.
Proof.
  unfold chunkMinLen, sketch.SuperFeatureSize, sketch.FeatureSize.
  by case_decide.
Qed.

Lemma terminates_LoadChunkContent (id : ChunkId) : terminates (LoadChunkContent id).
Proof.
  intros r. unfold LoadChunkContent.
  destruct (chunkCache r !! id); [done|]. by destruct (readChunkFile (dir r) id).
Qed.

Create HintDb terminates.

#[local] Hint Resolve terminates_ret terminates_get terminates_put terminates_modify
  terminates_panic terminates_liftR terminates_withRepo terminates_NewTempChunk
  SketchChunk_no_fuel chunkMinLen_no_fuel terminates_LoadChunkContent : terminates.

Ltac term_step :=
  match goal with
  | |- terminates (ST_bind _ _) => apply terminates_bind; [|intros ?]
  | |- terminates (match ?x with _ => _ end) => destruct x
  | |- terminates _ => solve [eauto with terminates]
  end.

Ltac solve_terminates := repeat term_step.

Lemma terminates_hashChunk (id : ChunkId) (content : list byte) :
  terminates (hashChunk id content).
Proof. unfold hashChunk, makeSketch. solve_terminates. Qed.

Lemma terminates_findSimilarChunk (chunk : list byte) :
  terminates (findSimilarChunk chunk).
Proof. unfold findSimilarChunk. solve_terminates. Qed.

#[local] Hint Resolve terminates_hashChunk terminates_findSimilarChunk : terminates.

Lemma terminates_tryDeltaEncodeChunk (temp : list byte) :
  terminates (tryDeltaEncodeChunk temp).
Proof. unfold tryDeltaEncodeChunk. solve_terminates. Qed.

#[local] Hint Resolve terminates_tryDeltaEncodeChunk : terminates.

Lemma terminates_encodeTempChunk (temp : list byte) (version : nat) :
  terminates (encodeTempChunk temp version).
Proof. unfold encodeTempChunk. solve_terminates. Qed.

#[local] Hint Resolve terminates_encodeTempChunk : terminates.

Lemma terminates_encodeTempChunks (prev : option (list byte)) (curr : list byte)
    (version : nat) :
  terminates (encodeTempChunks prev curr version).
Proof. unfold encodeTempChunks. solve_terminates. Qed.

Lemma terminates_flushPrev (prev : option (list byte)) (chunks : list Chunk)
    (version : nat) :
  terminates (flushPrev prev chunks version).
Proof. unfold flushPrev. solve_terminates. Qed.

#[local] Hint Resolve terminates_encodeTempChunks terminates_flushPrev : terminates.

Lemma terminates_loopBody (version : nat) (l : Loop) : terminates (loopBody version l).
Proof. unfold loopBody. solve_terminates. Qed.

Lemma terminates_tail (version : nat) (l : Loop) : terminates (tail_ version l).
Proof. unfold tail_. solve_terminates. Qed.

Lemma terminates_joinWorker (version : nat) : terminates (joinWorker version).
Proof.
  intros s. unfold joinWorker, storageWorker.
  destruct (dir (repo s) !! version); [|done].
  by destruct (fold_left _ _ _).
Qed.

#[local] Hint Resolve terminates_loopBody terminates_tail terminates_joinWorker : terminates.

(** An iteration either meets the end of the stream or consumes at least
    one byte of it. *)
Lemma loopBody_progress (version : nat) (l l' : Loop) (s s' : State) :
  0 < chunkSize →
  loopBody version l s = Ok (l', s') →
  err l = ErrNil →
  err l' = EOF ∨ (err l' = ErrNil ∧ length (bufStream l') < length (bufStream l)).
Proof.
  intros Hcs H Herr. unfold loopBody in H.
  apply ST_bind_Ok in H as (s0 & s1 & Hm & H). st_prim Hm.
  destruct (fingerprints (repo s1) !! Sum64 (hasher l)) as [chunkId|].
  - apply ST_bind_Ok in H as (chunks1 & s2 & Hm & H).
    rewrite Herr, refill_spec in H. st_prim H. cbn [err bufStream].
    destruct (decide (length (bufStream l) < chunkSize)); [by left|right].
    split; [done|]. rewrite length_drop. lia.
  - apply ST_bind_Ok in H as ([[chunks1 prev1] buff1] & s2 & Hm & H).
    destruct (bufStream l) as [|b rest]; cbn [ReadByte] in H.
    + rewrite decide_False in H by (intros ?; done). st_prim H. by left.
    + rewrite decide_True in H by done. st_prim H. right. simpl. split; [done|lia].
Qed.

Lemma loop_no_fuel (fuel version : nat) (l : Loop) (s : State) :
  0 < chunkSize →
  err l = ErrNil ∨ err l = EOF →
  length (bufStream l) < fuel →
  loop fuel version l s ≠ OutOfFuel.
Proof.
  intros Hcs. revert l s. induction fuel as [|fuel IH]; intros l s Herr Hlen; [lia|].
  cbn [loop]. case_decide as Heof; [done|].
  destruct Herr as [Herr|Herr]; [|done].
  unfold ST_bind. destruct (loopBody version l s) as [[l' s']| |] eqn:Hbody.
  - destruct (loopBody_progress _ _ _ _ _ Hcs Hbody Herr) as [He|[He Hlt]].
    + destruct fuel; cbn [loop]; by rewrite decide_True.
    + apply IH; [by left|lia].
  - done.
  - by apply terminates_loopBody in Hbody.
Qed.

(** X17.  The loop of [matchStream] ends: each iteration reads at least one
    byte of the stream or meets its end, so the [len(stream) - chunkSize + 1]
    iterations that the model allows are never used up, whatever the
    stream, the index and the differ are. *)
Lemma matchStream_no_fuel (stream : list byte) (version : nat) (s : State) :
  0 < chunkSize →
  matchStream stream version s ≠ OutOfFuel.
Proof.
  intros Hcs. unfold matchStream, ReadFull.
  case_decide; [by repeat case_decide|].
  apply terminates_bind; [solve_terminates|]. intros _.
  intros s1. unfold ST_bind.
  destruct (loop _ _ _ _) as [[l s2]| |] eqn:Hloop.
  - fold (ST_bind (tail_ version l)
            (λ chunks, ST_bind (joinWorker version) (λ _, mret chunks)) s2).
    revert s2 Hloop. intros s2 _. revert s2.
    change (terminates (ST_bind (tail_ version l)
              (λ chunks, ST_bind (joinWorker version) (λ _, mret chunks)))).
    solve_terminates.
  - done.
  - apply loop_no_fuel in Hloop; [done|done|by left|]. cbn [bufStream]. lia.
Qed.


(** ** Reloading the hashes and hashing the stored chunks again *)

Lemma recordsOf_fst (i j0 : nat) (recs : list chunkHashes) :
  (recordsOf i j0 recs).*1 = (λ j, mkChunkId i (Z.of_nat j)) <$> seq j0 (length recs).
Proof.
  unfold recordsOf. rewrite fmap_imap.
  rewrite <- (imap_seq recs (λ j, mkChunkId i (Z.of_nat j)) j0).
  by apply imap_ext.
Qed.

Lemma loadChunksFrom_records (i : nat) (versions : list VersionDir) :
  Forall versionHashed versions →
  loadChunksFrom i versions = (allRecordsFrom i versions).*1.
Proof.
  revert i. induction versions as [|v versions IH]; intros i Hall; [done|].
  apply Forall_cons in Hall as [(payloads & recs & Hh & Hsize & _ & Hrel) Hall].
  cbn [loadChunksFrom allRecordsFrom]. rewrite Hh. cbn [default].
  rewrite fmap_app, recordsOf_fst, IH by done.
  by rewrite Hsize, (Forall2_length _ _ _ Hrel).
Qed.

Lemma allRecordsFrom_on_disk (pre versions : list VersionDir) :
  Forall versionHashed versions →
  Forall (recordOnDisk (pre ++ versions)) (allRecordsFrom (length pre) versions).
Proof.
  revert pre. induction versions as [|v versions IH]; intros pre Hall; [constructor|].
  apply Forall_cons in Hall as [(payloads & recs & Hh & Hsize & Hlook & Hrel) Hall].
  cbn [allRecordsFrom]. rewrite Hh. cbn [default]. apply Forall_app. split.
  - apply Forall_lookup. intros j [id h] Hj.
    unfold recordsOf in Hj. rewrite list_lookup_imap in Hj.
    change (Datatypes.id recs) with recs in Hj.
    destruct (recs !! j) as [h'|] eqn:Hrec; [|by cbn in Hj].
    cbn in Hj. injection Hj as <- <-.
    destruct (Forall2_lookup_r _ _ _ _ _ Hrel Hrec) as (p & Hp & Hfp & Hsk).
    exists p. split_and!; [|done|done].
    unfold readChunkFile. cbn [fst Ver Idx].
    rewrite lookup_app_r by done. rewrite Nat.sub_diag. cbn [lookup list_lookup mbind option_bind].
    by rewrite Hlook.
  - specialize (IH (pre ++ [v]) Hall).
    rewrite length_app, Nat.add_1_r, <- app_assoc in IH. exact IH.
Qed.

Lemma hashChunks_fold (recs : list (ChunkId * chunkHashes)) (r r0 : Repo) :
  Forall (recordOnDisk (dir r)) recs →
  cacheSound r →
  fingerprints r = fingerprints r0 →
  sketches r = sketches r0 →
  ∃ r', hashChunks recs.*1 r = Ok (tt, r')
        ∧ fingerprints r' = fingerprints (fold_left indexRecord recs r0)
        ∧ sketches r' = sketches (fold_left indexRecord recs r0).
Proof.
  revert r r0. induction recs as [|[id h] recs IH]; intros r r0 Hall Hcache Hf Hs.
  - exists r. by cbn.
  - apply Forall_cons in Hall as [(p & Hp & Hfp & Hsk) Hall]. cbn [fst snd] in *.
    cbn [fmap list_fmap hashChunks fold_left].
    assert (∃ r1, LoadChunkContent id r = Ok (p, r1)
                  ∧ dir r1 = dir r ∧ fingerprints r1 = fingerprints r
                  ∧ sketches r1 = sketches r ∧ cacheSound r1)
      as (r1 & Hload & Hd1 & Hf1 & Hs1 & Hc1).
    { unfold LoadChunkContent. destruct (chunkCache r !! id) as [c|] eqn:Hc.
      - apply Hcache in Hc. rewrite Hp in Hc. injection Hc as <-. by exists r.
      - rewrite Hp. eexists. split; [done|]. split_and!; [done..|].
        intros id' c'. cbn [chunkCache dir]. intros Hin.
        apply lookup_insert_Some in Hin as [[<- <-]|[_ Hin]]; [done|by apply Hcache]. }
    rewrite (ST_bind_step _ _ _ _ _ Hload).
    rewrite (ST_bind_step _ _ _ _ _ (hashChunk_Ok id p r1 _ Hsk)).
    destruct (IH (indexRecord r1 (id, mkChunkHashes (makeFingerprint p) (Sk h)))
                 (indexRecord r0 (id, h)))
      as (r' & Hr' & Hfr & Hsr).
    + cbn [indexRecord dir]. by rewrite Hd1.
    + intros id' c'. cbn [indexRecord chunkCache dir]. apply Hc1.
    + cbn [indexRecord fingerprints fst snd Fp]. by rewrite Hf1, Hf, Hfp.
    + cbn [indexRecord sketches fst snd Sk]. by rewrite Hs1, Hs.
    + by exists r'.
Qed.

(** X18.  On a repository whose versions each hold a hashes file with one
    record per payload file, record [j] being the fingerprint and the
    sketch of payload [j], loading the hashes files and hashing again every
    stored chunk both succeed and give the same fingerprint and sketch
    maps. *)
Lemma loadHashes_agrees_with_rehash (d : Disk) :
  Forall versionHashed d →
  ∃ r1 r2,
    loadHashes d (NewRepo d) = Ok (tt, r1)
    ∧ hashChunks (loadChunks d) (NewRepo d) = Ok (tt, r2)
    ∧ fingerprints r1 = fingerprints r2
    ∧ sketches r1 = sketches r2.
Proof.
  intros Hall.
  assert (Hsome : Forall (λ v, is_Some (hashesFile v)) d).
  { eapply Forall_impl; [exact Hall|]. intros v (? & recs & Hh & _). by exists recs. }
  destruct (hashChunks_fold (allRecordsFrom 0 d) (NewRepo d) (NewRepo d))
    as (r2 & Hr2 & Hf & Hs); [|done|done|done|].
  { apply (allRecordsFrom_on_disk [] d Hall). }
  eexists _, r2. split; [by apply loadHashesFrom_spec|].
  unfold loadChunks. rewrite loadChunksFrom_records by done.
  by split_and!.
Qed.


(** ** The content of a recipe *)






(** ** What the helpers of the matcher keep *)




Lemma findSimilarChunk_repo (chunk : list byte) (r r' : Repo) (found : option ChunkId) :
  findSimilarChunk chunk r = Ok (found, r') → r' = r.
Proof.
  intros H. unfold findSimilarChunk in H.
  apply ST_bind_Ok in H as (sk & r1 & Hm & H).
  unfold liftR in Hm. destruct (sketch.SketchChunk _ _ _ _ _ _); simplify_eq.
  apply ST_bind_Ok in H as (r2 & r3 & Hm & H). st_prim Hm. st_prim H. done.
Qed.














(** ** The window of the hasher *)

Lemma Roll_fold_window (bytes : list byte) (h : RabinKarp64) :
  window h ≠ [] →
  window (fold_left Roll bytes h) = drop (length bytes) (window h ++ bytes).
Proof.
  revert h. induction bytes as [|b bytes IH]; intros h Hne.
  - cbn. by rewrite app_nil_r.
  - cbn [fold_left length]. rewrite IH.
    + unfold Roll. cbn [window]. destruct (window h) as [|x w]; [done|].
      cbn [tail]. by rewrite <- app_assoc.
    + unfold Roll. cbn [window]. by destruct (tail (window h)).
Qed.


Lemma matchStream_long (stream : list byte) (version : nat) (s : State) :
  chunkSize ≤ length stream →
  0 < chunkSize →
  matchStream stream version s
  = (l <- loop (S (length (drop chunkSize stream))) version (startLoop stream);;
     chunks <- tail_ version l;;
     _ <- joinWorker version;;
     mret chunks) (startState s).
Proof.
  intros Hlen Hcs. unfold matchStream, ReadFull.
  rewrite Nat.min_l by done.
  rewrite (decide_True (P := chunkSize = chunkSize)) by done.
  rewrite decide_False by lia.
  rewrite copy_replicate by (rewrite length_take; lia).
  done.
Qed.


(** ** The recipe reproduces the stream *)












(** ** From the cache to the disk, and back through [Restore] *)


Lemma LoadChunkContent_disk (id : ChunkId) (r : Repo) (v : list byte) :
  cacheSound r →
  readChunkFile (dir r) id = Some v →
  ∃ r', LoadChunkContent id r = Ok (v, r') ∧ cacheSound r' ∧ dir r' = dir r.
Proof.
  intros Hcache Hv. unfold LoadChunkContent.
  destruct (chunkCache r !! id) as [c|] eqn:Hc.
  - apply Hcache in Hc. rewrite Hv in Hc. injection Hc as <-. by exists r.
  - rewrite Hv. eexists. split; [done|]. split; [|done].
    intros id' c'. cbn [chunkCache dir]. intros Hin.
    apply lookup_insert_Some in Hin as [[<- <-]|[_ Hin]]; [done|by apply Hcache].
Qed.

Lemma restoreStream_yields (recipe : list Chunk) (r : Repo) (bytes : list byte) :
  cacheSound r →
  recipeYields (readChunkFile (dir r)) recipe bytes →
  ∃ r', restoreStream recipe r = Ok (bytes, r') ∧ cacheSound r' ∧ dir r' = dir r.
Proof.
  intros Hcache (parts & Hall & <-). revert r parts Hcache Hall.
  induction recipe as [|c recipe IH]; intros r parts Hcache Hall.
  - apply Forall2_nil_inv_l in Hall as ->. by exists r.
  - apply Forall2_cons_inv_l in Hall as (part & parts' & Hc & Hall & ->).
    assert (∃ r1, Reader c r = Ok (part, r1) ∧ cacheSound r1 ∧ dir r1 = dir r)
      as (r1 & Hread & Hcache1 & Hdir1).
    { destruct c as [id|value|source patch n]; cbn [contentOf Reader] in *.
      - by apply LoadChunkContent_disk.
      - injection Hc as <-. by exists r.
      - destruct (readChunkFile (dir r) source) as [content|] eqn:Hsrc; [|done].
        injection Hc as <-.
        destruct (LoadChunkContent_disk _ _ _ Hcache Hsrc) as (r1 & Hl & Hc1 & Hd1).
        exists r1. by rewrite (ST_bind_step _ _ _ _ _ Hl). }
    destruct (IH r1 parts' Hcache1) as (r2 & Hrest & Hcache2 & Hdir2);
      [by rewrite Hdir1|].
    exists r2. cbn [restoreStream concat].
    rewrite (ST_bind_step _ _ _ _ _ Hread), (ST_bind_step _ _ _ _ _ Hrest).
    split_and!; [done|done|congruence].
Qed.



Lemma LoadChunkContent_dir (id : ChunkId) (r r' : Repo) (v : list byte) :
  LoadChunkContent id r = Ok (v, r') → dir r' = dir r.
Proof.
  unfold LoadChunkContent. destruct (chunkCache r !! id); [by intros [= _ <-]|].
  destruct (readChunkFile (dir r) id); [|done]. by intros [= _ <-].
Qed.

Lemma tryDeltaEncodeChunk_dir (temp : list byte) (r r' : Repo) (cb : Chunk * bool) :
  tryDeltaEncodeChunk temp r = Ok (cb, r') → dir r' = dir r.
Proof.
  intros H. unfold tryDeltaEncodeChunk in H.
  apply ST_bind_Ok in H as (found & r1 & Hm & H).
  apply findSimilarChunk_repo in Hm as ->.
  destruct found as [id|]; [|by st_prim H].
  apply ST_bind_Ok in H as (source & r2 & Hm & H).
  apply LoadChunkContent_dir in Hm. destruct (Diff source temp); st_prim H; done.
Qed.

Lemma hashChunk_dir (id : ChunkId) (content : list byte) (r r' : Repo) (h : Z * list Z) :
  hashChunk id content r = Ok (h, r') → dir r' = dir r.
Proof.
  intros H. unfold hashChunk in H.
  apply ST_bind_Ok in H as (sk & r1 & Hm & H).
  unfold liftR in Hm. destruct (makeSketch content); simplify_eq.
  apply ST_bind_Ok in H as (u & r2 & Hm & H). st_prim Hm. st_prim H. done.
Qed.

Lemma encodeTempChunk_dir (temp : list byte) (version : nat) (s s' : State)
    (cb : Chunk * bool) :
  encodeTempChunk temp version s = Ok (cb, s') → dir (repo s') = dir (repo s).
Proof.
  intros H. unfold encodeTempChunk in H.
  apply ST_bind_Ok in H as ([chunk isDelta] & s1 & Hm & H).
  apply withRepo_Ok in Hm as (r' & Htry & ->). apply tryDeltaEncodeChunk_dir in Htry.
  destruct isDelta; [by st_prim H|].
  case_decide; [|by st_prim H].
  apply ST_bind_Ok in H as (s0 & s2 & Hm & H). st_prim Hm.
  apply ST_bind_Ok in H as (u & s3 & Hm & H). st_prim Hm.
  apply ST_bind_Ok in H as ([fp sk] & s4 & Hm & H).
  apply withRepo_Ok in Hm as (r4 & Hhash & ->). apply hashChunk_dir in Hhash.
  apply ST_bind_Ok in H as (u & s5 & Hm & H). st_prim Hm. st_prim H.
  cbn [repo dir] in *. congruence.
Qed.








(** ** Commit then restore, on the runs where every hit is safe *)



(** ** The features of the sketch *)

Lemma Roll_slides (r : list byte) (wSize i : nat) (h : RabinKarp64) (b : byte) :
  0 < wSize → r !! (i + wSize) = Some b →
  window h = windowAt r wSize i →
  window (Roll h b) = windowAt r wSize (S i).
Proof.
  intros Hw Hb Hwin. unfold Roll, windowAt in *. cbn [window]. rewrite Hwin.
  assert (Hi : i < length r) by (apply lookup_lt_Some in Hb; lia).
  destruct (lookup_lt_is_Some_2 r i Hi) as [x Hx].
  rewrite (drop_S r x i Hx). destruct wSize as [|w]; [lia|]. cbn [take tail].
  rewrite (take_S_r _ _ b); [done|].
  rewrite lookup_drop. rewrite <- Hb. f_equal. lia.
Qed.

Lemma rollMax_spec (p : Pol) (r : list byte) (wSize : nat) (n : nat) :
  ∀ (h : RabinKarp64) (i : nat) (m : Z),
    0 < wSize → rabinkarp64.pol h = p →
    window h = windowAt r wSize i →
    i + n + wSize ≤ length r →
    let res := sketch.rollMax n h (drop (i + wSize) r) m in
    (m ≤ res)%Z
    ∧ (∀ k, 1 ≤ k ≤ n → (p (windowAt r wSize (i + k)) ≤ res)%Z)
    ∧ (res = m ∨ ∃ k, 1 ≤ k ≤ n ∧ res = p (windowAt r wSize (i + k))).
Proof.
  induction n as [|n IH]; intros h i m Hw Hp Hwin Hlen; cbn [sketch.rollMax].
  - split_and!; [lia|intros k Hk; lia|by left].
  - destruct (lookup_lt_is_Some_2 r (i + wSize)) as [b Hb]; [lia|].
    rewrite (drop_S r b _ Hb). cbn [ReadByte].
    pose proof (Roll_slides r wSize i h b Hw Hb Hwin) as Hwin'.
    assert (Hsum : Sum64 (Roll h b) = p (windowAt r wSize (S i))).
    { unfold Sum64. rewrite Hwin'. cbn [Roll rabinkarp64.pol]. by rewrite Hp. }
    rewrite Hsum.
    replace (S (i + wSize)) with (S i + wSize) by lia.
    set (m' := if (p (windowAt r wSize (S i)) >? m)%Z
               then p (windowAt r wSize (S i)) else m).
    destruct (IH (Roll h b) (S i) m' Hw Hp Hwin' ltac:(lia)) as (H1 & H2 & H3).
    assert (Hm' : (m ≤ m')%Z ∧ (p (windowAt r wSize (S i)) ≤ m')%Z
                  ∧ (m' = m ∨ m' = p (windowAt r wSize (S i)))).
    { subst m'. destruct (Z.gtb_spec (p (windowAt r wSize (S i))) m); lia. }
    destruct Hm' as (Hm1 & Hm2 & Hm3).
    split_and!.
    + lia.
    + intros k Hk. destruct (decide (k = 1)) as [->|Hne].
      * replace (i + 1) with (S i) by lia. lia.
      * replace (i + k) with (S i + (k - 1)) by lia. apply H2. lia.
    + destruct H3 as [H3|(k & Hk & H3)].
      * destruct Hm3 as [Hm3|Hm3]; [left; congruence|].
        right. exists 1. split; [lia|]. replace (i + 1) with (S i) by lia. congruence.
      * right. exists (S k). split; [lia|]. replace (i + S k) with (S i + k) by lia. done.
Qed.

(** X1.  The feature of a region is the largest hash of its windows:
    [calcFeature] on a region of [fSize] bytes returns a value that is the
    hash of one of the [fSize - wSize + 1] windows of [wSize] bytes and is
    at least the hash of each of them. *)
Theorem calcFeature_is_max_window_hash (p : Pol) (r : list byte) (wSize fSize : nat) :
  0 < wSize → wSize ≤ fSize → length r = fSize →
  (∀ i, i ≤ fSize - wSize →
        (p (windowAt r wSize i) ≤ sketch.calcFeature p r wSize fSize)%Z)
  ∧ ∃ i, i ≤ fSize - wSize
         ∧ sketch.calcFeature p r wSize fSize = p (windowAt r wSize i).
Proof.
  intros Hw Hle Hlen. unfold sketch.calcFeature.
  set (h := Write (NewFromPol p) (take wSize r)).
  assert (Hwin : window h = windowAt r wSize 0) by done.
  assert (Hsum : Sum64 h = p (windowAt r wSize 0)) by done.
  destruct (rollMax_spec p r wSize (fSize - wSize) h 0 (Sum64 h) Hw eq_refl Hwin
              ltac:(lia)) as (H1 & H2 & H3).
  cbn [Nat.add] in H1, H2, H3. rewrite Hsum in *. split.
  - intros i Hi. destruct (decide (i = 0)) as [->|Hne]; [done|]. apply H2. lia.
  - destruct H3 as [H3|(k & Hk & H3)]; [exists 0|exists k]; split; [lia|done|lia|done].
Qed.


Lemma featuresLoop_full (p : Pol) (n : nat) (r : list byte) (w fSize : nat) :
  n * fSize ≤ length r →
  sketch.featuresLoop p n r w fSize
  = (λ k, sketch.calcFeature p (take fSize (drop (k * fSize) r)) w fSize) <$> seq 0 n.
Proof.
  revert r. induction n as [|n IH]; intros r Hn; [done|].
  cbn [sketch.featuresLoop seq fmap list_fmap].
  rewrite decide_False by (rewrite length_take; lia).
  rewrite IH by (rewrite length_drop; lia).
  cbn [Nat.mul]. rewrite drop_0. f_equal.
  rewrite <- fmap_S_seq, <- list_fmap_compose. apply list_fmap_ext.
  intros _ k _. cbn. rewrite drop_drop. first [done|repeat f_equal; lia].
Qed.

Lemma superfeaturesLoop_full (p : Pol) (n : nat) (features : list Z) (fCount : nat) :
  sketch.superfeaturesLoop p n features fCount
  = (λ k, p (concat (PutUint64 <$> take fCount (drop (k * fCount) features)))) <$> seq 0 n.
Proof.
  revert features. induction n as [|n IH]; intros features; [done|].
  cbn [sketch.superfeaturesLoop seq fmap list_fmap]. rewrite IH.
  cbn [Nat.mul]. rewrite drop_0. f_equal.
  rewrite <- fmap_S_seq, <- list_fmap_compose. apply list_fmap_ext.
  intros _ k _. cbn. rewrite drop_drop. first [done|repeat f_equal; lia].
Qed.

Lemma region_slice (r : list byte) (fSize fCount k i : nat) :
  i < fCount →
  take fSize (drop (i * fSize) (superFeatureRegion r fSize fCount k))
  = take fSize (drop ((k * fCount + i) * fSize) r).
Proof.
  intros Hi. unfold superFeatureRegion.
  replace (fCount * fSize) with (i * fSize + (fCount - i) * fSize) at 1 by nia.
  rewrite <- take_drop_commute, take_take, drop_drop.
  f_equal; [nia|f_equal; nia].
Qed.

(** The sketch in closed form: super-feature [k] is computed from region
    [k] of the chunk. *)
Lemma SketchChunk_closed_form (p : Pol) (r : list byte) (cs w sf f : nat) (sk : list Z) :
  sketch.SketchChunk r p cs w sf f = Ok sk →
  ∀ k, k < length sk →
       sk !! k
       = Some (superFeatureOf p (superFeatureRegion r (cs / (sf * f)) f k) w (cs / (sf * f)) f).
Proof.
  unfold sketch.SketchChunk, sketch.FeatureSize. intros H k Hk.
  destruct (decide (sf * f = 0)) as [?|Hsf]; [done|]. cbn in H.
  set (fSize := cs / (sf * f)) in *.
  destruct (decide (fSize = 0)) as [?|HfSize]; [done|].
  destruct (decide (f = 0)) as [?|Hf]; [done|].
  injection H as <-.
  set (n := length r / fSize) in *.
  assert (Hn : n * fSize ≤ length r) by (subst n; rewrite Nat.mul_comm; by apply Nat.Div0.mul_div_le).
  rewrite featuresLoop_full in * by done.
  rewrite superfeaturesLoop_full in *.
  rewrite !length_fmap, !length_seq in Hk.
  assert (Hkf : (k + 1) * f ≤ n).
  { pose proof (Nat.Div0.mul_div_le n f). nia. }
  rewrite list_lookup_fmap, lookup_seq_lt by (by rewrite length_fmap, length_seq).
  cbn. f_equal. unfold superFeatureOf. do 3 f_equal.
  rewrite <- fmap_drop, <- fmap_take.
  assert (Hseq : take f (drop (k * f) (seq 0 n)) = (λ i, k * f + i) <$> seq 0 f).
  { rewrite drop_seq, take_seq. cbn [Nat.add].
    rewrite Nat.min_l by nia. by rewrite fmap_add_seq, Nat.add_0_r. }
  rewrite Hseq, <- list_fmap_compose. apply list_fmap_ext.
  intros j i Hi. apply lookup_seq in Hi as [-> Hi]. cbn.
  by rewrite region_slice.
Qed.

(** X2.  A super-feature depends only on its own region of the chunk: two
    chunks that agree on the [fCount * fSize] bytes of region [k] have the
    same super-feature [k], whatever their other bytes are. *)
Theorem SketchChunk_superfeature_local (p : Pol) (r1 r2 : list byte)
    (cs w sf f : nat) (sk1 sk2 : list Z) (k : nat) :
  sketch.SketchChunk r1 p cs w sf f = Ok sk1 →
  sketch.SketchChunk r2 p cs w sf f = Ok sk2 →
  k < length sk1 → k < length sk2 →
  superFeatureRegion r1 (cs / (sf * f)) f k = superFeatureRegion r2 (cs / (sf * f)) f k →
  sk1 !! k = sk2 !! k.
Proof.
  intros H1 H2 Hk1 Hk2 Hregion.
  rewrite (SketchChunk_closed_form _ _ _ _ _ _ _ H1 k Hk1).
  rewrite (SketchChunk_closed_form _ _ _ _ _ _ _ H2 k Hk2).
  by rewrite Hregion.
Qed.

(** X3.  A sketch computation panics exactly when the feature size is
    zero, that is when [sfCount * fCount] is zero or exceeds [chunkSize]
    (an integer division by zero), whatever the chunk; otherwise it returns
    [(len / fSize) / fCount] super-features, none for a chunk shorter than
    one region. *)
Theorem SketchChunk_panics_iff_feature_size_zero (p : Pol) (r : list byte)
    (cs w sf f : nat) :
  (sketch.SketchChunk r p cs w sf f = Panic ↔ sf * f = 0 ∨ cs < sf * f)
  ∧ (0 < sf * f ≤ cs →
     ∃ sk, sketch.SketchChunk r p cs w sf f = Ok sk
           ∧ length sk = length r / (cs / (sf * f)) / f
           ∧ (length r < f * (cs / (sf * f)) → sk = [])).
Proof.
  unfold sketch.SketchChunk, sketch.FeatureSize. split.
  - destruct (decide (sf * f = 0)) as [Hz|Hz]; [by split; [left|]|]. cbn.
    destruct (decide (cs / (sf * f) = 0)) as [Hd|Hd].
    + split; [|done]. intros _. right. apply Nat.div_small_iff in Hd; lia.
    + destruct (decide (f = 0)) as [->|Hf]; [lia|].
      split; [done|]. intros [?|Hlt]; [done|].
      apply Nat.div_small_iff in Hlt; [done|lia].
  - intros [Hpos Hle]. rewrite decide_False by lia. cbn.
    assert (Hd : cs / (sf * f) ≠ 0).
    { intros Hd. apply Nat.div_small_iff in Hd; lia. }
    rewrite decide_False by done. rewrite decide_False by lia.
    eexists. split; [done|].
    set (fSize := cs / (sf * f)) in *.
    assert (Hn : length r / fSize * fSize ≤ length r)
      by (rewrite Nat.mul_comm; by apply Nat.Div0.mul_div_le).
    rewrite superfeaturesLoop_length, featuresLoop_length by done.
    split; [done|]. intros Hshort.
    assert (Hzero : length r / fSize / f = 0).
    { rewrite Nat.Div0.div_div. apply Nat.div_small_iff; lia. }
    apply nil_length_inv. by rewrite superfeaturesLoop_length.
Qed.


Lemma SketchChunk_short (p : Pol) (r : list byte) (cs w sf f : nat) :
  0 < sf * f ≤ cs → length r < f * (cs / (sf * f)) →
  sketch.SketchChunk r p cs w sf f = Ok [].
Proof.
  intros [Hpos Hle] Hshort. unfold sketch.SketchChunk, sketch.FeatureSize.
  rewrite decide_False by lia. cbn.
  assert (Hd : cs / (sf * f) ≠ 0).
  { intros Hd. apply Nat.div_small_iff in Hd; lia. }
  rewrite decide_False by done. rewrite decide_False by lia. f_equal.
  set (fSize := cs / (sf * f)) in *.
  apply nil_length_inv. rewrite superfeaturesLoop_length, featuresLoop_length.
  - rewrite Nat.Div0.div_div. apply Nat.div_small_iff; lia.
  - rewrite Nat.mul_comm. by apply Nat.Div0.mul_div_le.
Qed.

(** X4.  A temporary chunk shorter than the region of one super-feature
    has an empty sketch, so no similar chunk is looked up for it: it is
    never delta-encoded, stored or indexed, and [encodeTempChunk] returns
    it as it is and changes nothing. *)
Theorem encodeTempChunk_short_chunk_unchanged (temp : list byte) (version : nat)
    (s : State) :
  0 < sketchSfCount * sketchFCount ≤ chunkSize →
  length temp < sketchFCount * (chunkSize / (sketchSfCount * sketchFCount)) →
  tryDeltaEncodeChunk temp (repo s) = Ok ((TempChunk temp, false), repo s)
  ∧ encodeTempChunk temp version s = Ok ((TempChunk temp, false), s).
Proof.
  intros Hpar Hshort.
  assert (Htry : tryDeltaEncodeChunk temp (repo s) = Ok ((TempChunk temp, false), repo s)).
  { unfold tryDeltaEncodeChunk, findSimilarChunk.
    rewrite (SketchChunk_short _ _ _ _ _ _ Hpar Hshort). done. }
  split; [done|]. unfold encodeTempChunk.
  rewrite (ST_bind_step _ _ s s (TempChunk temp, false)).
  2:{ unfold withRepo. rewrite Htry. by destruct s. }
  cbn. rewrite decide_False; [done|].
  pose proof (Nat.Div0.mul_div_le chunkSize (sketchSfCount * sketchFCount)) as Hdiv.
  set (fSize := chunkSize / (sketchSfCount * sketchFCount)) in *.
  assert (Hsf : 1 ≤ sketchSfCount) by nia.
  assert (sketchFCount * fSize * 1 ≤ sketchFCount * fSize * sketchSfCount)
    by (apply Nat.mul_le_mono_l; lia).
  lia.
Qed.


(** ** The sketch index *)

Lemma SketchMap_Set_lookup (m : SketchMap) (key : list Z) (value : ChunkId) (s : Z) :
  SketchMap_Set m key value !! s
  = if decide (s ∈ key)
    then Some (let prev := default [] (m !! s) in
               if decide (value ∈ prev) then prev else prev ++ [value])
    else m !! s.
Proof.
  unfold SketchMap_Set. revert m. induction key as [|a key IH]; intros m.
  { cbn. rewrite decide_False; [done|]. apply not_elem_of_nil. }
  cbn [fold_left]. rewrite IH. unfold contains.
  destruct (decide (s = a)) as [->|Hne].
  - rewrite (decide_True (P := a ∈ a :: key)) by apply list_elem_of_here.
    destruct (decide (value ∈ default [] (m !! a))) as [Hin|Hnin].
    + rewrite bool_decide_eq_true_2 by done. cbn.
      rewrite (decide_True (P := value ∈ default [] (m !! a))) by done.
      case_decide; [done|].
      destruct (m !! a) as [l|]; [done|]. cbn in Hin. by apply elem_of_nil in Hin.
    + rewrite bool_decide_eq_false_2 by done. rewrite lookup_insert_eq. cbn.
      rewrite (decide_True (P := value ∈ _ ++ [value]))
        by (apply elem_of_app; right; apply list_elem_of_here).
      by case_decide.
  - assert (Hsame : (if bool_decide (value ∈ default [] (m !! a)) then m
                     else <[a:=default [] (m !! a) ++ [value]]> m) !! s = m !! s).
    { case_bool_decide; [done|]. by rewrite lookup_insert_ne. }
    rewrite Hsame.
    destruct (decide (s ∈ key)) as [Hk|Hk].
    + by rewrite (decide_True (P := s ∈ a :: key)) by (by apply list_elem_of_further).
    + rewrite (decide_False (P := s ∈ a :: key)); [done|]. intros Hin. apply elem_of_cons in Hin as [?|?]; done.
Qed.

(** X5.  [SketchMap.Set] lists the identifier under every super-feature of
    the key and touches no other entry; it never removes or reorders what
    an entry held, never lists an identifier twice, and setting the same
    key and identifier again changes nothing. *)
Theorem SketchMap_Set_spec (m : SketchMap) (key : list Z) (value : ChunkId) :
  (∀ s, s ∈ key → ∃ ids, SketchMap_Set m key value !! s = Some ids ∧ value ∈ ids)
  ∧ (∀ s, s ∉ key → SketchMap_Set m key value !! s = m !! s)
  ∧ (∀ s ids, m !! s = Some ids →
              ∃ ids', SketchMap_Set m key value !! s = Some ids' ∧ ids `prefix_of` ids')
  ∧ ((∀ s ids, m !! s = Some ids → NoDup ids) →
     ∀ s ids, SketchMap_Set m key value !! s = Some ids → NoDup ids)
  ∧ SketchMap_Set (SketchMap_Set m key value) key value = SketchMap_Set m key value.
Proof.
  split_and!.
  - intros s Hs. rewrite SketchMap_Set_lookup, decide_True by done. cbn.
    eexists. split; [done|]. case_decide; [done|]. apply elem_of_app. right.
    apply list_elem_of_here.
  - intros s Hs. by rewrite SketchMap_Set_lookup, decide_False.
  - intros s ids Hm. rewrite SketchMap_Set_lookup, Hm. cbn.
    case_decide; [|by exists ids]. eexists. split; [done|].
    case_decide; [done|]. by apply prefix_app_r.
  - intros Hnd s ids. rewrite SketchMap_Set_lookup.
    case_decide; [|by apply Hnd]. cbn. intros [= <-].
    assert (Hprev : NoDup (default [] (m !! s))).
    { destruct (m !! s) as [l|] eqn:Hl; [by eapply Hnd|apply NoDup_nil_2]. }
    case_decide; [done|]. apply NoDup_app. split_and!; [done| |apply NoDup_singleton].
    intros x Hx Hx'. apply list_elem_of_singleton in Hx' as ->. done.
  - apply map_eq. intros s. rewrite (SketchMap_Set_lookup (SketchMap_Set m key value)).
    case_decide as Hs; [|done].
    rewrite SketchMap_Set_lookup, (decide_True (P := s ∈ key)) by done. cbn.
    destruct (decide (value ∈ default [] (m !! s))) as [Hin|Hnin].
    + by rewrite decide_True.
    + rewrite decide_True; [done|]. apply elem_of_app. right. apply list_elem_of_here.
Qed.

(** X6.  A chunk that was just indexed is its own match: after
    [hashChunk id c], the fingerprint of [c] maps to [id], and when [id]
    was not yet listed under the last super-feature of [c], the similarity
    search for [c] returns [id]. *)
Theorem hashChunk_then_findSimilarChunk (id : ChunkId) (c : list byte) (r r1 : Repo)
    (fp : Z) (sk : list Z) (s : Z) :
  hashChunk id c r = Ok ((fp, sk), r1) →
  list.last sk = Some s →
  id ∉ default [] (sketches r !! s) →
  fingerprints r1 !! makeFingerprint c = Some id
  ∧ findSimilarChunk c r1 = Ok (Some id, r1).
Proof.
  intros Hhash Hlast Hfresh. unfold hashChunk in Hhash.
  apply ST_bind_Ok in Hhash as (sk' & r' & Hsk & Hhash).
  unfold liftR in Hsk. destruct (makeSketch c) as [sk0| |] eqn:Hmk; simplify_eq.
  apply ST_bind_Ok in Hhash as (u & r2 & Hmod & Hhash).
  unfold modify in Hmod. cbv in Hhash. simplify_eq. cbn [fingerprints].
  split; [by rewrite lookup_insert_eq|].
  apply last_Some in Hlast as [sk' ->].
  assert (Hcand : list.last (candidates (SketchMap_Set (sketches r') (sk' ++ [s]) id)
                               (sk' ++ [s])) = Some id).
  { pose proof (SketchMap_Set_lookup (sketches r') (sk' ++ [s]) id s) as Hl.
    rewrite decide_True in Hl by (apply elem_of_app; right; apply list_elem_of_here).
    cbn in Hl. rewrite decide_False in Hl by done.
    unfold candidates. rewrite omap_app, concat_app. cbn [omap list_omap].
    rewrite Hl. cbn [concat]. by rewrite app_nil_r, !app_assoc, last_snoc. }
  unfold findSimilarChunk. unfold makeSketch in Hmk. rewrite Hmk.
  unfold liftR, ST_bind, get. cbn [mret ST_mret sketches].
  by rewrite votes_returns_last, Hcand.
Qed.


(** ** The chunk store *)

(** X7.  A payload that was stored is read back unchanged: after a
    successful [StoreChunkContent] of identifier [id], [LoadChunkContent]
    returns the stored bytes and caches them, a second load is served from
    the cache, and the payload of no other identifier has changed. *)
Theorem StoreChunkContent_then_LoadChunkContent (id : ChunkId) (data : list byte)
    (d d' : Disk) (r : Repo) :
  StoreChunkContent id data d = (d', true) →
  dir r = d' → chunkCache r !! id = None →
  let r1 := {| dir := dir r; fingerprints := fingerprints r; sketches := sketches r;
               chunkCache := <[id := data]> (chunkCache r) |} in
  LoadChunkContent id r = Ok (data, r1)
  ∧ LoadChunkContent id r1 = Ok (data, r1)
  ∧ length d' = length d
  ∧ ∀ id', id' ≠ id → readChunkFile d' id' = readChunkFile d id'.
Proof.
  intros Hstore Hdir Hcache r1. unfold StoreChunkContent in Hstore.
  destruct (d !! Ver id) as [v|] eqn:Hv; [|done].
  assert (Hlt : Ver id < length d) by by eapply lookup_lt_Some.
  destruct (fault id); [|done..]. injection Hstore as <-.
  assert (Hread : readChunkFile (dir r) id = Some data).
  { rewrite Hdir. unfold readChunkFile. rewrite list_lookup_insert_eq by done. cbn.
    by rewrite lookup_insert_eq. }
  split_and!.
  - unfold LoadChunkContent. by rewrite Hcache, Hread.
  - unfold LoadChunkContent. subst r1. cbn [chunkCache]. by rewrite lookup_insert_eq.
  - by rewrite length_insert.
  - intros id' Hne. unfold readChunkFile.
    destruct (decide (Ver id' = Ver id)) as [Heq|Hver].
    + rewrite Heq, list_lookup_insert_eq, Hv by done. cbn.
      rewrite lookup_insert_ne; [done|]. intros Hidx. apply Hne.
      destruct id, id'; cbn in *; congruence.
    + by rewrite list_lookup_insert_ne.
Qed.

(** ** Restoring the files *)

Lemma List_last_Some {A : Type} (l : list A) :
  List.last (Some <$> l) None = list.last l.
Proof.
  induction l as [|x [|y l] IH]; [done..|]. cbn [fmap list_fmap List.last] in *.
  rewrite IH. done.
Qed.

Lemma splitFiles_spec (files : list File) (stream : list byte) :
  Forall2 (λ f o, o.1 = Path f ∧ length o.2 ≤ Size f) files (splitFiles files stream)
  ∧ concat (splitFiles files stream).*2 = take (sum_list (Size <$> files)) stream
  ∧ (sum_list (Size <$> files) ≤ length stream →
     Forall2 (λ f o, length o.2 = Size f) files (splitFiles files stream)).
Proof.
  revert stream. induction files as [|f files IH]; intros stream.
  { cbn. split_and!; [constructor|by rewrite take_0|constructor]. }
  destruct (IH (drop (Size f) stream)) as (H1 & H2 & H3).
  assert (Hsum : sum_list (Size <$> f :: files) = Size f + sum_list (Size <$> files))
    by done.
  rewrite Hsum. cbn [splitFiles fmap list_fmap concat fst snd] in *.
  split_and!.
  - constructor; [|done]. cbn. split; [done|]. rewrite length_take. lia.
  - rewrite H2. by rewrite take_take_drop.
  - intros Hlen. rewrite length_drop in H3.
    constructor; [cbn; rewrite length_take; lia|]. apply H3. lia.
Qed.

Lemma splitFiles_length (files : list File) (stream : list byte) :
  length (splitFiles files stream) = length files.
Proof.
  revert stream. induction files as [|f files IH]; intros stream; [done|].
  cbn [splitFiles length]. by rewrite IH.
Qed.

Lemma splitFiles_lookup (files : list File) (stream : list byte) (i : nat) (f : File) :
  files !! i = Some f →
  splitFiles files stream !! i
  = Some (Path f, take (Size f) (drop (sum_list (Size <$> take i files)) stream)).
Proof.
  revert stream i. induction files as [|f0 files IH]; intros stream i Hi; [done|].
  destruct i as [|i].
  - cbn in Hi. simplify_eq. done.
  - cbn in Hi. cbn [splitFiles lookup list_lookup].
    rewrite (IH _ _ Hi).
    assert (Hsum : sum_list (Size <$> take (S i) (f0 :: files))
                   = Size f0 + sum_list (Size <$> take i files)) by done.
    by rewrite Hsum, drop_drop.
Qed.

(** X8.  [Restore] returns whenever the chunks of the latest recipe can be
    read, however short the stream they yield, and it cuts the files of
    the latest file list one after the other from that stream: there is
    one file per entry, in order, and the file of entry [i] is written
    under the recorded path with the bytes of the stream from the sum of
    the sizes of the entries before it, as many as its recorded size or as
    many as are left.  So the files together hold the first [sum of sizes]
    bytes of the stream, and a stream that ends early leaves the last
    files short or empty. *)
Theorem Restore_cuts_stream_by_file_list (r : Repo) (latest : VersionDir)
    (files : list File) (recipe : list Chunk) (stream : list byte) :
  list.last (dir r) = Some latest →
  filesFile latest = Some files →
  recipeFile latest = Some recipe →
  cacheSound r →
  recipeYields (readChunkFile (dir r)) recipe stream →
  ∃ out r',
    Restore r = Ok (out, r')
    ∧ length out = length files
    ∧ (∀ i f, files !! i = Some f →
         let offset := sum_list (Size <$> take i files) in
         out !! i = Some (Path f, take (Size f) (drop offset stream))
         ∧ ∀ data, out !! i = Some (Path f, data) →
             length data = Size f `min` (length stream - offset))
    ∧ concat out.*2 = take (sum_list (Size <$> files)) stream.
Proof.
  intros Hlast Hfiles Hrecipe Hcache Hyields.
  destruct (restoreStream_yields recipe r stream Hcache Hyields) as (r' & Hstream & _ & _).
  exists (splitFiles files stream), r'. split.
  { unfold Restore, ST_bind, get. rewrite List_last_Some, Hlast, Hfiles, Hrecipe.
    cbn. unfold ST_bind. by rewrite Hstream. }
  split; [apply splitFiles_length|]. split.
  - intros i f Hi offset. subst offset. rewrite (splitFiles_lookup _ _ _ _ Hi).
    split; [done|]. intros data Hdata. simplify_eq.
    by rewrite length_take, length_drop.
  - by destruct (splitFiles_spec files stream) as (_ & H2 & _).
Qed.

(** ** The file list *)

Lemma prefix_append (p s : string) : String.prefix p (p +:+ s) = true.
Proof.
  induction p as [|a p IH]; [by destruct s|].
  change (String a p +:+ s) with (String a (p +:+ s)). cbn [String.prefix].
  destruct (Ascii.ascii_dec a a); [done|congruence].
Qed.

Lemma substring_append (p s : string) :
  String.substring (String.length p) (String.length (p +:+ s) - String.length p) (p +:+ s)
  = s.
Proof.
  induction p as [|a p IH].
  - change ("" +:+ s) with s. cbn [String.length]. rewrite Nat.sub_0_r.
    induction s as [|b s IHs]; [done|]. cbn. by rewrite IHs.
  - change (String a p +:+ s) with (String a (p +:+ s)). cbn. exact IH.
Qed.

(** X9.  [unprefixFiles] undoes the prefixing of a walk: the files listed
    below [prefix] get back their relative paths, in the same order and
    with the same sizes; whatever the paths are, the list keeps its length
    and its sizes, and a path that does not start with [prefix] is left as
    it is. *)
Theorem unprefixFiles_spec (files : list File) (prefix : string) :
  unprefixFiles (prefixFiles prefix files) prefix = files
  ∧ length (unprefixFiles files prefix) = length files
  ∧ Size <$> unprefixFiles files prefix = Size <$> files
  ∧ Forall2 (λ f g, String.prefix prefix (Path f) = false → g = f)
      files (unprefixFiles files prefix).
Proof.
  unfold unprefixFiles, prefixFiles. split_and!.
  - rewrite <- list_fmap_compose. rewrite <- (list_fmap_id files) at 2.
    apply list_fmap_ext. intros _ [path size] _. unfold unprefixFile. cbn.
    by rewrite prefix_append, substring_append.
  - by rewrite length_fmap.
  - rewrite <- list_fmap_compose. apply list_fmap_ext. intros _ f _. cbn.
    unfold unprefixFile. by destruct (String.prefix prefix (Path f)).
  - apply Forall2_fmap_r, Forall_Forall2_diag, Forall_forall. intros f _ Hp.
    unfold unprefixFile. by rewrite Hp.
Qed.


(** ** What a run of the matcher keeps

    Between its start and the end of its loop, [matchStream] changes the
    locals only by calls of [NewTempChunk] and of [encodeTempChunk]: a
    relation that holds across both, and is reflexive and transitive, holds
    across the loop and what follows it. *)

Section Lift.

Variable version : nat.
Variable R : State → State → Prop.
Hypothesis R_refl : ∀ s, R s s.
Hypothesis R_trans : ∀ s1 s2 s3, R s1 s2 → R s2 s3 → R s1 s3.
Hypothesis R_temp : ∀ (value : list byte) (s : State),
  R s {| repo := repo s; last := last s; storeQueue := storeQueue s;
         workerStarted := workerStarted s; tempLog := tempLog s ++ [value] |}.
Hypothesis R_encode : ∀ (temp : list byte) (s s' : State) (cb : Chunk * bool),
  encodeTempChunk temp version s = Ok (cb, s') → R s s'.

Lemma R_temp2 (v1 v2 : list byte) (s : State) :
  R s {| repo := repo s; last := last s; storeQueue := storeQueue s;
         workerStarted := workerStarted s; tempLog := (tempLog s ++ [v1]) ++ [v2] |}.
Proof.
  eapply R_trans; [apply (R_temp v1)|].
  exact (R_temp v2 {| repo := repo s; last := last s; storeQueue := storeQueue s;
                      workerStarted := workerStarted s; tempLog := tempLog s ++ [v1] |}).
Qed.

Lemma flushPrev_lift (prev : option (list byte)) (chunks chunks' : list Chunk)
    (s s' : State) :
  flushPrev prev chunks version s = Ok (chunks', s') → R s s'.
Proof.
  intros H. unfold flushPrev in H. destruct prev as [p|]; [|by st_prim H].
  apply ST_bind_Ok in H as ([c b] & s1 & Hm & H). st_prim H. by eapply R_encode.
Qed.

Lemma encodeTempChunks_lift (prev : option (list byte)) (curr : list byte)
    (s s' : State) (cs : list Chunk) :
  encodeTempChunks prev curr version s = Ok (cs, s') → R s s'.
Proof.
  intros H. unfold encodeTempChunks in H. destruct prev as [p|].
  - apply ST_bind_Ok in H as (m & s1 & Hm & H).
    unfold liftR in Hm. destruct chunkMinLen; simplify_eq.
    case_decide.
    + apply ST_bind_Ok in H as (tmp & s2 & Hm & H). st_prim Hm.
      apply ST_bind_Ok in H as ([c b] & s3 & Hm & H).
      apply R_encode in Hm.
      assert (s' = s3) as -> by (destruct b; st_prim H; done).
      eapply R_trans; [apply R_temp|exact Hm].
    + apply ST_bind_Ok in H as ([c1 b1] & s2 & Hm1 & H).
      apply ST_bind_Ok in H as ([c2 b2] & s3 & Hm2 & H).
      apply R_encode in Hm1, Hm2. st_prim H. by eapply R_trans.
  - apply ST_bind_Ok in H as ([c b] & s1 & Hm & H).
    apply R_encode in Hm. st_prim H. done.
Qed.

Lemma loopBody_lift (l l' : Loop) (s s' : State) :
  loopBody version l s = Ok (l', s') → R s s'.
Proof.
  intros H. unfold loopBody in H.
  apply ST_bind_Ok in H as (s0 & s1 & Hm & H). st_prim Hm.
  destruct (fingerprints (repo s1) !! Sum64 (hasher l)) as [chunkId|].
  - apply ST_bind_Ok in H as (chunks1 & s2 & Hm & H).
    destruct (refill _ _ _ _ _) as [[[? ?] ?] ?]. st_prim H.
    case_decide.
    + apply ST_bind_Ok in Hm as (temp & s3 & Hm1 & Hm).
      apply ST_bind_Ok in Hm as (cs & s4 & Hm2 & Hm).
      st_prim Hm1. st_prim Hm. apply encodeTempChunks_lift in Hm2.
      eapply R_trans; [apply R_temp|exact Hm2].
    + by apply flushPrev_lift in Hm.
  - apply ST_bind_Ok in H as ([[chunks1 prev1] buff1] & s2 & Hm & H).
    assert (R s1 s2) as HR.
    { case_decide.
      - apply ST_bind_Ok in Hm as (chunks2 & s3 & Hm1 & Hm).
        apply ST_bind_Ok in Hm as (p & s4 & Hm2 & Hm).
        apply flushPrev_lift in Hm1. st_prim Hm2. st_prim Hm.
        eapply R_trans; [exact Hm1|apply R_temp].
      - st_prim Hm. done. }
    destruct (ReadByte (bufStream l)) as [[b e] rest].
    case_decide; st_prim H; done.
Qed.

Lemma loop_lift (fuel : nat) (l l' : Loop) (s s' : State) :
  loop fuel version l s = Ok (l', s') → R s s'.
Proof.
  revert l s. induction fuel as [|fuel IH]; intros l s H; cbn [loop] in H.
  - case_decide; [|done]. st_prim H. done.
  - case_decide; [st_prim H; done|].
    apply ST_bind_Ok in H as (l1 & s1 & Hm & H).
    apply loopBody_lift in Hm. apply IH in H. by eapply R_trans.
Qed.

Lemma tail_lift (l : Loop) (s s' : State) (chunks' : list Chunk) :
  tail_ version l s = Ok (chunks', s') → R s s'.
Proof.
  intros H. unfold tail_ in H. case_decide; [|by st_prim H].
  apply ST_bind_Ok in H as ([[chunks1 prev1] temp] & s1 & Hm & H).
  apply ST_bind_Ok in H as (cs & s2 & Hm2 & H). st_prim H.
  apply encodeTempChunks_lift in Hm2.
  assert (R s s1) as HR; [|by eapply R_trans].
  case_decide.
  - apply ST_bind_Ok in Hm as (chunks2 & s3 & Hm1 & Hm).
    apply ST_bind_Ok in Hm as (p & s4 & Hm3 & Hm).
    apply ST_bind_Ok in Hm as (t & s5 & Hm4 & Hm).
    apply flushPrev_lift in Hm1. st_prim Hm3. st_prim Hm4. st_prim Hm.
    eapply R_trans; [exact Hm1|]. apply R_temp2.
  - apply ST_bind_Ok in Hm as (t & s3 & Hm1 & Hm). st_prim Hm1. st_prim Hm.
    apply R_temp.
Qed.

(** A run on a stream of at least [chunkSize] bytes: the relation holds
    from the start of the loop to the state the storage worker is joined
    in. *)
Lemma matchStream_lift (stream : list byte) (s s' : State) (recipe : list Chunk) :
  0 < chunkSize → chunkSize ≤ length stream →
  matchStream stream version s = Ok (recipe, s') →
  ∃ s2, R (startState s) s2 ∧ joinWorker version s2 = Ok (tt, s').
Proof.
  intros Hcs Hlen H. rewrite matchStream_long in H by done.
  apply ST_bind_Ok in H as (l & s1 & Hm & H).
  apply ST_bind_Ok in H as (chunks1 & s2 & Hm2 & H).
  apply ST_bind_Ok in H as ([] & s3 & Hm3 & H). st_prim H.
  apply loop_lift in Hm. apply tail_lift in Hm2.
  exists s2. split; [by eapply R_trans|done].
Qed.

End Lift.


(** ** The chunks queued for storage *)

Lemma hashChunk_inv (id : ChunkId) (c : list byte) (r r1 : Repo) (fp : Z) (sk : list Z) :
  hashChunk id c r = Ok ((fp, sk), r1) →
  makeSketch c = Ok sk ∧ fp = makeFingerprint c
  ∧ r1 = indexRecord r (id, mkChunkHashes fp sk).
Proof.
  intros H. unfold hashChunk in H.
  apply ST_bind_Ok in H as (sk' & r' & Hsk & H).
  unfold liftR in Hsk. destruct (makeSketch c) as [sk0| |]; simplify_eq.
  apply ST_bind_Ok in H as (u & r2 & Hmod & H).
  unfold modify in Hmod. cbv [mret ST_mret] in H. by simplify_eq.
Qed.

Lemma LoadChunkContent_index (id : ChunkId) (r r' : Repo) (v : list byte) :
  LoadChunkContent id r = Ok (v, r') →
  fingerprints r' = fingerprints r ∧ sketches r' = sketches r.
Proof.
  unfold LoadChunkContent. destruct (chunkCache r !! id); [by intros [= _ <-]|].
  destruct (readChunkFile (dir r) id); [|done]. by intros [= _ <-].
Qed.

Lemma tryDeltaEncodeChunk_index (temp : list byte) (r r' : Repo) (cb : Chunk * bool) :
  tryDeltaEncodeChunk temp r = Ok (cb, r') →
  fingerprints r' = fingerprints r ∧ sketches r' = sketches r.
Proof.
  intros H. unfold tryDeltaEncodeChunk in H.
  apply ST_bind_Ok in H as (found & r1 & Hm & H).
  apply findSimilarChunk_repo in Hm as ->.
  destruct found as [id|]; [|by st_prim H].
  apply ST_bind_Ok in H as (source & r2 & Hm & H).
  apply LoadChunkContent_index in Hm. destruct (Diff source temp); st_prim H; done.
Qed.

Lemma recordsOf_snoc (i j0 : nat) (recs : list chunkHashes) (h : chunkHashes) :
  recordsOf i j0 (recs ++ [h])
  = recordsOf i j0 recs ++ [(mkChunkId i (Z.of_nat (j0 + length recs)), h)].
Proof. unfold recordsOf. rewrite imap_app. cbn. by rewrite Nat.add_0_r. Qed.

Lemma encodeTempChunk_Queue_step (version : nat) (r0 : Repo) (temp : list byte)
    (s s' : State) (cb : Chunk * bool) :
  encodeTempChunk temp version s = Ok (cb, s') → Queue_step version r0 s s'.
Proof.
  intros H. unfold encodeTempChunk in H.
  apply ST_bind_Ok in H as ([chunk isDelta] & s1 & Hm & H).
  apply withRepo_Ok in Hm as (r' & Htry & ->).
  apply tryDeltaEncodeChunk_index in Htry as [Hfp Hsk].
  assert (Hsame : Queue_step version r0 s
                    {| repo := r'; last := last s; storeQueue := storeQueue s;
                       workerStarted := workerStarted s; tempLog := tempLog s |}).
  { split; [done|]. intros _ (Ha & Hb & Hc & Hd).
    split_and!; cbn [repo last storeQueue]; [done|done|by rewrite Hfp|by rewrite Hsk]. }
  destruct isDelta; [by st_prim H|].
  case_decide as Hlen; [|by st_prim H].
  apply ST_bind_Ok in H as (s0 & s2 & Hm & H). st_prim Hm.
  apply ST_bind_Ok in H as (u & s3 & Hm & H). st_prim Hm.
  apply ST_bind_Ok in H as ([fp sk] & s4 & Hm & H).
  apply withRepo_Ok in Hm as (r4 & Hhash & ->).
  apply hashChunk_inv in Hhash as (Hmk & -> & ->).
  apply ST_bind_Ok in H as (u' & s5 & Hm & H). st_prim Hm. st_prim H.
  cbn [repo last storeQueue workerStarted tempLog] in *.
  split; [cbn; rewrite length_app; lia|].
  cbn [storeQueue]. rewrite length_app. cbn [length]. intros Hbound (Ha & Hb & Hc & Hd).
  split_and!; cbn [last repo storeQueue fingerprints sketches indexRecord fst snd Fp Sk].
  - rewrite length_app. cbn [length]. rewrite Ha, Z.mod_small; lia.
  - intros j data Hj. apply lookup_app_Some in Hj as [Hj|[Hge Hj]]; [by apply Hb|].
    apply list_lookup_singleton_Some in Hj as [Hj <-]. cbn.
    replace j with (length (storeQueue s)) by lia. by rewrite Ha.
  - rewrite fmap_app.
    change (hashes <$> [_]) with [mkChunkHashes (makeFingerprint temp) sk].
    rewrite recordsOf_snoc, fold_left_app. cbn.
    rewrite length_fmap, Ha, Hfp, Hc. done.
  - rewrite fmap_app.
    change (hashes <$> [_]) with [mkChunkHashes (makeFingerprint temp) sk].
    rewrite recordsOf_snoc, fold_left_app. cbn.
    rewrite length_fmap, Ha, Hsk, Hd. done.
Qed.

Lemma Queue_step_refl (version : nat) (r0 : Repo) (s : State) :
  Queue_step version r0 s s.
Proof. by split. Qed.

Lemma Queue_step_trans (version : nat) (r0 : Repo) (s1 s2 s3 : State) :
  Queue_step version r0 s1 s2 → Queue_step version r0 s2 s3 →
  Queue_step version r0 s1 s3.
Proof.
  intros [Hl1 H1] [Hl2 H2]. split; [lia|]. intros Hb Hinv. apply H2; [done|].
  apply H1; [lia|done].
Qed.

Lemma Queue_step_temp (version : nat) (r0 : Repo) (value : list byte) (s : State) :
  Queue_step version r0 s
    {| repo := repo s; last := last s; storeQueue := storeQueue s;
       workerStarted := workerStarted s; tempLog := tempLog s ++ [value] |}.
Proof. by split. Qed.

Lemma matchStream_Queue_inv (stream : list byte) (version : nat) (r0 : Repo)
    (s s' : State) (recipe : list Chunk) :
  0 < chunkSize →
  matchStream stream version s = Ok (recipe, s') →
  Queue_inv version r0 s →
  (Z.of_nat (length (storeQueue s')) < 2 ^ 64)%Z →
  Queue_inv version r0 s'.
Proof.
  intros Hcs H Hinv Hbound.
  destruct (decide (chunkSize ≤ length stream)) as [Hlen|Hlen].
  - destruct (matchStream_lift version (Queue_step version r0)
                (Queue_step_refl version r0) (Queue_step_trans version r0)
                (Queue_step_temp version r0)
                (encodeTempChunk_Queue_step version r0)
                stream s s' recipe Hcs Hlen H) as (s2 & [_ HR] & Hjoin).
    unfold joinWorker in Hjoin.
    destruct (storageWorker _ _ _) as [[d lg]| |]; [|done..]. injection Hjoin as <-.
    cbn [storeQueue] in Hbound. apply HR in Hinv; [|done]. exact Hinv.
  - destruct stream as [|b stream].
    + rewrite matchStream_empty in H by done. by simplify_eq.
    + rewrite matchStream_short in H; [done|cbn; lia|lia].
Qed.

(** X10.  Only full chunks are stored: every chunk that a run of
    [matchStream] queues for the storage worker has exactly [chunkSize]
    bytes, the chunk queued at position [j] has the identifier
    [(version, j)], and its record holds the fingerprint and the sketch of
    its own content. *)
Theorem matchStream_queues_full_chunks (stream : list byte) (version : nat)
    (r : Repo) (s' : State) (recipe : list Chunk) :
  0 < chunkSize →
  matchStream stream version (commitState r) = Ok (recipe, s') →
  (Z.of_nat (length (storeQueue s')) < 2 ^ 64)%Z →
  ∀ j data, storeQueue s' !! j = Some data →
            cid data = mkChunkId version (Z.of_nat j)
            ∧ length (content data) = chunkSize
            ∧ Fp (hashes data) = makeFingerprint (content data)
            ∧ makeSketch (content data) = Ok (Sk (hashes data)).
Proof.
  intros Hcs H Hbound.
  eapply (matchStream_Queue_inv _ _ r) in H as (_ & Hb & _); [exact Hb|done| |done].
  by split_and!.
Qed.


(** ** What a commit writes *)

Lemma encodeTempChunk_queuedIn (version : nat) (temp : list byte) (s s' : State)
    (cb : Chunk * bool) :
  encodeTempChunk temp version s = Ok (cb, s') →
  queuedIn version s → queuedIn version s'.
Proof.
  intros H. unfold encodeTempChunk in H.
  apply ST_bind_Ok in H as ([chunk isDelta] & s1 & Hm & H).
  apply withRepo_Ok in Hm as (r' & Htry & ->).
  destruct isDelta; [by st_prim H|].
  case_decide as Hlen; [|by st_prim H].
  apply ST_bind_Ok in H as (s0 & s2 & Hm & H). st_prim Hm.
  apply ST_bind_Ok in H as (u & s3 & Hm & H). st_prim Hm.
  apply ST_bind_Ok in H as ([fp sk] & s4 & Hm & H).
  apply withRepo_Ok in Hm as (r4 & Hhash & ->).
  apply ST_bind_Ok in H as (u' & s5 & Hm & H). st_prim Hm. st_prim H.
  unfold queuedIn. cbn [storeQueue]. intros Hq. apply Forall_app. split; [done|].
  by constructor.
Qed.

Lemma storeOne_version (version : nat) (data : chunkData) (d : Disk) (v : VersionDir)
    (recs : list chunkHashes) (log : list event) :
  d !! version = Some v → hashesFile v = Some recs →
  Ver (cid data) = version →
  ∃ v' log', storeOne version (d, log) data = (<[version := v']> d, log')
             ∧ hashesFile v' = Some (recs ++ [hashes data])
             ∧ filesFile v' = filesFile v ∧ recipeFile v' = recipeFile v.
Proof.
  intros Hv Hrecs Hver.
  assert (Hlt : version < length d) by by eapply lookup_lt_Some.
  unfold storeOne. rewrite Hv. unfold StoreChunkContent. rewrite Hver.
  rewrite list_lookup_insert_eq by done. rewrite Hrecs.
  cbn [chunksDir hashesFile filesFile recipeFile default].
  destruct (fault (cid data)); rewrite ?list_insert_insert_eq;
    eexists _, _; (split; [reflexivity|done]).
Qed.

Lemma storeOne_fold_version (version : nat) (queue : list chunkData) (d d' : Disk)
    (v : VersionDir) (recs : list chunkHashes) (log log' : list event) :
  d !! version = Some v → hashesFile v = Some recs →
  Forall (λ data, Ver (cid data) = version) queue →
  fold_left (storeOne version) queue (d, log) = (d', log') →
  ∃ v', d' = <[version := v']> d
        ∧ hashesFile v' = Some (recs ++ (hashes <$> queue))
        ∧ filesFile v' = filesFile v ∧ recipeFile v' = recipeFile v.
Proof.
  revert d v recs log.
  induction queue as [|data queue IH]; intros d v recs log Hv Hrecs Hall Hfold.
  - cbn in Hfold. injection Hfold as <- <-. exists v.
    rewrite list_insert_id by done. cbn. by rewrite app_nil_r.
  - apply Forall_cons in Hall as [Hver Hall].
    assert (Hlt : version < length d) by by eapply lookup_lt_Some.
    destruct (storeOne_version version data d v recs log Hv Hrecs Hver)
      as (v1 & log1 & Hstep & Hrecs1 & Hf1 & Hr1).
    cbn [fold_left] in Hfold. rewrite Hstep in Hfold.
    eapply IH in Hfold as (v' & -> & Hrecs' & Hf' & Hr'); [|by apply list_lookup_insert_eq|done..].
    exists v'. rewrite list_insert_insert_eq. split_and!; [done| |congruence..].
    rewrite Hrecs'. cbn [fmap list_fmap]. by rewrite <- app_assoc.
Qed.

Lemma storageWorker_version (version : nat) (queue : list chunkData) (d d' : Disk)
    (v : VersionDir) (log : list event) :
  d !! version = Some v →
  Forall (λ data, Ver (cid data) = version) queue →
  storageWorker version queue d = Ok (d', log) →
  ∃ v', d' = <[version := v']> d
        ∧ hashesFile v' = Some (hashes <$> queue)
        ∧ filesFile v' = filesFile v ∧ recipeFile v' = recipeFile v.
Proof.
  intros Hv Hall H. unfold storageWorker in H. rewrite Hv in H.
  assert (Hlt : version < length d) by by eapply lookup_lt_Some.
  destruct (fold_left _ _ _) as [d1 log1] eqn:Hfold. injection H as <- _.
  eapply (storeOne_fold_version _ _ _ _ _ []) in Hfold
    as (v' & -> & Hrecs' & Hf' & Hr'); [|by apply list_lookup_insert_eq|done..].
  exists v'. by rewrite list_insert_insert_eq.
Qed.

Lemma matchStream_version_dir (stream : list byte) (version : nat) (s s' : State)
    (recipe : list Chunk) (v : VersionDir) :
  0 < chunkSize →
  matchStream stream version s = Ok (recipe, s') →
  storeQueue s = [] →
  dir (repo s) !! version = Some v →
  ∃ v', dir (repo s') = <[version := v']> (dir (repo s))
        ∧ filesFile v' = filesFile v ∧ recipeFile v' = recipeFile v
        ∧ (chunkSize ≤ length stream → hashesFile v' = Some (hashes <$> storeQueue s'))
        ∧ (stream = [] → v' = v ∧ recipe = [TempChunk []]).
Proof.
  intros Hcs H Hq Hv.
  destruct (decide (chunkSize ≤ length stream)) as [Hlen|Hlen].
  - assert (Hrefl : ∀ s, Dir_step version s s) by (by split).
    assert (Htrans : ∀ s1 s2 s3, Dir_step version s1 s2 → Dir_step version s2 s3 →
                                 Dir_step version s1 s3).
    { intros s1 s2 s3 [H1 H1'] [H2 H2']. split; [congruence|auto]. }
    assert (Htemp : ∀ (value : list byte) (s : State),
               Dir_step version s
                 {| repo := repo s; last := last s; storeQueue := storeQueue s;
                    workerStarted := workerStarted s; tempLog := tempLog s ++ [value] |})
      by (by split).
    assert (Henc : ∀ (temp : list byte) (s s' : State) (cb : Chunk * bool),
               encodeTempChunk temp version s = Ok (cb, s') → Dir_step version s s').
    { intros temp s1 s2 cb He. split; [by eapply encodeTempChunk_dir|].
      by eapply encodeTempChunk_queuedIn. }
    destruct (matchStream_lift version (Dir_step version) Hrefl Htrans Htemp Henc
                stream s s' recipe Hcs Hlen H) as (s2 & [Hdir Hin] & Hjoin).
    unfold joinWorker in Hjoin.
    destruct (storageWorker _ _ _) as [[d lg]| |] eqn:Hw; [|done..]. injection Hjoin as <-.
    cbn [startState repo storeQueue] in *. rewrite Hdir in Hw.
    eapply storageWorker_version in Hw as (v' & -> & Hrecs & Hf & Hr); [|done|].
    + exists v'. split_and!; [done..|]. intros ->. cbn in Hlen. lia.
    + apply Hin. unfold queuedIn. cbn. rewrite Hq. constructor.
  - destruct stream as [|b stream].
    + rewrite matchStream_empty in H by done. simplify_eq. exists v. cbn [repo].
      rewrite list_insert_id by done. split_and!; done.
    + rewrite matchStream_short in H; [done|cbn; lia|lia].
Qed.

Lemma Commit_Ok_inv (source : list (string * list byte)) (r r1 : Repo) :
  Commit source r = Ok (tt, r1) →
  ∃ rb recipe s',
    loadHashes (dir r) {| dir := dir r ++ [emptyVersionDir];
                          fingerprints := fingerprints r; sketches := sketches r;
                          chunkCache := chunkCache r |} = Ok (tt, rb)
    ∧ matchStream (concatFiles source) (length (dir r)) (commitState rb) = Ok (recipe, s')
    ∧ r1 = {| dir := storeFilesAndRecipe (length (dir r)) (listFiles source) recipe
                       (dir (repo s'));
              fingerprints := fingerprints (repo s'); sketches := sketches (repo s');
              chunkCache := chunkCache (repo s') |}.
Proof.
  intros H. unfold Commit in H.
  apply ST_bind_Ok in H as (r0 & r0' & Hget & H). unfold get in Hget. simplify_eq.
  apply ST_bind_Ok in H as ([] & ra & Hmod & H). unfold modify in Hmod. simplify_eq.
  apply ST_bind_Ok in H as ([] & rb & Hload & H).
  apply ST_bind_Ok in H as ([recipe s'] & rc & Hrun & H).
  unfold runMatcher in Hrun.
  destruct (matchStream _ _ _) as [[recipe' s'']| |] eqn:Hmatch; [|done..].
  simplify_eq. unfold modify in H. simplify_eq.
  by exists rb, recipe, s'.
Qed.

Lemma indexRecord_fold_dir (l : list (ChunkId * chunkHashes)) (r : Repo) :
  dir (fold_left indexRecord l r) = dir r.
Proof. revert r. induction l as [|x l IH]; intros r; [done|]. cbn. by rewrite IH. Qed.

Lemma indexRecord_fold_maps (l : list (ChunkId * chunkHashes)) (r r' : Repo) :
  fingerprints r = fingerprints r' → sketches r = sketches r' →
  fingerprints (fold_left indexRecord l r) = fingerprints (fold_left indexRecord l r')
  ∧ sketches (fold_left indexRecord l r) = sketches (fold_left indexRecord l r').
Proof.
  revert r r'. induction l as [|x l IH]; intros r r' Hf Hs; [done|].
  cbn [fold_left]. apply IH; unfold indexRecord; cbn; congruence.
Qed.

Lemma loadHashesFrom_Ok_inv (i : nat) (versions : list VersionDir) (r r' : Repo) :
  loadHashesFrom i versions r = Ok (tt, r') →
  Forall (λ v, is_Some (hashesFile v)) versions.
Proof.
  revert i r. induction versions as [|v versions IH]; intros i r H; [constructor|].
  cbn [loadHashesFrom] in H. destruct (hashesFile v) as [recs|] eqn:Hrecs; [|done].
  apply ST_bind_Ok in H as ([] & r1 & _ & H). constructor; [by rewrite Hrecs|].
  by eapply IH.
Qed.

Lemma allRecordsFrom_app (i : nat) (a b : list VersionDir) :
  allRecordsFrom i (a ++ b) = allRecordsFrom i a ++ allRecordsFrom (i + length a) b.
Proof.
  revert i. induction a as [|v a IH]; intros i; cbn.
  - by rewrite Nat.add_0_r.
  - rewrite IH, <- app_assoc. do 3 f_equal. lia.
Qed.

Lemma matchStream_Commit_dir (source : list (string * list byte)) (r rb : Repo)
    (recipe : list Chunk) (s' : State) :
  0 < chunkSize →
  loadHashes (dir r) {| dir := dir r ++ [emptyVersionDir];
                        fingerprints := fingerprints r; sketches := sketches r;
                        chunkCache := chunkCache r |} = Ok (tt, rb) →
  matchStream (concatFiles source) (length (dir r)) (commitState rb) = Ok (recipe, s') →
  ∃ v', dir (repo s') = dir r ++ [v']
        ∧ filesFile v' = None ∧ recipeFile v' = None
        ∧ (chunkSize ≤ length (concatFiles source) →
           hashesFile v' = Some (hashes <$> storeQueue s'))
        ∧ (concatFiles source = [] → v' = emptyVersionDir ∧ recipe = [TempChunk []]).
Proof.
  intros Hcs Hload Hmatch.
  assert (Hdir : dir rb = dir r ++ [emptyVersionDir]).
  { unfold loadHashes in Hload. pose proof (loadHashesFrom_Ok_inv _ _ _ _ Hload) as Hall.
    rewrite (loadHashesFrom_spec _ _ _ Hall) in Hload. injection Hload as <-.
    by rewrite indexRecord_fold_dir. }
  eapply (matchStream_version_dir _ _ _ _ _ emptyVersionDir) in Hmatch
    as (v' & Hd & Hf & Hr & Hh & He); [|done|done|].
  2:{ cbn [commitState repo]. rewrite Hdir.
      by rewrite lookup_app_r, Nat.sub_diag by done. }
  cbn [commitState repo] in Hd. rewrite Hdir in Hd.
  rewrite insert_app_r_alt, Nat.sub_diag in Hd by done. exists v'. by split_and!.
Qed.

(** X11.  A commit that returns has added exactly one version directory,
    after the existing ones, and has left every earlier version as it was;
    the new version holds the file list of the source tree and the recipe.
    For an empty source the new version has no chunk and no hashes file,
    and its recipe is one empty temporary chunk. *)
Theorem Commit_appends_one_version (source : list (string * list byte)) (r r1 : Repo) :
  0 < chunkSize →
  Commit source r = Ok (tt, r1) →
  ∃ v recipe,
    dir r1 = dir r ++ [v]
    ∧ filesFile v = Some (listFiles source)
    ∧ recipeFile v = Some recipe
    ∧ (concatFiles source = [] →
       chunksDir v = ∅ ∧ hashesFile v = None ∧ recipe = [TempChunk []]).
Proof.
  intros Hcs H. apply Commit_Ok_inv in H as (rb & recipe & s' & Hload & Hmatch & ->).
  destruct (matchStream_Commit_dir _ _ _ _ _ Hcs Hload Hmatch)
    as (v' & Hd & _ & _ & _ & He).
  cbn [dir]. rewrite Hd. unfold storeFilesAndRecipe.
  rewrite lookup_app_r, Nat.sub_diag by done. cbn [lookup list_lookup].
  rewrite insert_app_r_alt, Nat.sub_diag by done. cbn [insert list_insert].
  eexists _, recipe. split_and!; [done..|].
  intros Hempty. destruct (He Hempty) as [-> ->]. done.
Qed.

(** X12.  The index survives the commit: when a commit of a stream of at
    least [chunkSize] bytes returns, loading the hashes files of the
    repository it leaves into a new engine gives the fingerprint and sketch
    maps that the committing engine held at the end, whether or not the
    payload writes succeeded. *)
Theorem Commit_index_reloads (source : list (string * list byte)) (d : Disk) (r1 : Repo) :
  0 < chunkSize → chunkSize ≤ length (concatFiles source) →
  Commit source (NewRepo d) = Ok (tt, r1) →
  (∀ v recs, list.last (dir r1) = Some v → hashesFile v = Some recs →
             (Z.of_nat (length recs) < 2 ^ 64)%Z) →
  ∃ r2, loadHashes (dir r1) (NewRepo (dir r1)) = Ok (tt, r2)
        ∧ fingerprints r2 = fingerprints r1
        ∧ sketches r2 = sketches r1.
Proof.
  intros Hcs Hlen H Hbound.
  apply Commit_Ok_inv in H as (rb & recipe & s' & Hload & Hmatch & ->).
  destruct (matchStream_Commit_dir _ _ _ _ _ Hcs Hload Hmatch)
    as (v' & Hd & _ & _ & Hh & _).
  specialize (Hh Hlen). cbn [dir NewRepo] in *.
  assert (Hdir1 : storeFilesAndRecipe (length d) (listFiles source) recipe (dir (repo s'))
                  = d ++ [{| chunksDir := chunksDir v'; hashesFile := hashesFile v';
                             filesFile := Some (listFiles source);
                             recipeFile := Some recipe |}]).
  { rewrite Hd. unfold storeFilesAndRecipe.
    rewrite lookup_app_r, Nat.sub_diag by done. cbn [lookup list_lookup].
    by rewrite insert_app_r_alt, Nat.sub_diag by done. }
  rewrite Hdir1 in *. clear Hdir1.
  specialize (Hbound _ _ (last_snoc _ _) Hh). rewrite length_fmap in Hbound.
  pose proof (loadHashesFrom_Ok_inv _ _ _ _ Hload) as Hall.
  unfold loadHashes in *. rewrite (loadHashesFrom_spec _ _ _ Hall) in Hload.
  injection Hload as <-.
  eapply (matchStream_Queue_inv _ _ _ _ _ _ Hcs) in Hmatch as (_ & _ & Hfp & Hsk);
    [| |done].
  2:{ by split_and!. }
  rewrite loadHashesFrom_spec.
  2:{ apply Forall_app. split; [done|]. constructor; [|constructor]. cbn. by rewrite Hh. }
  eexists. split; [done|]. cbn [fingerprints sketches].
  rewrite Hfp, Hsk, allRecordsFrom_app, fold_left_app. cbn [allRecordsFrom hashesFile].
  rewrite Hh. cbn [default]. rewrite app_nil_r, Nat.add_0_l.
  apply indexRecord_fold_maps; by apply indexRecord_fold_maps.
Qed.


(** ** Streams of chunks that are already indexed *)

Lemma Roll_fold_pol (bytes : list byte) (h : RabinKarp64) :
  rabinkarp64.pol (fold_left Roll bytes h) = rabinkarp64.pol h.
Proof. revert h. induction bytes as [|b bytes IH]; intros h; [done|]. cbn. by rewrite IH. Qed.

Lemma loop_known_chunks (version : nat) (s : State) (rest : list (list byte)) :
  0 < chunkSize →
  ∀ (c : list byte) (id : ChunkId) (ids : list ChunkId) (acc : list Chunk)
    (h : RabinKarp64) (fuel : nat),
    Forall (λ c, length c = chunkSize) (c :: rest) →
    Forall2 (λ c id, fingerprints (repo s) !! pol c = Some id) (c :: rest) (id :: ids) →
    rabinkarp64.pol h = pol → window h = c →
    length rest < fuel →
    ∃ l', loop fuel version
            {| bufStream := concat rest; hasher := h; buff := c; prev := None;
               chunks := acc; err := ErrNil |} s = Ok (l', s)
          ∧ chunks l' = acc ++ (StoredChunk <$> id :: ids)
          ∧ buff l' = [] ∧ prev l' = None.
Proof.
  intros Hcs. induction rest as [|c' rest IH];
    intros c id ids acc h fuel Hlens Hhits Hpol Hwin Hfuel.
  - apply Forall2_cons_1 in Hhits as [Hhit Hids]. apply Forall2_nil_inv_l in Hids as ->.
    apply Forall_cons in Hlens as [Hlen _].
    destruct fuel as [|fuel]; [cbn in Hfuel; lia|]. cbn [loop err].
    rewrite decide_False by done.
    assert (Hbody : loopBody version
              {| bufStream := concat []; hasher := h; buff := c; prev := None;
                 chunks := acc; err := ErrNil |} s
            = Ok ({| bufStream := []; hasher := h; buff := []; prev := None;
                     chunks := acc ++ [StoredChunk id]; err := EOF |}, s)).
    { unfold loopBody, ST_bind, get. cbn [hasher buff prev chunks err bufStream].
      unfold Sum64. rewrite Hpol, Hwin, Hhit.
      rewrite decide_False by lia. cbn [flushPrev mret ST_mret].
      rewrite refill_spec. cbn [concat length]. rewrite take_nil, drop_nil.
      by rewrite decide_True by lia. }
    rewrite (ST_bind_step _ _ _ _ _ Hbody).
    eexists. split; [by destruct fuel|]. done.
  - apply Forall2_cons_1 in Hhits as [Hhit Hids].
    destruct ids as [|id' ids]; [by apply Forall2_cons_nil_inv in Hids|].
    apply Forall_cons in Hlens as [Hlen Hlens].
    pose proof Hlens as Hlens'. apply Forall_cons in Hlens' as [Hlen' _].
    destruct fuel as [|fuel]; [cbn in Hfuel; lia|]. cbn [loop err].
    rewrite decide_False by done.
    assert (Hbody : loopBody version
              {| bufStream := concat (c' :: rest); hasher := h; buff := c; prev := None;
                 chunks := acc; err := ErrNil |} s
            = Ok ({| bufStream := concat rest; hasher := fold_left Roll c' h;
                     buff := c'; prev := None;
                     chunks := acc ++ [StoredChunk id]; err := ErrNil |}, s)).
    { unfold loopBody, ST_bind, get. cbn [hasher buff prev chunks err bufStream].
      unfold Sum64. rewrite Hpol, Hwin, Hhit.
      rewrite decide_False by lia. cbn [flushPrev mret ST_mret].
      rewrite refill_spec. cbn [concat app].
      rewrite take_app_length', drop_app_length' by done.
      rewrite decide_False by (rewrite length_app; lia). done. }
    rewrite (ST_bind_step _ _ _ _ _ Hbody).
    destruct (IH c' id' ids (acc ++ [StoredChunk id]) (fold_left Roll c' h) fuel)
      as (l' & Hloop & Hchunks & Hbuff & Hprev); try done.
    + by rewrite Roll_fold_pol.
    + rewrite Roll_fold_window by (rewrite Hwin; intros ->; cbn in Hlen; lia).
      rewrite Hwin, drop_app_length'; [done|lia].
    + cbn in Hfuel. lia.
    + exists l'. split; [done|]. split; [|done]. rewrite Hchunks, <- app_assoc. done.
Qed.

(** X13.  A stream made of chunks that are all in the fingerprint index is
    encoded by references only: for chunks of [chunkSize] bytes whose
    hashes are indexed, [matchStream] returns one stored-chunk reference
    per chunk, in order, creates no temporary chunk, queues nothing for
    storage and leaves the index as it was. *)
Theorem matchStream_known_chunks (chunks : list (list byte)) (ids : list ChunkId)
    (version : nat) (s : State) (v : VersionDir) :
  0 < chunkSize → chunks ≠ [] →
  Forall (λ c, length c = chunkSize) chunks →
  Forall2 (λ c id, fingerprints (repo s) !! pol c = Some id) chunks ids →
  dir (repo s) !! version = Some v →
  ∃ s', matchStream (concat chunks) version s = Ok (StoredChunk <$> ids, s')
        ∧ storeQueue s' = storeQueue s ∧ tempLog s' = tempLog s ∧ last s' = last s
        ∧ fingerprints (repo s') = fingerprints (repo s)
        ∧ sketches (repo s') = sketches (repo s).
Proof.
  intros Hcs Hne Hlens Hhits Hv.
  destruct chunks as [|c rest]; [done|]. destruct ids as [|id ids];
    [by apply Forall2_cons_nil_inv in Hhits|].
  pose proof Hlens as Hlens'. apply Forall_cons in Hlens' as [Hlen _].
  assert (Hlong : chunkSize ≤ length (concat (c :: rest)))
    by (cbn; rewrite length_app; lia).
  rewrite matchStream_long by done.
  unfold startLoop. cbn [concat]. rewrite take_app_length', drop_app_length' by done.
  destruct (loop_known_chunks version (startState s) rest Hcs c id ids []
              (Write (NewFromPol pol) c) (S (length (concat rest))))
    as (l' & Hloop & Hchunks & Hbuff & Hprev); try done.
  { clear -Hlens Hcs. apply Forall_cons in Hlens as [_ Hlens].
    induction Hlens as [|x l Hx Hl IH]; cbn; [lia|]. rewrite length_app. lia. }
  rewrite (ST_bind_step _ _ _ _ _ Hloop).
  assert (Htail : tail_ version l' (startState s) = Ok (chunks l', startState s)).
  { unfold tail_. rewrite Hbuff. by rewrite decide_False by (cbn; lia). }
  rewrite (ST_bind_step _ _ _ _ _ Htail).
  unfold ST_bind, joinWorker, storageWorker. cbn [startState repo storeQueue]. rewrite Hv.
  destruct (fold_left _ _ _) as [d' lg]. cbn [mret ST_mret].
  eexists. split; [by rewrite Hchunks|]. done.
Qed.


(** ** Encoding of temporary chunks: the fallbacks *)

Lemma tryDeltaEncodeChunk_forms (temp : list byte) (r r' : Repo) (c : Chunk) (b : bool) :
  tryDeltaEncodeChunk temp r = Ok ((c, b), r') →
  fingerprints r' = fingerprints r ∧ sketches r' = sketches r
  ∧ ((b = false ∧ c = TempChunk temp)
     ∨ (b = true ∧ ∃ id patch, c = DeltaChunk id patch (length temp))).
Proof.
  intros H. destruct (tryDeltaEncodeChunk_index _ _ _ _ H) as [Hf Hs].
  split; [done|]. split; [done|]. unfold tryDeltaEncodeChunk in H.
  apply ST_bind_Ok in H as (found & r1 & Hm & H).
  destruct found as [id|]; [|st_prim H; by left].
  apply ST_bind_Ok in H as (source & r2 & Hm2 & H).
  destruct (Diff source temp) as [patch|]; st_prim H; [right|left]; eauto.
Qed.

(** X14.  A held-back chunk followed by a remainder shorter than
    [chunkMinLen] is never stored: the two are merged, and the merged
    chunk, longer than [chunkSize], is either delta-encoded as a whole or
    given up, in which case both stay in the recipe as temporary chunks.
    Nothing is queued for storage and the index is not changed. *)
Theorem encodeTempChunks_merge_never_stores (p curr : list byte) (version : nat)
    (s s' : State) (cs : list Chunk) (m : nat) :
  chunkMinLen = Ok m → length curr < m →
  length p = chunkSize → 1 ≤ length curr →
  encodeTempChunks (Some p) curr version s = Ok (cs, s') →
  storeQueue s' = storeQueue s ∧ last s' = last s
  ∧ fingerprints (repo s') = fingerprints (repo s)
  ∧ sketches (repo s') = sketches (repo s)
  ∧ tempLog s' = tempLog s ++ [p ++ curr]
  ∧ (cs = [TempChunk p; TempChunk curr]
     ∨ ∃ id patch, cs = [DeltaChunk id patch (chunkSize + length curr)]).
Proof.
  intros Hmin Hshort Hp Hcurr H. unfold encodeTempChunks in H. rewrite Hmin in H.
  apply ST_bind_Ok in H as (m' & s1 & Hm & H). st_prim Hm.
  rewrite decide_True in H by done.
  apply ST_bind_Ok in H as (tmp & s2 & Hm & H). st_prim Hm.
  apply ST_bind_Ok in H as ([c b] & s3 & Hm & H).
  unfold encodeTempChunk in Hm.
  apply ST_bind_Ok in Hm as ([chunk isDelta] & s4 & Htry & Hm).
  apply withRepo_Ok in Htry as (r' & Htry & ->).
  apply tryDeltaEncodeChunk_forms in Htry as (Hf & Hs & Hform).
  cbn [repo] in Hf, Hs.
  destruct Hform as [[-> ->]|[-> (id & patch & ->)]].
  - rewrite decide_False in Hm by (rewrite length_app; lia).
    st_prim Hm. st_prim H. cbn. split_and!; try done. by left.
  - st_prim Hm. st_prim H. cbn. split_and!; try done. right.
    exists id, patch. by rewrite length_app, Hp.
Qed.

(** X15.  An error of the differ is not an error of the encoding: when the
    differ fails on the similar chunk that was found, the temporary chunk
    is handled as if none had been found.  A chunk of another length than
    [chunkSize] stays a temporary chunk; a chunk of [chunkSize] bytes is
    given the next identifier of the version, indexed, cached and queued
    for storage. *)
Theorem encodeTempChunk_differ_error (temp : list byte) (version : nat) (s : State)
    (id : ChunkId) (r1 r2 : Repo) (source : list byte) (sk : list Z) :
  findSimilarChunk temp (repo s) = Ok (Some id, r1) →
  LoadChunkContent id r1 = Ok (source, r2) →
  Diff source temp = None →
  makeSketch temp = Ok sk →
  tryDeltaEncodeChunk temp (repo s) = Ok ((TempChunk temp, false), r2)
  ∧ (length temp ≠ chunkSize →
     encodeTempChunk temp version s
     = Ok ((TempChunk temp, false),
           {| repo := r2; last := last s; storeQueue := storeQueue s;
              workerStarted := workerStarted s; tempLog := tempLog s |}))
  ∧ (length temp = chunkSize →
     let new := mkChunkId version (last s) in
     encodeTempChunk temp version s
     = Ok ((StoredChunk new, false),
           {| repo := {| dir := dir r2;
                         fingerprints := <[makeFingerprint temp := new]> (fingerprints r2);
                         sketches := SketchMap_Set (sketches r2) sk new;
                         chunkCache := <[new := temp]> (chunkCache r2) |};
              last := ((last s + 1) `mod` 2 ^ 64)%Z;
              storeQueue := storeQueue s
                              ++ [mkChunkData (mkChunkHashes (makeFingerprint temp) sk)
                                    temp new];
              workerStarted := workerStarted s; tempLog := tempLog s |})).
Proof.
  intros Hfind Hload Hdiff Hsk.
  assert (Htry : tryDeltaEncodeChunk temp (repo s) = Ok ((TempChunk temp, false), r2)).
  { unfold tryDeltaEncodeChunk. rewrite (ST_bind_step _ _ _ _ _ Hfind).
    rewrite (ST_bind_step _ _ _ _ _ Hload). by rewrite Hdiff. }
  assert (Hwith : withRepo (tryDeltaEncodeChunk temp) s
                  = Ok ((TempChunk temp, false),
                        {| repo := r2; last := last s; storeQueue := storeQueue s;
                           workerStarted := workerStarted s; tempLog := tempLog s |})).
  { unfold withRepo. by rewrite Htry. }
  split; [done|]. unfold encodeTempChunk. rewrite (ST_bind_step _ _ _ _ _ Hwith).
  split; intros Hlen.
  - by rewrite decide_False.
  - rewrite decide_True by done.
    unfold ST_bind, get, put, withRepo, hashChunk, ST_bind, liftR, modify.
    cbn [repo last storeQueue workerStarted tempLog]. rewrite Hsk. done.
Qed.

(** ** Restoring reads only *)

Lemma Reader_read_only (c : Chunk) (r r' : Repo) (data : list byte) :
  Reader c r = Ok (data, r') →
  dir r' = dir r ∧ fingerprints r' = fingerprints r ∧ sketches r' = sketches r
  ∧ chunkCache r ⊆ chunkCache r'.
Proof.
  assert (Hload : ∀ id r r' v, LoadChunkContent id r = Ok (v, r') →
            dir r' = dir r ∧ fingerprints r' = fingerprints r ∧ sketches r' = sketches r
            ∧ chunkCache r ⊆ chunkCache r').
  { intros id r0 r0' v. unfold LoadChunkContent.
    destruct (chunkCache r0 !! id) eqn:Hc; [by intros [= _ <-]|].
    destruct (readChunkFile (dir r0) id); [|done]. intros [= _ <-]. cbn.
    split_and!; try done. by apply insert_subseteq. }
  destruct c as [id|value|source patch n]; cbn [Reader].
  - apply Hload.
  - by intros [= _ <-].
  - intros H. apply ST_bind_Ok in H as (content & r1 & Hm & H). st_prim H. by eapply Hload.
Qed.

Lemma restoreStream_read_only (recipe : list Chunk) (r r' : Repo) (data : list byte) :
  restoreStream recipe r = Ok (data, r') →
  dir r' = dir r ∧ fingerprints r' = fingerprints r ∧ sketches r' = sketches r
  ∧ chunkCache r ⊆ chunkCache r'.
Proof.
  revert r data. induction recipe as [|c recipe IH]; intros r data H; cbn [restoreStream] in H.
  - by st_prim H.
  - apply ST_bind_Ok in H as (d1 & r1 & Hm & H).
    apply ST_bind_Ok in H as (d2 & r2 & Hm2 & H). st_prim H.
    apply Reader_read_only in Hm as (? & ? & ? & ?).
    apply IH in Hm2 as (? & ? & ? & ?).
    split_and!; try congruence. by etrans.
Qed.

(** X16.  [Restore] only reads the repository: it leaves the version
    directories and the two index maps as they were. *)
Theorem Restore_read_only (r r' : Repo) (out : list (string * list byte)) :
  Restore r = Ok (out, r') →
  dir r' = dir r ∧ fingerprints r' = fingerprints r ∧ sketches r' = sketches r.
Proof.
  unfold Restore. intros H.
  apply ST_bind_Ok in H as (r0 & r1 & Hget & H). unfold get in Hget. simplify_eq.
  destruct (List.last _ _) as [latest|]; [|done].
  destruct (filesFile latest) as [files|]; [|done].
  destruct (recipeFile latest) as [recipe|]; [|done].
  apply ST_bind_Ok in H as (stream & r2 & Hstream & H). st_prim H.
  apply restoreStream_read_only in Hstream as (? & ? & ? & _). done.
Qed.


(** ** The similarity search and its threshold *)

Lemma candidates_elem_iff (sketches : SketchMap) (sk : list Z) (id : ChunkId) :
  id ∈ candidates sketches sk
  ↔ ∃ s ids, s ∈ sk ∧ sketches !! s = Some ids ∧ id ∈ ids.
Proof.
  unfold candidates. split.
  - intros Hin. apply list_elem_of_In, in_concat in Hin as (ids & Hids & Hin).
    apply list_elem_of_In, list_elem_of_omap in Hids as (s & Hs & Hlook).
    exists s, ids. split_and!; [done|done|by apply list_elem_of_In].
  - intros (s & ids & Hs & Hlook & Hin). apply list_elem_of_In, in_concat.
    exists ids. split; [|by apply list_elem_of_In].
    apply list_elem_of_In, list_elem_of_omap. by exists s.
Qed.

(** X20.  One shared super-feature is enough: the similarity search
    returns a chunk exactly when some super-feature of the query is listed
    in the sketch index with at least one identifier, and the chunk it
    returns is listed under a super-feature of the query.  It never changes
    the repository. *)
Theorem findSimilarChunk_found_iff (c : list byte) (r : Repo) (sk : list Z) :
  makeSketch c = Ok sk →
  ∃ found,
    findSimilarChunk c r = Ok (found, r)
    ∧ (is_Some found ↔ ∃ s ids id, s ∈ sk ∧ sketches r !! s = Some ids ∧ id ∈ ids)
    ∧ ∀ id, found = Some id → ∃ s ids, s ∈ sk ∧ sketches r !! s = Some ids ∧ id ∈ ids.
Proof.
  intros Hsk. unfold makeSketch in Hsk. unfold findSimilarChunk. rewrite Hsk.
  unfold liftR, ST_bind, get. cbn [mret ST_mret]. eexists. split; [reflexivity|].
  rewrite votes_returns_last. split.
  - split.
    + intros [id Hid]. apply last_Some_elem_of, candidates_elem_iff in Hid
        as (s & ids & ? & ? & ?). by exists s, ids, id.
    + intros (s & ids & id & Hs & Hl & Hin).
      assert (Hc : id ∈ candidates (sketches r) sk) by (apply candidates_elem_iff; eauto).
      destruct (list.last (candidates (sketches r) sk)) as [x|] eqn:Hlast; [by eexists|].
      apply last_None in Hlast. rewrite Hlast in Hc. by apply elem_of_nil in Hc.
  - intros id Hid. by apply last_Some_elem_of, candidates_elem_iff in Hid.
Qed.

(** ** Commits after a version without hashes file *)

(** X21.  A repository that holds a version without hashes file cannot be
    committed to: [Commit] panics while it loads the hashes, whatever the
    source tree is, after it has created the directory of the new
    version. *)
Theorem Commit_panics_on_missing_hashes_file (source : list (string * list byte))
    (r : Repo) :
  Exists (λ v, hashesFile v = None) (dir r) →
  Commit source r = Panic.
Proof.
  intros Hex. unfold Commit, ST_bind, get, modify. cbn [dir].
  unfold loadHashes. by rewrite loadHashesFrom_missing.
Qed.


(** ** The version that a commit without write failure leaves *)

Lemma map_seqZ_size {A : Type} (l : list A) :
  size (map_seqZ 0 l : gmap Z A) = length l.
Proof.
  induction l as [|x l IH] using rev_ind; [done|].
  rewrite map_seqZ_snoc, map_size_insert_None, IH, length_app; [cbn; lia|].
  apply map_seqZ_snoc_disjoint.
Qed.

Lemma storeOne_fold_exact (version : nat) (queue : list chunkData) (d d' : Disk)
    (v : VersionDir) (pre : list (list byte)) (log log' : list event) :
  (∀ id, fault id = StoreOk) →
  d !! version = Some v →
  chunksDir v = map_seqZ 0 pre →
  (∀ j data, queue !! j = Some data →
             cid data = mkChunkId version (Z.of_nat (length pre + j))) →
  fold_left (storeOne version) queue (d, log) = (d', log') →
  ∃ v', d' !! version = Some v'
        ∧ chunksDir v' = map_seqZ 0 (pre ++ (content <$> queue)).
Proof.
  intros Hok. revert d v pre log.
  induction queue as [|data queue IH]; intros d v pre log Hv Hpre Hids Hfold.
  - cbn in Hfold. injection Hfold as <- <-. exists v. by rewrite app_nil_r.
  - assert (Hlt : version < length d) by by eapply lookup_lt_Some.
    pose proof (Hids 0 data eq_refl) as Hid0. rewrite Nat.add_0_r in Hid0.
    cbn [fold_left] in Hfold. unfold storeOne at 2 in Hfold. rewrite Hv in Hfold.
    unfold StoreChunkContent in Hfold. rewrite Hid0 in Hfold. cbn [Ver Idx] in Hfold.
    rewrite list_lookup_insert_eq in Hfold by done. rewrite Hok in Hfold.
    cbn [chunksDir hashesFile filesFile recipeFile] in Hfold.
    eapply (IH _ _ (pre ++ [content data])) in Hfold as (v' & Hv' & Hc').
    + exists v'. split; [done|]. rewrite Hc'. cbn [fmap list_fmap].
      by rewrite <- app_assoc.
    + apply list_lookup_insert_eq. by rewrite length_insert.
    + cbn [chunksDir]. rewrite Hpre, map_seqZ_snoc. f_equal.
    + intros j data' Hj. rewrite length_app. cbn [length].
      replace (length pre + 1 + j) with (length pre + S j) by lia. by apply Hids.
Qed.

(** The call of the storage worker that a run on a stream of at least
    [chunkSize] bytes ends with. *)
Lemma matchStream_worker (stream : list byte) (version : nat) (s s' : State)
    (recipe : list Chunk) :
  0 < chunkSize → chunkSize ≤ length stream →
  matchStream stream version s = Ok (recipe, s') →
  storeQueue s = [] →
  queuedIn version s'
  ∧ ∃ log, storageWorker version (storeQueue s') (dir (repo s)) = Ok (dir (repo s'), log).
Proof.
  intros Hcs Hlen H Hq.
  assert (Hrefl : ∀ s, Dir_step version s s) by (by split).
  assert (Htrans : ∀ s1 s2 s3, Dir_step version s1 s2 → Dir_step version s2 s3 →
                               Dir_step version s1 s3).
  { intros s1 s2 s3 [H1 H1'] [H2 H2']. split; [congruence|auto]. }
  assert (Htemp : ∀ (value : list byte) (s : State),
             Dir_step version s
               {| repo := repo s; last := last s; storeQueue := storeQueue s;
                  workerStarted := workerStarted s; tempLog := tempLog s ++ [value] |})
    by (by split).
  assert (Henc : ∀ (temp : list byte) (s s' : State) (cb : Chunk * bool),
             encodeTempChunk temp version s = Ok (cb, s') → Dir_step version s s').
  { intros temp s1 s2 cb He. split; [by eapply encodeTempChunk_dir|].
    by eapply encodeTempChunk_queuedIn. }
  destruct (matchStream_lift version (Dir_step version) Hrefl Htrans Htemp Henc
              stream s s' recipe Hcs Hlen H) as (s2 & [Hdir Hin] & Hjoin).
  unfold joinWorker in Hjoin.
  destruct (storageWorker _ _ _) as [[d lg]| |] eqn:Hw; [|done..]. injection Hjoin as <-.
  cbn [startState repo storeQueue dir] in *. rewrite Hdir in Hw. split; [|by exists lg].
  apply Hin. unfold queuedIn. cbn. rewrite Hq. constructor.
Qed.

(** X22.  A commit without write failure leaves a version whose hashes
    file matches its payload files: when the payload writes all succeed
    and the stream has at least [chunkSize] bytes, the new version holds
    the payloads [0 .. n-1] of the [n] chunks that were queued, each of
    [chunkSize] bytes, and record [j] of its hashes file is the fingerprint
    and the sketch of payload [j]; the earlier versions are as before. *)
Theorem Commit_leaves_hashed_version (source : list (string * list byte)) (d : Disk)
    (r1 : Repo) :
  0 < chunkSize → (∀ id, fault id = StoreOk) →
  chunkSize ≤ length (concatFiles source) →
  Commit source (NewRepo d) = Ok (tt, r1) →
  (∀ v recs, list.last (dir r1) = Some v → hashesFile v = Some recs →
             (Z.of_nat (length recs) < 2 ^ 64)%Z) →
  ∃ v payloads,
    dir r1 = d ++ [v]
    ∧ versionHashed v
    ∧ Forall (λ p, length p = chunkSize) payloads
    ∧ chunksDir v = map_seqZ 0 payloads.
Proof.
  intros Hcs Hok Hlen H Hbound.
  apply Commit_Ok_inv in H as (rb & recipe & s' & Hload & Hmatch & ->).
  destruct (matchStream_Commit_dir _ _ _ _ _ Hcs Hload Hmatch)
    as (v' & Hd & _ & _ & Hh & _).
  specialize (Hh Hlen). cbn [dir NewRepo] in *.
  assert (Hdir1 : storeFilesAndRecipe (length d) (listFiles source) recipe (dir (repo s'))
                  = d ++ [{| chunksDir := chunksDir v'; hashesFile := hashesFile v';
                             filesFile := Some (listFiles source);
                             recipeFile := Some recipe |}]).
  { rewrite Hd. unfold storeFilesAndRecipe.
    rewrite lookup_app_r, Nat.sub_diag by done. cbn [lookup list_lookup].
    by rewrite insert_app_r_alt, Nat.sub_diag by done. }
  rewrite Hdir1 in *. clear Hdir1.
  specialize (Hbound _ _ (last_snoc _ _) Hh). rewrite length_fmap in Hbound.
  destruct (matchStream_worker _ _ _ _ _ Hcs Hlen Hmatch eq_refl) as (Hin & log & Hw).
  pose proof (matchStream_Queue_inv _ _ rb _ _ _ Hcs Hmatch) as Hinv.
  destruct Hinv as (_ & Hq & _); [by split_and!|done|].
  assert (Hdirb : dir rb = d ++ [emptyVersionDir]).
  { unfold loadHashes in Hload.
    pose proof (loadHashesFrom_Ok_inv _ _ _ _ Hload) as Hall.
    rewrite (loadHashesFrom_spec _ _ _ Hall) in Hload. injection Hload as <-.
    by rewrite indexRecord_fold_dir. }
  cbn [commitState repo] in Hw. rewrite Hdirb in Hw.
  unfold storageWorker in Hw.
  rewrite lookup_app_r, Nat.sub_diag in Hw by done. cbn [lookup list_lookup] in Hw.
  destruct (fold_left _ _ _) as [d2 log2] eqn:Hfold. injection Hw as Hd2 _.
  eapply (storeOne_fold_exact _ _ _ _ _ []) in Hfold as (v2 & Hv2 & Hc2); [|done| | |].
  2:{ apply list_lookup_insert_eq. rewrite length_app. cbn. lia. }
  2:{ done. }
  2:{ intros j data Hj. by destruct (Hq j data Hj) as (-> & _). }
  rewrite Hd2, Hd in Hv2. rewrite lookup_app_r, Nat.sub_diag in Hv2 by done.
  injection Hv2 as ->. cbn [app] in Hc2.
  eexists _, (content <$> storeQueue s'). split; [done|]. split_and!.
  - exists (content <$> storeQueue s'), (hashes <$> storeQueue s'). cbn.
    split; [done|]. rewrite Hc2. split; [by rewrite map_seqZ_size|]. split.
    + intros j. rewrite lookup_map_seqZ_0 by lia. by rewrite Nat2Z.id.
    + apply Forall2_fmap, Forall_Forall2_diag, Forall_lookup.
      intros j data Hj. by destruct (Hq j data Hj) as (_ & _ & ? & ?).
  - apply Forall_fmap, Forall_lookup. intros j data Hj.
    by destruct (Hq j data Hj) as (_ & ? & _).
  - done.
Qed.

End Engine.


(** Comparisons of concrete numbers are decided by evaluation. *)
Ltac by_eval :=
  first [ apply Nat.ltb_lt; vm_compute; reflexivity
        | apply Nat.leb_le; vm_compute; reflexivity
        | vm_compute; reflexivity ].

(** * Worked examples

    The theorems above are applied to the fixtures, and the statements of
    the specification that the code does not satisfy are evaluated on
    concrete inputs. *)


(** The default parameters: an 8192-byte chunk has three super-features. *)
Lemma SketchChunk_superfeature_count_witness :
  length (replicate 8192 x00) = 8192
  ∧ 0 < 8192 / (3 * 4)
  ∧ ∃ sk, sketch.SketchChunk (replicate 8192 x00) demoHash 8192 32 3 4 = Ok sk
          ∧ length sk = 3.
Proof.
  assert (H1 : length (replicate 8192 x00) = 8192) by apply length_replicate.
  assert (H2 : 0 < 8192 / (3 * 4)) by by_eval.
  split; [exact H1|]. split; [exact H2|].
  destruct (SketchChunk_superfeature_count demoHash (replicate 8192 x00) 8192 32 3 4 H1 H2)
    as (sk & Hsk & _ & H3).
  exists sk. split; [exact Hsk|]. apply H3. by_eval.
Defined.

(** C2: the single 590-byte file of scenario S1, with the default chunk
    size. *)
Lemma matchStream_short_stream_panics_witness :
  0 < length (replicate 590 x00)
  ∧ length (replicate 590 x00) < 8192
  ∧ matchStream 8192 32 3 4 demoHash copyDiff noFault (replicate 590 x00) 0 demoState
    = Panic.
Proof.
  assert (H1 : 0 < length (replicate 590 x00)) by by_eval.
  assert (H2 : length (replicate 590 x00) < 8192) by by_eval.
  split; [exact H1|]. split; [exact H2|].
  exact (matchStream_short_stream_panics 8192 32 3 4 demoHash copyDiff noFault
           (replicate 590 x00) 0 demoState H1 H2).
Defined.

(** C1: the same tree cannot be committed. *)
Lemma Commit_short_tree_panics_witness :
  0 < length (concatFiles [("logTest.log"%string, replicate 590 x00)])
  ∧ length (concatFiles [("logTest.log"%string, replicate 590 x00)]) < 8192
  ∧ Commit 8192 32 3 4 demoHash copyDiff noFault
      [("logTest.log"%string, replicate 590 x00)] (NewRepo [])
    = Panic.
Proof.
  assert (H1 : 0 < length (concatFiles [("logTest.log"%string, replicate 590 x00)]))
    by by_eval.
  assert (H2 : length (concatFiles [("logTest.log"%string, replicate 590 x00)]) < 8192)
    by by_eval.
  split; [exact H1|]. split; [exact H2|].
  exact (Commit_short_tree_panics 8192 32 3 4 demoHash copyDiff noFault _ H1 H2).
Defined.

(** C1, second defect: a tree of four aligned chunks [X A B X] is committed
    into a fresh repository with a recipe of three stored chunks, and
    restored without [B]. *)
Lemma roundtrip_loses_chunk_example :
  ∃ r1 r2 restored,
    Commit 4 1 1 1 demoHash copyDiff noFault demoTree (NewRepo []) = Ok (tt, r1)
    ∧ (recipeFile <$> dir r1)
      = [Some [StoredChunk (mkChunkId 0 0); StoredChunk (mkChunkId 0 1);
               StoredChunk (mkChunkId 0 0)]]
    ∧ Restore copyPatch (NewRepo (dir r1)) = Ok (restored, r2)
    ∧ restored = [("a"%string, demoX ++ demoA); ("b"%string, demoX)]
    ∧ restored ≠ demoTree.
Proof.
  eexists _, _, _. split; [vm_compute; reflexivity|].
  split; [vm_compute; reflexivity|].
  split; [vm_compute; reflexivity|].
  split; [reflexivity|]. vm_compute. discriminate.
Qed.


(** C3: with a differ that stores the target verbatim, the second of two
    ten-byte chunks with equal sketches becomes a delta chunk whose patch
    has ten bytes, although [chunkSize / 10] is one. *)
Lemma delta_patch_bound_counterexample :
  ∃ s' patch,
    matchStream 10 1 1 1 demoHash copyDiff noFault (demoP ++ demoP') 0 demoState
    = Ok ([StoredChunk (mkChunkId 0 0); DeltaChunk (mkChunkId 0 0) patch 10], s')
    ∧ ¬ (length patch < 10 / 10).
Proof.
  eexists _, _. split; [vm_compute; reflexivity|]. vm_compute. lia.
Qed.

Lemma delta_accepted_whatever_patch_size_witness :
  findSimilarChunk 10 1 1 1 demoHash demoP' (repo demoDeltaState)
  = Ok (Some (mkChunkId 0 0), repo demoDeltaState)
  ∧ LoadChunkContent (mkChunkId 0 0) (repo demoDeltaState)
    = Ok (demoP, repo demoDeltaState)
  ∧ copyDiff demoP demoP' = Some demoP'
  ∧ ¬ (length demoP' < 10 / 10)
  ∧ encodeTempChunk 10 1 1 1 demoHash copyDiff demoP' 0 demoDeltaState
    = Ok ((DeltaChunk (mkChunkId 0 0) demoP' (length demoP'), true), demoDeltaState).
Proof.
  assert (H1 : findSimilarChunk 10 1 1 1 demoHash demoP' (repo demoDeltaState)
               = Ok (Some (mkChunkId 0 0), repo demoDeltaState)) by by_eval.
  assert (H2 : LoadChunkContent (mkChunkId 0 0) (repo demoDeltaState)
               = Ok (demoP, repo demoDeltaState)) by by_eval.
  assert (H3 : copyDiff demoP demoP' = Some demoP') by reflexivity.
  split; [exact H1|]. split; [exact H2|]. split; [exact H3|].
  split; [vm_compute; lia|].
  exact (proj2 (delta_accepted_whatever_patch_size 10 1 1 1 demoHash copyDiff
                  demoP' 0 demoDeltaState (mkChunkId 0 0) _ _ demoP demoP' H1 H2 H3)).
Defined.

(** C4: the buffer holds [demoA ++ demoX] (twice the chunk size of four)
    and the window [demoX] is in the index; after the iteration the recipe
    holds the reference to the matched chunk and nothing for [demoA]. *)
Lemma loopBody_hit_on_full_buffer_drops_prefix_witness :
  fingerprints (repo demoHitState) !! rabinkarp64.Sum64 (hasher demoHitLoop)
  = Some (mkChunkId 0 0)
  ∧ length (buff demoHitLoop) = 4 * 2
  ∧ take 4 (buff demoHitLoop) = demoA
  ∧ ∃ l', loopBody 4 1 1 1 demoHash copyDiff 0 demoHitLoop demoHitState
          = Ok (l', demoHitState)
          ∧ chunks l' = [StoredChunk (mkChunkId 0 0)]
          ∧ prev l' = None
          ∧ buff l' = []
          ∧ tempLog demoHitState = [].
Proof.
  assert (H1 : fingerprints (repo demoHitState)
               !! rabinkarp64.Sum64 (hasher demoHitLoop) = Some (mkChunkId 0 0))
    by by_eval.
  assert (H2 : length (buff demoHitLoop) = 4 * 2) by reflexivity.
  split; [exact H1|]. split; [exact H2|]. split; [reflexivity|].
  destruct (loopBody_hit_on_full_buffer_drops_prefix 4 1 1 1 demoHash copyDiff 0
              demoHitLoop demoHitState (mkChunkId 0 0) H1 H2 eq_refl eq_refl)
    as (l' & Hl & Hc & Hp & Hb & _).
  exists l'. split; [exact Hl|]. split; [exact Hc|]. split; [exact Hp|].
  split; [exact Hb|reflexivity].
Defined.

(** The index of the example of C5 is the one two calls of [hashChunk]
    build. *)
Lemma demoIndex_from_hashChunk :
  ∃ rA fpA skA fpB skB,
    hashChunk 3 1 3 1 demoHash (mkChunkId 0 0) demoNearA (NewRepo []) = Ok ((fpA, skA), rA)
    ∧ hashChunk 3 1 3 1 demoHash (mkChunkId 0 1) demoNearB rA = Ok ((fpB, skB), demoIndex).
Proof. eexists _, _, _, _, _. split; vm_compute; reflexivity. Qed.

Lemma findSimilarChunk_returns_fewer_votes_witness :
  ∃ s1 s2 s3,
    sketch.SketchChunk demoQuery demoHash 3 1 3 1 = Ok [s1; s2; s3]
    ∧ sketches demoIndex !! s1 = Some [mkChunkId 0 0]
    ∧ sketches demoIndex !! s2 = Some [mkChunkId 0 0]
    ∧ sketches demoIndex !! s3 = Some [mkChunkId 0 1]
    ∧ findSimilarChunk 3 1 3 1 demoHash demoQuery demoIndex
      = Ok (Some (mkChunkId 0 1), demoIndex).
Proof.
  exists 222442740936485386%Z, 296493900468007179%Z, 370545059999528972%Z.
  assert (H0 : sketch.SketchChunk demoQuery demoHash 3 1 3 1
               = Ok [222442740936485386%Z; 296493900468007179%Z; 370545059999528972%Z])
    by by_eval.
  assert (H1 : sketches demoIndex !! 222442740936485386%Z = Some [mkChunkId 0 0])
    by by_eval.
  assert (H2 : sketches demoIndex !! 296493900468007179%Z = Some [mkChunkId 0 0])
    by by_eval.
  assert (H3 : sketches demoIndex !! 370545059999528972%Z = Some [mkChunkId 0 1])
    by by_eval.
  split; [exact H0|]. split; [exact H1|]. split; [exact H2|]. split; [exact H3|].
  refine (proj1 (findSimilarChunk_returns_fewer_votes 3 1 3 1 demoHash demoQuery
                   demoIndex _ _ _ (mkChunkId 0 0) (mkChunkId 0 1) H0 H1 H2 H3 _)).
  discriminate.
Defined.

(** C6: two records with fingerprint 7 are loaded; the index keeps the
    identifier of the second, not that of the first. *)
Lemma fingerprint_first_write_counterexample :
  ∃ r', loadHashes [demoCollision] (NewRepo [demoCollision]) = Ok (tt, r')
        ∧ allRecordsFrom 0 [demoCollision]
          = [(mkChunkId 0 0, mkChunkHashes 7 [1%Z]); (mkChunkId 0 1, mkChunkHashes 7 [2%Z])]
        ∧ fingerprints r' !! 7%Z = Some (mkChunkId 0 1)
        ∧ fingerprints r' !! 7%Z ≠ Some (mkChunkId 0 0).
Proof.
  eexists. split; [vm_compute; reflexivity|]. split; [reflexivity|].
  split; [vm_compute; reflexivity|]. vm_compute. discriminate.
Qed.

Lemma fingerprint_last_write_wins_witness :
  Forall (λ v, is_Some (hashesFile v)) [demoCollision]
  ∧ ∃ r', loadHashes [demoCollision] (NewRepo [demoCollision]) = Ok (tt, r')
          ∧ fingerprints r' !! 7%Z = Some (mkChunkId 0 1).
Proof.
  assert (H : Forall (λ v, is_Some (hashesFile v)) [demoCollision]).
  { apply Forall_singleton. eexists. reflexivity. }
  split; [exact H|].
  destruct (proj1 (fingerprint_last_write_wins 4 1 1 1 demoHash)
              [demoCollision] (NewRepo [demoCollision]) H) as (r' & Hload & Hlast).
  exists r'. split; [exact Hload|].
  apply (Hlast [(mkChunkId 0 0, mkChunkHashes 7 [1%Z])] (mkChunkId 0 1)
               (mkChunkHashes 7 [2%Z]) []); [reflexivity|constructor].
Defined.

(** C7: with the default parameters. *)
Lemma loadHashes_panics_after_empty_commit_witness :
  0 < 8192
  ∧ ∃ r1, Commit 8192 32 3 4 demoHash copyDiff noFault [] (NewRepo []) = Ok (tt, r1)
          ∧ loadHashes (dir r1) (NewRepo (dir r1)) = Panic
          ∧ hashChunks 8192 32 3 4 demoHash (loadChunks (dir r1)) (NewRepo (dir r1))
            = Ok (tt, NewRepo (dir r1)).
Proof.
  assert (H : 0 < 8192) by by_eval.
  split; [exact H|].
  destruct (loadHashes_panics_after_empty_commit 8192 32 3 4 demoHash copyDiff noFault H)
    as (r1 & H1 & _ & H2 & H3).
  exists r1. split; [exact H1|]. split; [exact H2|exact H3].
Defined.

(** C9: the empty stream, with the default parameters, gives one temporary
    chunk without any byte. *)
Lemma tempChunk_lengths_counterexample :
  ∃ s' t,
    matchStream 8192 32 3 4 demoHash copyDiff noFault [] 0 demoState
    = Ok ([TempChunk t], s')
    ∧ tempLog s' = [t]
    ∧ ¬ (1 ≤ length t).
Proof.
  eexists _, _. rewrite matchStream_empty by by_eval.
  split; [reflexivity|]. split; [reflexivity|]. simpl. lia.
Qed.

Lemma tempChunk_lengths_witness :
  0 < 4
  ∧ tempLog demoState = []
  ∧ ∃ recipe s',
      matchStream 4 2 1 2 demoHash copyDiff noFault (demoX ++ bytes_of [7]) 0 demoState
      = Ok (recipe, s')
      ∧ Forall (λ t, length t < 4 * 2 ∧ (demoX ++ bytes_of [7] ≠ [] → 1 ≤ length t))
               (tempLog s').
Proof.
  assert (H0 : 0 < 4) by lia.
  split; [exact H0|]. split; [reflexivity|].
  assert (H : ∃ recipe s',
             matchStream 4 2 1 2 demoHash copyDiff noFault (demoX ++ bytes_of [7]) 0 demoState
             = Ok (recipe, s')) by (vm_compute; eexists _, _; reflexivity).
  destruct H as (recipe & s' & H).
  exists recipe, s'. split; [exact H|].
  exact (proj2 (tempChunk_lengths 4 2 1 2 demoHash copyDiff noFault _ 0 demoState s'
                  recipe H0 eq_refl H)).
Defined.

(** C10: the payload of the second queued chunk cannot be created; its
    record is in the hashes file and its payload file is not there. *)
Lemma storageWorker_record_without_payload_witness :
  [demoDir] !! 0 = Some demoDir
  ∧ Forall (λ data, Ver (cid data) = 0) demoQueue
  ∧ ∃ d' v',
      storageWorker demoFault 0 demoQueue [demoDir] = Ok (d', workerTrace demoFault demoQueue)
      ∧ d' !! 0 = Some v'
      ∧ hashesFile v' = Some [mkChunkHashes 11 [21%Z]; mkChunkHashes 12 [22%Z]]
      ∧ chunksDir v' !! 1%Z = None.
Proof.
  assert (H1 : [demoDir] !! 0 = Some demoDir) by reflexivity.
  assert (H2 : Forall (λ data, Ver (cid data) = 0) demoQueue).
  { repeat constructor. }
  split; [exact H1|]. split; [exact H2|].
  destruct (storageWorker_record_without_payload demoFault 0 demoQueue [demoDir] demoDir H1 H2)
    as (d' & v' & Hw & Hd & Hh & Hc).
  exists d', v'. split; [exact Hw|]. split; [exact Hd|]. split; [exact Hh|].
  refine (proj2 (Hc (mkChunkData (mkChunkHashes 12 [22%Z]) demoA (mkChunkId 0 1)) _ _ _)).
  - apply list_elem_of_further, list_elem_of_here.
  - reflexivity.
  - reflexivity.
Defined.



(** ** Worked examples of the further properties *)

Lemma calcFeature_is_max_window_hash_witness :
  0 < 2 ∧ 2 ≤ 4 ∧ length demoX = 4
  ∧ (∀ i, i ≤ 4 - 2 →
          (demoHash (windowAt demoX 2 i) ≤ sketch.calcFeature demoHash demoX 2 4)%Z)
  ∧ ∃ i, i ≤ 4 - 2 ∧ sketch.calcFeature demoHash demoX 2 4 = demoHash (windowAt demoX 2 i).
Proof.
  assert (H1 : 0 < 2) by lia. assert (H2 : 2 ≤ 4) by lia.
  assert (H3 : length demoX = 4) by reflexivity.
  split; [exact H1|]. split; [exact H2|]. split; [exact H3|].
  exact (calcFeature_is_max_window_hash demoHash demoX 2 4 H1 H2 H3).
Defined.

(** Two chunks of eight bytes that agree on their first four bytes: with
    two super-features of two features of two bytes, the first
    super-features are equal and the second differ. *)
Lemma SketchChunk_superfeature_local_witness :
  sketch.SketchChunk (demoX ++ demoA) demoHash 8 1 2 2
  = Ok [1998757980636760088%Z; 18031385632576446496%Z]
  ∧ sketch.SketchChunk (demoX ++ demoB) demoHash 8 1 2 2
    = Ok [1998757980636760088%Z; 15617269210806581288%Z]
  ∧ superFeatureRegion (demoX ++ demoA) (8 / (2 * 2)) 2 0
    = superFeatureRegion (demoX ++ demoB) (8 / (2 * 2)) 2 0
  ∧ [1998757980636760088%Z; 18031385632576446496%Z] !! 0
    = [1998757980636760088%Z; 15617269210806581288%Z] !! 0.
Proof.
  assert (H1 : sketch.SketchChunk (demoX ++ demoA) demoHash 8 1 2 2
               = Ok [1998757980636760088%Z; 18031385632576446496%Z])
    by (vm_compute; reflexivity).
  assert (H2 : sketch.SketchChunk (demoX ++ demoB) demoHash 8 1 2 2
               = Ok [1998757980636760088%Z; 15617269210806581288%Z])
    by (vm_compute; reflexivity).
  assert (Hregion : superFeatureRegion (demoX ++ demoA) (8 / (2 * 2)) 2 0
                    = superFeatureRegion (demoX ++ demoB) (8 / (2 * 2)) 2 0)
    by reflexivity.
  split; [exact H1|]. split; [exact H2|]. split; [exact Hregion|].
  apply (SketchChunk_superfeature_local demoHash _ _ 8 1 2 2 _ _ 0 H1 H2);
    [cbn; lia|cbn; lia|exact Hregion].
Defined.

Lemma SketchChunk_panics_iff_feature_size_zero_witness :
  sketch.SketchChunk demoX demoHash 4 1 2 3 = Panic
  ∧ ∃ sk, sketch.SketchChunk demoX demoHash 8 1 2 2 = Ok sk ∧ length sk = 4 / (8 / (2 * 2)) / 2.
Proof.
  destruct (SketchChunk_panics_iff_feature_size_zero demoHash demoX 4 1 2 3) as [[_ Hp] _].
  destruct (SketchChunk_panics_iff_feature_size_zero demoHash demoX 8 1 2 2) as [_ Hok].
  split; [apply Hp; right; cbn; lia|].
  destruct Hok as (sk & Hsk & Hlen & _); [cbn; lia|].
  exists sk. split; [exact Hsk|exact Hlen].
Defined.

Lemma encodeTempChunk_short_chunk_unchanged_witness :
  0 < 2 * 2 ≤ 8
  ∧ length (bytes_of [7]) < 2 * (8 / (2 * 2))
  ∧ encodeTempChunk 8 1 2 2 demoHash copyDiff (bytes_of [7]) 0 demoState
    = Ok ((TempChunk (bytes_of [7]), false), demoState).
Proof.
  assert (H1 : 0 < 2 * 2 ≤ 8) by (cbn; lia).
  assert (H2 : length (bytes_of [7]) < 2 * (8 / (2 * 2))) by (cbn; lia).
  split; [exact H1|]. split; [exact H2|].
  exact (proj2 (encodeTempChunk_short_chunk_unchanged 8 1 2 2 demoHash copyDiff
                  (bytes_of [7]) 0 demoState H1 H2)).
Defined.

Lemma SketchMap_Set_spec_witness :
  1%Z ∈ [1%Z; 2%Z; 1%Z]
  ∧ (∃ ids, SketchMap_Set ∅ [1%Z; 2%Z; 1%Z] (mkChunkId 0 0) !! 1%Z = Some ids
            ∧ mkChunkId 0 0 ∈ ids)
  ∧ SketchMap_Set (SketchMap_Set ∅ [1%Z; 2%Z; 1%Z] (mkChunkId 0 0)) [1%Z; 2%Z; 1%Z]
      (mkChunkId 0 0)
    = SketchMap_Set ∅ [1%Z; 2%Z; 1%Z] (mkChunkId 0 0).
Proof.
  assert (H1 : 1%Z ∈ [1%Z; 2%Z; 1%Z]) by apply list_elem_of_here.
  destruct (SketchMap_Set_spec ∅ [1%Z; 2%Z; 1%Z] (mkChunkId 0 0))
    as (Hin & _ & _ & _ & Hidem).
  split; [exact H1|]. split; [exact (Hin 1%Z H1)|exact Hidem].
Defined.

Lemma hashChunk_then_findSimilarChunk_witness :
  ∃ fp sk s r1,
    hashChunk 3 1 3 1 demoHash (mkChunkId 0 0) demoNearA (NewRepo []) = Ok ((fp, sk), r1)
    ∧ list.last sk = Some s
    ∧ fingerprints r1 !! makeFingerprint demoHash demoNearA = Some (mkChunkId 0 0)
    ∧ findSimilarChunk 3 1 3 1 demoHash demoNearA r1 = Ok (Some (mkChunkId 0 0), r1).
Proof.
  assert (∃ fp sk s r1,
            hashChunk 3 1 3 1 demoHash (mkChunkId 0 0) demoNearA (NewRepo [])
            = Ok ((fp, sk), r1) ∧ list.last sk = Some s)
    as (fp & sk & s & r1 & Hhash & Hlast)
    by (eexists _, _, _, _; split; [vm_compute; reflexivity|reflexivity]).
  assert (Hfresh : mkChunkId 0 0 ∉ default [] (sketches (NewRepo []) !! s)).
  { cbn [NewRepo sketches]. rewrite lookup_empty. apply not_elem_of_nil. }
  exists fp, sk, s, r1. split; [exact Hhash|]. split; [exact Hlast|].
  exact (hashChunk_then_findSimilarChunk 3 1 3 1 demoHash _ _ _ _ _ _ _ Hhash Hlast Hfresh).
Defined.

Lemma StoreChunkContent_then_LoadChunkContent_witness :
  ∃ d' r1,
    StoreChunkContent noFault (mkChunkId 0 0) demoX [demoDir] = (d', true)
    ∧ LoadChunkContent (mkChunkId 0 0) (NewRepo d') = Ok (demoX, r1)
    ∧ LoadChunkContent (mkChunkId 0 0) r1 = Ok (demoX, r1)
    ∧ length d' = 1.
Proof.
  assert (∃ d', StoreChunkContent noFault (mkChunkId 0 0) demoX [demoDir] = (d', true))
    as (d' & Hstore) by (eexists; reflexivity).
  destruct (StoreChunkContent_then_LoadChunkContent noFault (mkChunkId 0 0) demoX
              [demoDir] d' (NewRepo d') Hstore eq_refl (lookup_empty _))
    as (H1 & H2 & H3 & _).
  eexists d', _. split; [exact Hstore|]. split; [exact H1|]. split; [exact H2|exact H3].
Defined.

(** The stream of four bytes is cut for a file list of ten: the second
    file is short and the third is empty. *)
Lemma Restore_cuts_stream_by_file_list_witness :
  ∃ out r',
    Restore copyPatch (NewRepo [demoShortRestoreDir]) = Ok (out, r')
    ∧ length out = 3
    ∧ out !! 0 = Some ("a"%string, bytes_of [1; 2])
    ∧ out !! 1 = Some ("b"%string, bytes_of [3; 4])
    ∧ out !! 2 = Some ("c"%string, [])
    ∧ concat out.*2 = demoX.
Proof.
  assert (Hcache : cacheSound (NewRepo [demoShortRestoreDir])).
  { intros id c Hc. cbn [NewRepo chunkCache] in Hc. by rewrite lookup_empty in Hc. }
  assert (Hyields : recipeYields copyPatch
                      (readChunkFile (dir (NewRepo [demoShortRestoreDir])))
                      [StoredChunk (mkChunkId 0 0)] demoX).
  { exists [demoX]. split; [|reflexivity].
    constructor; [vm_compute; reflexivity|constructor]. }
  destruct (Restore_cuts_stream_by_file_list copyPatch (NewRepo [demoShortRestoreDir])
              demoShortRestoreDir _ _ demoX eq_refl eq_refl eq_refl Hcache Hyields)
    as (out & r' & Hrestore & Hlen & Hcut & Hcat).
  exists out, r'. split; [exact Hrestore|]. split; [exact Hlen|].
  split; [exact (proj1 (Hcut 0 (mkFile "a" 2) eq_refl))|].
  split; [exact (proj1 (Hcut 1 (mkFile "b" 5) eq_refl))|].
  split; [exact (proj1 (Hcut 2 (mkFile "c" 3) eq_refl))|].
  exact Hcat.
Defined.

Lemma Restore_read_only_witness :
  ∃ out r',
    Restore copyPatch (NewRepo [demoRestoreDir]) = Ok (out, r')
    ∧ dir r' = [demoRestoreDir] ∧ fingerprints r' = ∅ ∧ sketches r' = ∅.
Proof.
  assert (∃ out r', Restore copyPatch (NewRepo [demoRestoreDir]) = Ok (out, r'))
    as (out & r' & Hrestore) by (eexists _, _; vm_compute; reflexivity).
  destruct (Restore_read_only copyPatch _ _ _ Hrestore) as (H1 & H2 & H3).
  exists out, r'. split; [exact Hrestore|]. split; [exact H1|]. split; [exact H2|exact H3].
Defined.

Lemma matchStream_queues_full_chunks_witness :
  ∃ recipe s',
    matchStream 4 1 1 1 demoHash copyDiff noFault (demoX ++ demoA ++ demoB) 0
      (commitState (NewRepo [demoDir])) = Ok (recipe, s')
    ∧ length (storeQueue s') = 3
    ∧ ∀ j data, storeQueue s' !! j = Some data →
                cid data = mkChunkId 0 (Z.of_nat j) ∧ length (content data) = 4.
Proof.
  assert (∃ recipe s',
            matchStream 4 1 1 1 demoHash copyDiff noFault (demoX ++ demoA ++ demoB) 0
              (commitState (NewRepo [demoDir])) = Ok (recipe, s')
            ∧ length (storeQueue s') = 3
            ∧ (Z.of_nat (length (storeQueue s')) < 2 ^ 64)%Z)
    as (recipe & s' & Hm & Hlen & Hbound)
    by (eexists _, _; split; [vm_compute; reflexivity|];
        split; [vm_compute; reflexivity|vm_compute; reflexivity]).
  exists recipe, s'. split; [exact Hm|]. split; [exact Hlen|].
  intros j data Hj.
  destruct (matchStream_queues_full_chunks 4 1 1 1 demoHash copyDiff noFault _ _ _ _ _
              ltac:(lia) Hm Hbound j data Hj) as (H1 & H2 & _).
  split; [exact H1|exact H2].
Defined.

Lemma Commit_appends_one_version_witness :
  ∃ r1 v recipe,
    Commit 4 1 1 1 demoHash copyDiff noFault demoTree (NewRepo [demoHashedDir]) = Ok (tt, r1)
    ∧ dir r1 = [demoHashedDir; v]
    ∧ filesFile v = Some (listFiles demoTree)
    ∧ recipeFile v = Some recipe.
Proof.
  assert (∃ r1, Commit 4 1 1 1 demoHash copyDiff noFault demoTree (NewRepo [demoHashedDir])
                = Ok (tt, r1)) as (r1 & Hcommit)
    by (eexists; vm_compute; reflexivity).
  destruct (Commit_appends_one_version 4 1 1 1 demoHash copyDiff noFault _ _ _
              ltac:(lia) Hcommit) as (v & recipe & Hdir & Hfiles & Hrecipe & _).
  exists r1, v, recipe. split; [exact Hcommit|]. split; [exact Hdir|].
  split; [exact Hfiles|exact Hrecipe].
Defined.

Lemma Commit_index_reloads_witness :
  ∃ r1 r2,
    Commit 4 1 1 1 demoHash copyDiff demoFault demoTree (NewRepo []) = Ok (tt, r1)
    ∧ loadHashes (dir r1) (NewRepo (dir r1)) = Ok (tt, r2)
    ∧ fingerprints r2 = fingerprints r1
    ∧ sketches r2 = sketches r1.
Proof.
  assert (∃ r1, Commit 4 1 1 1 demoHash copyDiff demoFault demoTree (NewRepo [])
                = Ok (tt, r1)
                ∧ ∀ v recs, list.last (dir r1) = Some v → hashesFile v = Some recs →
                            (Z.of_nat (length recs) < 2 ^ 64)%Z)
    as (r1 & Hcommit & Hbound).
  { eexists. split; [vm_compute; reflexivity|].
    intros v recs Hlast Hrecs. cbn [dir list.last] in Hlast. injection Hlast as <-.
    cbn [hashesFile] in Hrecs. injection Hrecs as <-. vm_compute. reflexivity. }
  assert (Hlen : 4 ≤ length (concatFiles demoTree)) by by_eval.
  destruct (Commit_index_reloads 4 1 1 1 demoHash copyDiff demoFault demoTree [] r1
              ltac:(lia) Hlen Hcommit Hbound) as (r2 & Hload & Hf & Hs).
  exists r1, r2. split; [exact Hcommit|]. split; [exact Hload|]. split; [exact Hf|exact Hs].
Defined.

Lemma matchStream_known_chunks_witness :
  ∃ s',
    matchStream 4 1 1 1 demoHash copyDiff noFault (concat [demoX; demoX; demoX]) 0
      demoHitState
    = Ok ([StoredChunk (mkChunkId 0 0); StoredChunk (mkChunkId 0 0);
           StoredChunk (mkChunkId 0 0)], s')
    ∧ storeQueue s' = [] ∧ tempLog s' = [].
Proof.
  assert (Hhit : fingerprints (repo demoHitState) !! demoHash demoX = Some (mkChunkId 0 0))
    by (vm_compute; reflexivity).
  destruct (matchStream_known_chunks 4 1 1 1 demoHash copyDiff noFault
              [demoX; demoX; demoX] [mkChunkId 0 0; mkChunkId 0 0; mkChunkId 0 0]
              0 demoHitState demoDir)
    as (s' & Hm & Hq & Ht & _).
  - lia.
  - discriminate.
  - repeat constructor.
  - repeat (constructor; [exact Hhit|]). constructor.
  - reflexivity.
  - exists s'. split; [exact Hm|]. split; [exact Hq|exact Ht].
Defined.

Lemma encodeTempChunks_merge_never_stores_witness :
  chunkMinLen 4 2 1 = Ok 4
  ∧ ∃ cs s',
      encodeTempChunks 4 1 2 1 demoHash copyDiff (Some demoX) (bytes_of [9]) 0 demoState
      = Ok (cs, s')
      ∧ storeQueue s' = [] ∧ cs = [TempChunk demoX; TempChunk (bytes_of [9])].
Proof.
  assert (Hmin : chunkMinLen 4 2 1 = Ok 4) by reflexivity.
  assert (∃ cs s',
            encodeTempChunks 4 1 2 1 demoHash copyDiff (Some demoX) (bytes_of [9]) 0
              demoState = Ok (cs, s')
            ∧ cs = [TempChunk demoX; TempChunk (bytes_of [9])])
    as (cs & s' & Henc & Hcs)
    by (eexists _, _; split; [vm_compute; reflexivity|reflexivity]).
  destruct (encodeTempChunks_merge_never_stores 4 1 2 1 demoHash copyDiff demoX
              (bytes_of [9]) 0 demoState s' cs 4 Hmin) as (Hq & _); try (cbn; lia).
  { exact Henc. }
  split; [exact Hmin|]. exists cs, s'. split; [exact Henc|]. split; [exact Hq|exact Hcs].
Defined.

Lemma encodeTempChunk_differ_error_witness :
  ∃ sk,
    findSimilarChunk 10 1 1 1 demoHash demoP' (repo demoDeltaState)
    = Ok (Some (mkChunkId 0 0), repo demoDeltaState)
    ∧ LoadChunkContent (mkChunkId 0 0) (repo demoDeltaState)
      = Ok (demoP, repo demoDeltaState)
    ∧ failDiff demoP demoP' = None
    ∧ makeSketch 10 1 1 1 demoHash demoP' = Ok sk
    ∧ tryDeltaEncodeChunk 10 1 1 1 demoHash failDiff demoP' (repo demoDeltaState)
      = Ok ((TempChunk demoP', false), repo demoDeltaState).
Proof.
  assert (Hfind : findSimilarChunk 10 1 1 1 demoHash demoP' (repo demoDeltaState)
                  = Ok (Some (mkChunkId 0 0), repo demoDeltaState))
    by (vm_compute; reflexivity).
  assert (Hload : LoadChunkContent (mkChunkId 0 0) (repo demoDeltaState)
                  = Ok (demoP, repo demoDeltaState))
    by (vm_compute; reflexivity).
  assert (Hdiff : failDiff demoP demoP' = None) by reflexivity.
  assert (∃ sk, makeSketch 10 1 1 1 demoHash demoP' = Ok sk) as (sk & Hsk)
    by (eexists; vm_compute; reflexivity).
  exists sk. split; [exact Hfind|]. split; [exact Hload|]. split; [exact Hdiff|].
  split; [exact Hsk|].
  exact (proj1 (encodeTempChunk_differ_error 10 1 1 1 demoHash failDiff demoP' 0
                  demoDeltaState _ _ _ _ sk Hfind Hload Hdiff Hsk)).
Defined.

Lemma matchStream_no_fuel_witness :
  0 < 4
  ∧ matchStream 4 1 1 1 demoHash copyDiff noFault (concatFiles demoTree) 0 demoState
    ≠ OutOfFuel.
Proof.
  assert (H1 : 0 < 4) by lia. split; [exact H1|].
  exact (matchStream_no_fuel 4 1 1 1 demoHash copyDiff noFault (concatFiles demoTree) 0
           demoState H1).
Defined.

Lemma loadHashes_agrees_with_rehash_witness :
  Forall (versionHashed 3 1 3 1 demoHash) [demoHashedDir]
  ∧ ∃ r1 r2,
      loadHashes [demoHashedDir] (NewRepo [demoHashedDir]) = Ok (tt, r1)
      ∧ hashChunks 3 1 3 1 demoHash (loadChunks [demoHashedDir]) (NewRepo [demoHashedDir])
        = Ok (tt, r2)
      ∧ fingerprints r1 = fingerprints r2
      ∧ sketches r1 = sketches r2.
Proof.
  assert (Hall : Forall (versionHashed 3 1 3 1 demoHash) [demoHashedDir]).
  { constructor; [|constructor].
    exists [demoQuery], [mkChunkHashes (demoHash demoQuery) (demoSketch demoQuery)].
    split; [reflexivity|]. split; [reflexivity|]. split.
    - intros [|j]; [reflexivity|].
      cbn [demoHashedDir chunksDir]. rewrite lookup_singleton_ne by lia. by destruct j.
    - constructor; [|constructor]. split; vm_compute; reflexivity. }
  split; [exact Hall|].
  exact (loadHashes_agrees_with_rehash 3 1 3 1 demoHash [demoHashedDir] Hall).
Defined.



Lemma findSimilarChunk_found_iff_witness :
  ∃ sk found,
    makeSketch 3 1 3 1 demoHash demoQuery = Ok sk
    ∧ findSimilarChunk 3 1 3 1 demoHash demoQuery demoIndex = Ok (found, demoIndex)
    ∧ (is_Some found
       ↔ ∃ s ids id, s ∈ sk ∧ sketches demoIndex !! s = Some ids ∧ id ∈ ids).
Proof.
  assert (∃ sk, makeSketch 3 1 3 1 demoHash demoQuery = Ok sk) as (sk & Hsk)
    by (eexists; vm_compute; reflexivity).
  destruct (findSimilarChunk_found_iff 3 1 3 1 demoHash demoQuery demoIndex sk Hsk)
    as (found & Hfind & Hiff & _).
  exists sk, found. split; [exact Hsk|]. split; [exact Hfind|exact Hiff].
Defined.

(** The repository that the commit of an empty tree leaves cannot be
    committed to again. *)
Lemma Commit_panics_on_missing_hashes_file_witness :
  ∃ r1,
    Commit 8192 32 3 4 demoHash copyDiff noFault [] (NewRepo []) = Ok (tt, r1)
    ∧ Exists (λ v, hashesFile v = None) (dir (NewRepo (dir r1)))
    ∧ Commit 8192 32 3 4 demoHash copyDiff noFault demoTree (NewRepo (dir r1)) = Panic.
Proof.
  assert (∃ r1, Commit 8192 32 3 4 demoHash copyDiff noFault [] (NewRepo []) = Ok (tt, r1)
                ∧ Exists (λ v, hashesFile v = None) (dir (NewRepo (dir r1))))
    as (r1 & Hcommit & Hex).
  { eexists. split; [vm_compute; reflexivity|]. by constructor. }
  exists r1. split; [exact Hcommit|]. split; [exact Hex|].
  exact (Commit_panics_on_missing_hashes_file 8192 32 3 4 demoHash copyDiff noFault
           demoTree (NewRepo (dir r1)) Hex).
Defined.

Lemma Commit_leaves_hashed_version_witness :
  ∃ r1 v,
    Commit 4 1 1 1 demoHash copyDiff noFault demoTree (NewRepo []) = Ok (tt, r1)
    ∧ dir r1 = [v]
    ∧ versionHashed 4 1 1 1 demoHash v.
Proof.
  assert (∃ r1, Commit 4 1 1 1 demoHash copyDiff noFault demoTree (NewRepo [])
                = Ok (tt, r1)
                ∧ ∀ v recs, list.last (dir r1) = Some v → hashesFile v = Some recs →
                            (Z.of_nat (length recs) < 2 ^ 64)%Z)
    as (r1 & Hcommit & Hbound).
  { eexists. split; [vm_compute; reflexivity|].
    intros v recs Hlast Hrecs. cbn [dir list.last] in Hlast. injection Hlast as <-.
    cbn [hashesFile] in Hrecs. injection Hrecs as <-. vm_compute. reflexivity. }
  assert (Hlen : 4 ≤ length (concatFiles demoTree)) by by_eval.
  destruct (Commit_leaves_hashed_version 4 1 1 1 demoHash copyDiff noFault demoTree [] r1
              ltac:(lia) ltac:(reflexivity) Hlen Hcommit Hbound)
    as (v & payloads & Hdir & Hhashed & _).
  exists r1, v. split; [exact Hcommit|]. split; [exact Hdir|exact Hhashed].
Defined.
